(** * HessianEstimator (pyhessian.py): parameter codec and curvature operators

    A shallow embedding of [class HessianEstimator].  Tensors are a shape
    together with their entries in row-major order; Python list indexing and
    the tensor operations of the engine ([tf.reshape], [tf.concat],
    [tf.split], ...) return in an error monad whose errors name the
    operation that raised. *)

From Stdlib Require Import List Arith Lia Bool ZArith QArith Qfield SpecFloat.
Import ListNotations.

Close Scope Q_scope.
Close Scope Z_scope.
Open Scope nat_scope.

Set Implicit Arguments.

(** ** Errors and the error monad *)

(** The engine operations that can reject their arguments. *)
Inductive tf_op : Type :=
  | Reshape | Concat | StridedSlice | Split | Multiply | Stack | Unstack
  | Transpose | MatMul.

(** [IndexError] is Python's (and numpy's) list index out of range;
    [TFError op] is the error the engine raises from [op];
    [CallableError] is an error raised by a user supplied callable. *)
Inductive error : Type :=
  | IndexError
  | TFError (op : tf_op)
  | CallableError.

Inductive result (A : Type) : Type :=
  | Ok (a : A)
  | Err (e : error).

Arguments Ok {A} a.
Arguments Err {A} e.

Definition bind {A B : Type} (r : result A) (k : A -> result B) : result B :=
  match r with
  | Ok a => k a
  | Err e => Err e
  end.

Notation "x <- r ;; k" := (bind r (fun x => k))
  (at level 61, r at next level, right associativity).

(** A list comprehension [[f x for x in xs]] whose body may raise: the first
    error, in iteration order, is the one that propagates. *)
Fixpoint mapM {A B : Type} (f : A -> result B) (xs : list A) : result (list B) :=
  match xs with
  | [] => Ok []
  | x :: xs' => y <- f x ;; ys <- mapM f xs' ;; Ok (y :: ys)
  end.

(** [xs[i]] for a non-negative index. *)
Definition index {A : Type} (xs : list A) (i : nat) : result A :=
  match nth_error xs i with
  | Some x => Ok x
  | None => Err IndexError
  end.

(** [xs[-1]]. *)
Definition index_last {A : Type} (xs : list A) : result A :=
  match xs with
  | [] => Err IndexError
  | _ => index xs (length xs - 1)
  end.

(** [range(n)]. *)
Definition range (n : nat) : list nat := seq 0 n.

(** ** Tensors *)

Record tensor (A : Type) : Type := mkT { shape : list nat; data : list A }.

Arguments mkT {A} shape data.

(** Number of entries of a tensor of the given shape. *)
Definition numel (sh : list nat) : nat := fold_right Nat.mul 1 sh.

Definition list_sum (ns : list nat) : nat := fold_right Nat.add 0 ns.

Definition shape_eqb (s1 s2 : list nat) : bool :=
  if list_eq_dec Nat.eq_dec s1 s2 then true else false.

Section TensorOps.
Variable A : Type.

(** [tf.reshape(t, shape=sh)] with an explicit shape: the number of entries
    must be that of [sh]. *)
Definition tf_reshape (t : tensor A) (sh : list nat) : result (tensor A) :=
  if length (data t) =? numel sh then Ok (mkT sh (data t))
  else Err (TFError Reshape).

(** [tf.reshape(t, [-1])]: the one dimension is inferred. *)
Definition tf_reshape_flat (t : tensor A) : tensor A :=
  mkT [length (data t)] (data t).

(** [tf.concat(ts, axis=0)]: at least one tensor, all of the same rank
    (at least 1) and with the same dimensions after the first. *)
Definition tf_concat (ts : list (tensor A)) : result (tensor A) :=
  match ts with
  | [] => Err (TFError Concat)
  | t0 :: _ =>
      match shape t0 with
      | [] => Err (TFError Concat)
      | _ :: tl =>
          if forallb (fun t => shape_eqb (List.tl (shape t)) tl
                               && negb (shape_eqb (shape t) [])) ts
          then Ok (mkT (list_sum (map (fun t => hd 0 (shape t)) ts) :: tl)
                       (concat (map (@data A) ts)))
          else Err (TFError Concat)
      end
  end.

(** [t[a:b]]: a slice along the first axis; out-of-range bounds are
    clamped, as in Python. *)
Definition tf_slice (t : tensor A) (a b : nat) : result (tensor A) :=
  match shape t with
  | [] => Err (TFError StridedSlice)
  | n :: tl =>
      let a' := Nat.min a n in
      let b' := Nat.min b n in
      Ok (mkT ((b' - a') :: tl)
              (firstn ((b' - a') * numel tl) (skipn (a' * numel tl) (data t))))
  end.

(** [tf.identity(t)]: a new node with the value of [t]. *)
Definition tf_identity (t : tensor A) : tensor A := mkT (shape t) (data t).

(** [tf.reshape] and [tf.concat] on items that are a tensor or [None]:
    the engine rejects [None]. *)
Definition reshape_item (o : option (tensor A)) (sh : list nat) : result (tensor A) :=
  match o with
  | Some t => tf_reshape t sh
  | None => Err (TFError Reshape)
  end.

Fixpoint all_some (os : list (option (tensor A))) : option (list (tensor A)) :=
  match os with
  | [] => Some []
  | Some t :: os' =>
      match all_some os' with
      | Some ts => Some (t :: ts)
      | None => None
      end
  | None :: _ => None
  end.

Definition concat_items (os : list (option (tensor A))) : result (tensor A) :=
  match all_some os with
  | Some ts => tf_concat ts
  | None => Err (TFError Concat)
  end.
End TensorOps.

(** The same function on every entry. *)
Definition tmap {A B : Type} (f : A -> B) (t : tensor A) : tensor B :=
  mkT (shape t) (map f (data t)).

(** ** numpy helpers on the layer widths *)

(** [np.cumsum]. *)
Fixpoint cumsum_from (acc : nat) (ns : list nat) : list nat :=
  match ns with
  | [] => []
  | n :: ns' => (acc + n) :: cumsum_from (acc + n) ns'
  end.

Definition cumsum (ns : list nat) : list nat := cumsum_from 0 ns.

(** [np.roll(ns, -1)]. *)
Definition roll_left (ns : list nat) : list nat :=
  match ns with
  | [] => []
  | n :: ns' => ns' ++ [n]
  end.

(** [np.multiply] on two arrays of the same length. *)
Fixpoint multiply (xs ys : list nat) : list nat :=
  match xs, ys with
  | x :: xs', y :: ys' => (x * y) :: multiply xs' ys'
  | _, _ => []
  end.

(** ** The estimator: schema and codec *)

(** [self.P]. *)
Definition P (layers : list nat) : nat :=
  list_sum (map (fun l => nth l layers 0 * nth (l + 1) layers 0 + nth (l + 1) layers 0)
                (range (length layers - 1))).

Section Codec.
Variable A : Type.
Variable layers : list nat.

(** The body of [flatten] on a Python list with items of type [E]:
    [reshape] and [concat_items] are [tf.reshape] and [tf.concat] on such
    items.  A parameter list holds tensors; a list of gradients may also
    hold [None]. *)
Definition flatten_with (E : Type)
    (reshape : E -> list nat -> result (tensor A))
    (concat_items : list E -> result (tensor A))
    (params : list E) : result (tensor A) :=
  ws <- mapM (fun l =>
                p <- index params l ;;
                a <- index layers l ;;
                b <- index layers (l + 1) ;;
                reshape p [a * b])
             (range (length layers - 1)) ;;
  weights <- tf_concat ws ;;
  bs <- mapM (fun l => index params (l + length layers - 1))
             (range (length layers - 1)) ;;
  biases <- concat_items bs ;;
  tf_concat [weights; biases].

(** [flatten] on a list of tensors. *)
Definition flatten (params : list (tensor A)) : result (tensor A) :=
  flatten_with (@tf_reshape A) (@tf_concat A) params.

(** [flatten] on what [tf.gradients] returns, a list of tensors and
    [None]s. *)
Definition flatten_grads (grads : list (option (tensor A))) : result (tensor A) :=
  flatten_with (@reshape_item A) (@concat_items A) grads.

Definition flatten_v2 (params : list (tensor A)) : result (tensor A) :=
  ts <- mapM (fun l => p <- index params l ;; Ok (tf_reshape_flat p))
             (range (length layers)) ;;
  tf_concat ts.

(** [winds] and [binds], the segment boundaries.  numpy computes them in
    64-bit integers; here they are naturals, which is the same as long as
    the widths and [P] are below [2^63]. *)
Definition winds : list nat :=
  cumsum (0 :: multiply (removelast (roll_left layers)) (removelast layers)).

Definition binds : result (list nat) :=
  w <- index_last winds ;;
  Ok (w :: map (Nat.add w) (cumsum (List.tl layers))).

Definition unflatten (params_flat : tensor A) : result (list (tensor A)) :=
  weights <- mapM (fun l =>
                     lo <- index winds l ;;
                     hi <- index winds (l + 1) ;;
                     s <- tf_slice params_flat lo hi ;;
                     a <- index layers l ;;
                     b <- index layers (l + 1) ;;
                     tf_reshape s [a; b])
                  (range (length layers - 1)) ;;
  bi <- binds ;;
  biases <- mapM (fun l =>
                    lo <- index bi l ;;
                    hi <- index bi (l + 1) ;;
                    s <- tf_slice params_flat lo hi ;;
                    b <- index layers (l + 1) ;;
                    tf_reshape s [b])
                 (range (length layers - 1)) ;;
  Ok (weights ++ biases).
End Codec.


(** A parameter list conforms to the schema: [L] weight tensors of shape
    [(layers[l], layers[l+1])], then [L] bias vectors of shape
    [(layers[l+1],)], where [L = len(layers) - 1]. *)
Definition conforms {A : Type} (layers : list nat) (params : list (tensor A)) : bool :=
  (length params =? 2 * (length layers - 1)) &&
  forallb (fun l =>
             match nth_error params l, nth_error params (l + length layers - 1) with
             | Some w, Some b =>
                 shape_eqb (shape w) [nth l layers 0; nth (l + 1) layers 0]
                 && (length (data w) =? nth l layers 0 * nth (l + 1) layers 0)
                 && shape_eqb (shape b) [nth (l + 1) layers 0]
                 && (length (data b) =? nth (l + 1) layers 0)
             | _, _ => false
             end)
          (range (length layers - 1)).

(** ** The differentiation engine on symbolic scalars

    The curvature operators build a graph and differentiate it twice.  The
    entries of a graph tensor are symbolic scalars; [eval] is the value of a
    scalar in exact arithmetic.  [tf.gradients] runs reverse-mode
    differentiation on the graph and returns [None] for an input that the
    differentiated value is not connected to; [tf.stop_gradient] is a node
    that cuts every path through it. *)

Inductive expr : Type :=
  | Const (q : Q)
  | Var (x : nat)
  | Add (e1 e2 : expr)
  | Mul (e1 e2 : expr)
  | StopGradient (e : expr).

Fixpoint eval (env : nat -> Q) (e : expr) : Q :=
  match e with
  | Const q => q
  | Var x => env x
  | Add e1 e2 => (eval env e1 + eval env e2)%Q
  | Mul e1 e2 => (eval env e1 * eval env e2)%Q
  | StopGradient e' => eval env e'
  end.

(** Derivative of [e] with respect to the variable [x], as calculus
    defines it. *)
Fixpoint D (x : nat) (e : expr) : expr :=
  match e with
  | Const _ => Const 0
  | Var y => if x =? y then Const 1 else Const 0
  | Add e1 e2 => Add (D x e1) (D x e2)
  | Mul e1 e2 => Add (Mul (D x e1) e2) (Mul e1 (D x e2))
  | StopGradient _ => Const 0
  end.

Definition sum_expr (es : list expr) : expr := fold_right Add (Const 0) es.

(** There is a path from the variable [x] to [e] in the graph. *)
Fixpoint occurs (x : nat) (e : expr) : bool :=
  match e with
  | Const _ => false
  | Var y => x =? y
  | Add e1 e2 => occurs x e1 || occurs x e2
  | Mul e1 e2 => occurs x e1 || occurs x e2
  | StopGradient _ => false
  end.

(** Gradients that reach one node along two paths are added. *)
Definition merge (g1 g2 : option expr) : option expr :=
  match g1, g2 with
  | Some a, Some b => Some (Add a b)
  | Some a, None => Some a
  | None, Some b => Some b
  | None, None => None
  end.

(** Reverse-mode differentiation: the gradient that [e], receiving the
    gradient [u] from above, sends down to the variable [x]; [None] when no
    path leads from [x] to [e].  A product sends to each factor the
    gradient times the other factor. *)
Fixpoint backprop (x : nat) (e : expr) (u : expr) : option expr :=
  match e with
  | Const _ => None
  | Var y => if x =? y then Some u else None
  | Add e1 e2 => merge (backprop x e1 u) (backprop x e2 u)
  | Mul e1 e2 => merge (backprop x e1 (Mul u e2)) (backprop x e2 (Mul u e1))
  | StopGradient _ => None
  end.

(** The gradient entry for one variable of a connected tensor: zero when
    that variable itself is not used. *)
Definition grad_entry (x : nat) (e : expr) : expr :=
  match backprop x e (Const 1) with
  | Some g => g
  | None => Const 0
  end.

(** Some entry of the parameter tensor [x] has a path to [ys]. *)
Definition connected (ys : tensor expr) (x : tensor nat) : bool :=
  existsb (fun v => occurs v (sum_expr (data ys))) (data x).

(** [tf.gradients(ys, xs)]: for each tensor of [xs], the gradient of the sum
    of the entries of [ys], of the same shape, or [None] when [ys] is not
    connected to it.  A parameter tensor is a tensor of variables. *)
Definition tf_gradients (ys : tensor expr) (xs : list (tensor nat))
    : list (option (tensor expr)) :=
  map (fun x =>
         if connected ys x
         then Some (mkT (shape x)
                        (map (fun v => grad_entry v (sum_expr (data ys))) (data x)))
         else None)
      xs.

Definition tf_stop_gradient (v : tensor expr) : tensor expr :=
  mkT (shape v) (map StopGradient (data v)).

(** *** Broadcasting elementwise product *)

(** All multi-indices of a shape, in row-major order. *)
Fixpoint indices (sh : list nat) : list (list nat) :=
  match sh with
  | [] => [[]]
  | n :: tl => flat_map (fun i => map (cons i) (indices tl)) (seq 0 n)
  end.

(** Row-major offset of a multi-index; along a dimension of size 1 the
    operand is repeated. *)
Fixpoint offset (sh idx : list nat) : nat :=
  match sh, idx with
  | n :: tl, i :: idx' => (if n =? 1 then 0 else i) * numel tl + offset tl idx'
  | _, _ => 0
  end.

Definition pad_shape (r : nat) (sh : list nat) : list nat :=
  repeat 1 (r - length sh) ++ sh.

Fixpoint broadcast_shapes (s1 s2 : list nat) : option (list nat) :=
  match s1, s2 with
  | [], [] => Some []
  | d1 :: t1, d2 :: t2 =>
      match broadcast_shapes t1 t2 with
      | Some t =>
          if d1 =? d2 then Some (d1 :: t)
          else if d1 =? 1 then Some (d2 :: t)
          else if d2 =? 1 then Some (d1 :: t)
          else None
      | None => None
      end
  | _, _ => None
  end.

(** [tf.math.multiply(x, y)]. *)
Definition tf_multiply (x y : tensor expr) : result (tensor expr) :=
  let r := Nat.max (length (shape x)) (length (shape y)) in
  let s1 := pad_shape r (shape x) in
  let s2 := pad_shape r (shape y) in
  match broadcast_shapes s1 s2 with
  | None => Err (TFError Multiply)
  | Some sh =>
      Ok (mkT sh (map (fun idx => Mul (nth (offset s1 idx) (data x) (Const 0))
                                      (nth (offset s2 idx) (data y) (Const 0)))
                      (indices sh)))
  end.

(** *** Stacking, unstacking and mapping over rows *)

Section Rows.
Variable A : Type.

(** [tf.stack(ts)]. *)
Definition tf_stack (ts : list (tensor A)) : result (tensor A) :=
  match ts with
  | [] => Err (TFError Stack)
  | t0 :: _ =>
      if forallb (fun t => shape_eqb (shape t) (shape t0)) ts
      then Ok (mkT (length ts :: shape t0) (concat (map (@data A) ts)))
      else Err (TFError Stack)
  end.

(** The slices of [t] along its first axis. *)
Definition tf_unstack (t : tensor A) : result (list (tensor A)) :=
  match shape t with
  | [] => Err (TFError Unstack)
  | n :: tl =>
      Ok (map (fun i => mkT tl (firstn (numel tl) (skipn (i * numel tl) (data t))))
              (seq 0 n))
  end.

(** [tf.map_fn(fn, elems)]: [fn] on each slice of [elems] along the first
    axis, results stacked in the order of the slices.  The graph of [fn]
    is built once even when there is no slice. *)
Definition tf_map_fn (dflt : A) (fn : tensor A -> result (tensor A))
    (elems : tensor A) : result (tensor A) :=
  rows <- tf_unstack elems ;;
  match rows with
  | [] =>
      r <- fn (mkT (List.tl (shape elems))
                   (repeat dflt (numel (List.tl (shape elems))))) ;;
      Ok (mkT (0 :: shape r) [])
  | _ => rs <- mapM fn rows ;; tf_stack rs
  end.
End Rows.

(** [tf.eye(n, m)]. *)
Definition tf_eye (n m : nat) : tensor expr :=
  mkT [n; m]
      (flat_map (fun i => map (fun j => Const (if i =? j then 1 else 0)%Q) (seq 0 m))
                (seq 0 n)).

(** ** The estimator: Hessian-vector product and full Hessian *)

Section Hessian.
Variable layers : list nat.
Variable cost : tensor expr.
Variable params : list (tensor nat).

Definition get_Hv_op (v : tensor expr) : result (tensor expr) :=
  cost_gradient <- flatten_grads layers (tf_gradients cost params) ;;
  vprod <- tf_multiply cost_gradient (tf_stop_gradient v) ;;
  flatten_grads layers (tf_gradients vprod params).

Definition get_H_op : result (tensor expr) :=
  tf_map_fn (Const 0) get_Hv_op (tf_eye (P layers) (P layers)).
End Hessian.

(** ** Numeric tensors: split, transpose, matrix product *)

Definition qsum (qs : list Q) : Q := fold_right Qplus 0%Q qs.

(** The arithmetic of the entries of a numeric tensor: zero, sum, product
    and division by a Python integer. *)
Class Arith (A : Type) : Type := {
  num_zero : A;
  num_add : A -> A -> A;
  num_mul : A -> A -> A;
  num_div : A -> nat -> A
}.

(** Exact arithmetic on the rationals. *)
#[export] Instance Q_arith : Arith Q := {
  num_zero := 0%Q;
  num_add := Qplus;
  num_mul := Qmult;
  num_div q n := (q / inject_Z (Z.of_nat n))%Q
}.

(** The engine's arithmetic, IEEE 754 binary32 ([dtype] float32): 24 bits of
    precision, round to nearest even. *)
Definition f32 : Type := spec_float.

Definition f32_of_Z (z : Z) : f32 := binary_normalize 24 128 z 0 false.

#[export] Instance f32_arith : Arith f32 := {
  num_zero := S754_zero false;
  num_add := SFadd 24 128;
  num_mul := SFmul 24 128;
  num_div x n := SFdiv 24 128 x (f32_of_Z (Z.of_nat n))
}.

(** The rational number a finite float stands for. *)
Definition f32_to_Q (x : f32) : Q :=
  match x with
  | S754_finite s m e =>
      ((if s then inject_Z (Zneg m) else inject_Z (Zpos m)) * Qpower 2 e)%Q
  | _ => 0%Q
  end.

(** A sum accumulated in index order. *)
Definition num_sum {A : Type} {ar : Arith A} (xs : list A) : A :=
  fold_left num_add xs num_zero.

(** A rational constant of a graph as a float: numerator over denominator. *)
Definition f32_of_Q (q : Q) : f32 :=
  SFdiv 24 128 (f32_of_Z (Qnum q)) (f32_of_Z (Zpos (Qden q))).

(** Running a graph in an arithmetic: the value of a symbolic scalar when
    the variables are fed from [env] and every operation is the
    arithmetic's.  [eval] is the run in exact arithmetic. *)
Fixpoint run {A : Type} {ar : Arith A} (const : Q -> A) (env : nat -> A)
    (e : expr) : A :=
  match e with
  | Const q => const q
  | Var x => env x
  | Add a b => num_add (run const env a) (run const env b)
  | Mul a b => num_mul (run const env a) (run const env b)
  | StopGradient a => run const env a
  end.

(** [tf.split(t, num)]: [num] equal pieces along the first axis; the size
    of that axis must be a multiple of [num]. *)
Definition tf_split {A : Type} (t : tensor A) (num : nat) : result (list (tensor A)) :=
  match shape t with
  | [] => Err (TFError Split)
  | n :: tl =>
      if (num =? 0) || negb (n mod num =? 0) then Err (TFError Split)
      else Ok (map (fun i => mkT ((n / num) :: tl)
                                 (firstn (n / num * numel tl)
                                         (skipn (i * (n / num) * numel tl) (data t))))
                   (seq 0 num))
  end.

Section Numeric.
Context {A : Type} {ar : Arith A}.

(** [tf.transpose(t)]: the order of the axes is reversed. *)
Definition tf_transpose (t : tensor A) : tensor A :=
  mkT (rev (shape t))
      (map (fun idx => nth (offset (shape t) (rev idx)) (data t) num_zero)
           (indices (rev (shape t)))).

(** [tf.matmul(x, y)] on matrices. *)
Definition tf_matmul (x y : tensor A) : result (tensor A) :=
  match shape x, shape y with
  | [n; k], [k'; m] =>
      if k =? k' then
        Ok (mkT [n; m]
                (flat_map (fun i =>
                             map (fun j =>
                                    num_sum (map (fun l =>
                                                    num_mul (nth (i * k + l) (data x) num_zero)
                                                            (nth (l * m + j) (data y) num_zero))
                                                 (seq 0 k)))
                                 (seq 0 m))
                          (seq 0 n)))
      else Err (TFError MatMul)
  | _, _ => Err (TFError MatMul)
  end.

(** [t / n] for a Python integer [n]. *)
Definition tensor_div (t : tensor A) (n : nat) : tensor A :=
  mkT (shape t) (map (fun q => num_div q n) (data t)).
End Numeric.

(** ** The estimator: outer-product-of-gradients approximation

    The model and cost callables and the engine's first derivative are
    parameters: [gradients c xs] stands for [tf.gradients(c, xs)], one
    tensor per tensor of [xs]. *)

Section OPG.
Context {A : Type} {ar : Arith A}.
Variable model_fun : tensor A -> list (tensor A) -> result (tensor A).
Variable cost_fun : tensor A -> tensor A -> list (tensor A) -> result (tensor A).
Variable gradients : tensor A -> list (tensor A) -> list (tensor A).
Variable layers : list nat.
Variable params : list (tensor A).
Variables X y : tensor A.
Variable batch_size : nat.

(** The per-example parameter lists [ex_params]. *)
Definition ex_params_op : result (list (list (tensor A))) :=
  mapM (fun _ =>
          mapM (fun l => p <- index params l ;; Ok (tf_identity p))
               (range (length layers)))
       (range batch_size).

(** The matrix [ex_grads], one flattened gradient per row. *)
Definition ex_grads_op : result (tensor A) :=
  ex_params <- ex_params_op ;;
  ex_X <- tf_split X batch_size ;;
  ex_y <- tf_split y batch_size ;;
  ex_yhat_logits <- mapM (fun xp => model_fun (fst xp) (snd xp))
                         (combine ex_X ex_params) ;;
  ex_cost <- mapM (fun yhp => cost_fun (fst (fst yhp)) (snd (fst yhp)) (snd yhp))
                  (combine (combine ex_y ex_yhat_logits) ex_params) ;;
  rows <- mapM (fun ex =>
                  c <- index ex_cost ex ;;
                  p <- index ex_params ex ;;
                  flatten layers (gradients c p))
               (range batch_size) ;;
  tf_stack rows.

Definition get_G_op : result (tensor A) :=
  ex_grads <- ex_grads_op ;;
  m <- tf_matmul (tf_transpose ex_grads) ex_grads ;;
  Ok (tensor_div m batch_size).
End OPG.

(** The second derivative of the cost with respect to entries [j] and [i] of
    the flat parameter vector [theta]: entry [(j, i)] of the Hessian. *)
Definition hessian (cost : tensor expr) (theta : list nat) (j i : nat) : expr :=
  D (nth j theta 0) (D (nth i theta 0) (sum_expr (data cost))).

(** [(H v)_j = sum_i H_ji v_i], evaluated at a point. *)
Definition hessian_times (env : nat -> Q) (cost : tensor expr) (theta : list nat)
    (v : list expr) (j : nat) : Q :=
  qsum (map (fun i => (eval env (hessian cost theta j i)
                       * eval env (nth i v (Const 0)))%Q)
            (seq 0 (length theta))).

(** The [i]-th standard basis vector of length [n]. *)
Definition basis (n i : nat) : tensor expr :=
  mkT [n] (map (fun j => Const (if i =? j then 1 else 0)%Q) (seq 0 n)).

(** Every parameter tensor is connected to the cost, and to the flattened
    gradient of the cost: both backward passes of [get_Hv_op] then return a
    gradient for every parameter tensor. *)
Definition twice_connected (layers : list nat) (cost : tensor expr)
    (params : list (tensor nat)) : bool :=
  forallb (connected cost) params &&
  match flatten_grads layers (tf_gradients cost params) with
  | Ok g => forallb (connected g) params
  | Err _ => false
  end.

(** The widths and the parameter count fit the 64-bit integers in which
    numpy computes the offset tables. *)
Definition int64_schema (layers : list nat) : Prop :=
  Forall (fun w => (Z.of_nat w < 2 ^ 63)%Z) layers /\
  (Z.of_nat (P layers) < 2 ^ 63)%Z.

(** The interface contract of the engine's first derivative: one gradient
    tensor per input tensor, of the same shape and number of entries. *)
Definition shape_preserving {A : Type}
    (gradients : tensor A -> list (tensor A) -> list (tensor A)) : Prop :=
  forall c xs,
    map (@shape A) (gradients c xs) = map (@shape A) xs /\
    map (fun t => length (data t)) (gradients c xs)
    = map (fun t => length (data t)) xs.

(** Entry [(i, j)] of a matrix, and the quadratic form [z^T G z]. *)
Definition mat_entry {A : Type} {ar : Arith A} (t : tensor A) (i j : nat) : A :=
  nth (i * nth 1 (shape t) 0 + j) (data t) num_zero.

Definition quad_form (G : tensor Q) (z : list Q) : Q :=
  qsum (map (fun j =>
               qsum (map (fun k => (nth j z 0 * mat_entry G j k * nth k z 0)%Q)
                         (seq 0 (length z))))
            (seq 0 (length z))).

(** The direction [a * v1 + b * v2], entry by entry. *)
Definition lincomb (a : Q) (v1 : tensor expr) (b : Q) (v2 : tensor expr) : tensor expr :=
  mkT (shape v1)
      (map (fun xy => Add (Mul (Const a) (fst xy)) (Mul (Const b) (snd xy)))
           (combine (data v1) (data v2))).

(** Entry [(i, j)] of a matrix of symbolic scalars. *)
Definition graph_entry (t : tensor expr) (i j : nat) : expr :=
  nth (i * nth 1 (shape t) 0 + j) (data t) (Const 0).

(** ** Example inputs *)

(** The schema [layers = [2,3,1]] ([L = 2], [P = 13]) with a conforming list
    of four tensors, and the schema [[1,1]] ([L = 1], [P = 2]). *)
Definition layers231 : list nat := [2; 3; 1].

Definition params231 : list (tensor Z) :=
  [ mkT [2; 3] [1; 2; 3; 4; 5; 6]%Z; mkT [3; 1] [7; 8; 9]%Z;
    mkT [3] [10; 11; 12]%Z; mkT [1] [13]%Z ].

Definition layers11 : list nat := [1; 1].

Definition params11 : list (tensor Z) := [ mkT [1; 1] [5]%Z; mkT [1] [7]%Z ].

(** The schema [[1,1]] with parameters [w] (variable 0) and [b]
    (variable 1), and the cost [(w*x + b - y)^2] of one example with
    [x = 1], [y = 0]. *)
Definition vars11 : list (tensor nat) := [ mkT [1; 1] [0]; mkT [1] [1] ].

Definition cost11 : tensor expr :=
  mkT [] [Mul (Add (Var 0) (Var 1)) (Add (Var 0) (Var 1))].

(** A vector one entry longer than [P = 2], and a direction of length 1. *)
Definition flat3 : tensor Z := mkT [3] [1; 2; 3]%Z.

Definition v1 : tensor expr := mkT [1] [Const 1].

(** Rational parameters for the two schemas. *)
Definition paramsQ231 : list (tensor Q) := map (tmap inject_Z) params231.

Definition paramsQ11 : list (tensor Q) := map (tmap inject_Z) params11.

(** A model and a cost to run the approximation on: the model returns its
    input, the cost is the penalty [sum theta^2 / 2] on the parameters it is
    given, whose gradient with respect to each parameter is the parameter
    itself. *)
Definition penalty_model {A : Type} (x : tensor A) (ps : list (tensor A))
    : result (tensor A) :=
  Ok x.

Definition penalty_cost {A : Type} {ar : Arith A} (y yhat : tensor A)
    (ps : list (tensor A)) : result (tensor A) :=
  Ok (mkT [] [num_sum (map (fun q => num_div (num_mul q q) 2)
                           (concat (map (@data A) ps)))]).

Definition penalty_gradients {A : Type} (c : tensor A) (xs : list (tensor A))
    : list (tensor A) :=
  xs.

(** Batches of two and of three one-feature examples. *)
Definition X2 : tensor Q := mkT [2; 1] [1; 2]%Q.
Definition y2 : tensor Q := mkT [2; 1] [0; 1]%Q.
Definition X3 : tensor Q := mkT [3; 1] [1; 2; 3]%Q.

(** The matrix [get_G_op] returns on the schema [[1,1]] with parameters
    [w = 5], [b = 7] and the penalty cost: [theta theta^T]. *)
Definition G11 : tensor Q :=
  mkT [2; 2] ((50 # 2) :: (70 # 2) :: (70 # 2) :: (98 # 2) :: nil)%Q.

(** Float32 parameters [w = 4097], [b = 3] for the schema [[1,1]], with
    a batch of one example. *)
Definition params32 : list (tensor f32) :=
  [ mkT [1; 1] [f32_of_Z 4097]; mkT [1] [f32_of_Z 3] ].

Definition X32 : tensor f32 := mkT [1; 1] [f32_of_Z 1].
Definition y32 : tensor f32 := mkT [1; 1] [f32_of_Z 0].

(** The cost [w + b], whose gradient is constant, and the cost [w * w],
    which does not depend on [b]. *)
Definition cost_linear : tensor expr := mkT [] [Add (Var 0) (Var 1)].

Definition cost_w_only : tensor expr := mkT [] [Mul (Var 0) (Var 0)].

(** A direction with a large entry: [(2^24, 1)]. *)
Definition v_big : tensor expr :=
  mkT [2] [Const (inject_Z 16777216); Const (inject_Z 1)].

(** * Properties *)

(** ** The error monad and list comprehensions *)

Lemma mapM_ok_map {A B : Type} (f : A -> result B) (g : A -> B) (xs : list A) :
  (forall x, In x xs -> f x = Ok (g x)) -> mapM f xs = Ok (map g xs).
Proof.
  induction xs as [|x xs IH]; intros Hf; simpl; [reflexivity|].
  rewrite (Hf x (or_introl eq_refl)). simpl.
  rewrite IH; [reflexivity|]. intros y Hy. apply Hf. now right.
Qed.

Lemma mapM_range_ok {B : Type} (f : nat -> result B) (g : nat -> B) (n : nat) :
  (forall l, l < n -> f l = Ok (g l)) -> mapM f (range n) = Ok (map g (range n)).
Proof.
  intros Hf. apply mapM_ok_map. intros l Hl. apply Hf.
  unfold range in Hl. apply in_seq in Hl. lia.
Qed.

Lemma mapM_Forall2 {A B : Type} (f : A -> result B) (xs : list A) (ys : list B) :
  mapM f xs = Ok ys -> Forall2 (fun x y => f x = Ok y) xs ys.
Proof.
  revert ys. induction xs as [|x xs IH]; simpl; intros ys H.
  - injection H as <-. constructor.
  - destruct (f x) as [y|e] eqn:Hx; simpl in H; [|discriminate].
    destruct (mapM f xs) as [ys'|e] eqn:Hxs; simpl in H; [|discriminate].
    injection H as <-. constructor; auto.
Qed.

Lemma mapM_length {A B : Type} (f : A -> result B) (xs : list A) (ys : list B) :
  mapM f xs = Ok ys -> length ys = length xs.
Proof.
  intros H. apply mapM_Forall2 in H. symmetry. eapply Forall2_length; eauto.
Qed.

Lemma mapM_err_at {A B : Type} (f : A -> result B) (xs1 xs2 : list A) (x : A) (e : error) :
  (forall y, In y xs1 -> exists b, f y = Ok b) ->
  f x = Err e -> mapM f (xs1 ++ x :: xs2) = Err e.
Proof.
  induction xs1 as [|y xs1 IH]; simpl; intros Hok Hx.
  - now rewrite Hx.
  - destruct (Hok y (or_introl eq_refl)) as [b ->]. simpl.
    rewrite IH; auto.
Qed.

Lemma index_nth {A : Type} (xs : list A) (i : nat) (d : A) :
  i < length xs -> index xs i = Ok (nth i xs d).
Proof.
  intros Hi. unfold index.
  destruct (nth_error xs i) as [x|] eqn:E.
  - now rewrite (nth_error_nth _ _ d E).
  - apply nth_error_None in E. lia.
Qed.

Lemma index_out {A : Type} (xs : list A) (i : nat) :
  length xs <= i -> index xs i = Err IndexError.
Proof.
  intros Hi. unfold index. apply nth_error_None in Hi. now rewrite Hi.
Qed.

Lemma index_last_eq {A : Type} (xs : list A) (n : nat) :
  length xs = S n -> index_last xs = index xs n.
Proof.
  intros H. unfold index_last. destruct xs; [discriminate|].
  rewrite H. f_equal. lia.
Qed.

Lemma shape_eqb_eq (s1 s2 : list nat) : shape_eqb s1 s2 = true <-> s1 = s2.
Proof.
  unfold shape_eqb. destruct (list_eq_dec Nat.eq_dec s1 s2); split; congruence.
Qed.

Lemma shape_eqb_refl (s : list nat) : shape_eqb s s = true.
Proof. now apply shape_eqb_eq. Qed.

(** ** Sums, prefix sums and chunks *)

Lemma nth_map_seq {B : Type} (g : nat -> B) (s n l : nat) (d : B) :
  l < n -> nth l (map g (seq s n)) d = g (s + l).
Proof.
  revert s l. induction n as [|n IH]; intros s l Hl; [lia|].
  destruct l as [|l]; simpl.
  - f_equal. lia.
  - rewrite IH by lia. f_equal. lia.
Qed.

Lemma nth_map_range {B : Type} (g : nat -> B) (n l : nat) (d : B) :
  l < n -> nth l (map g (range n)) d = g l.
Proof. intros Hl. unfold range. now rewrite nth_map_seq. Qed.

Lemma length_map_range {B : Type} (g : nat -> B) (n : nat) :
  length (map g (range n)) = n.
Proof. unfold range. now rewrite length_map, length_seq. Qed.

Lemma list_sum_app (xs ys : list nat) :
  list_sum (xs ++ ys) = list_sum xs + list_sum ys.
Proof. induction xs; simpl; lia. Qed.

Lemma list_sum_firstn_S (ns : list nat) (i : nat) :
  list_sum (firstn (S i) ns) = list_sum (firstn i ns) + nth i ns 0.
Proof.
  revert i. induction ns as [|n ns IH]; intros [|i]; simpl; try lia.
  specialize (IH i). simpl in IH. lia.
Qed.

Lemma list_sum_firstn_all (ns : list nat) :
  list_sum (firstn (length ns) ns) = list_sum ns.
Proof. now rewrite firstn_all. Qed.

Lemma list_sum_firstn_le (ns : list nat) (i : nat) :
  list_sum (firstn i ns) <= list_sum ns.
Proof.
  rewrite <- (firstn_skipn i ns) at 2. rewrite list_sum_app. lia.
Qed.

Lemma cumsum_from_length (acc : nat) (ns : list nat) :
  length (cumsum_from acc ns) = length ns.
Proof. revert acc. induction ns; simpl; auto. Qed.

Lemma cumsum_from_nth (ns : list nat) (acc i : nat) :
  i < length ns ->
  nth i (cumsum_from acc ns) 0 = acc + list_sum (firstn (S i) ns).
Proof.
  revert acc i. induction ns as [|n ns IH]; simpl; intros acc i Hi; [lia|].
  destruct i as [|i]; [simpl; lia|].
  rewrite IH by lia. simpl. lia.
Qed.

Lemma length_concat_sum {A : Type} (cs : list (list A)) :
  length (concat cs) = list_sum (map (@length A) cs).
Proof. induction cs; simpl; [|rewrite length_app]; auto. Qed.

(** The [i]-th chunk of a concatenation sits at the offset given by the
    lengths of the chunks before it. *)
Lemma concat_chunk {A : Type} (cs : list (list A)) (rest : list A) (i : nat) :
  i < length cs ->
  firstn (length (nth i cs []))
         (skipn (list_sum (firstn i (map (@length A) cs))) (concat cs ++ rest))
  = nth i cs [].
Proof.
  revert i. induction cs as [|c cs IH]; simpl; intros i Hi; [lia|].
  destruct i as [|i]; simpl.
  - rewrite <- app_assoc. rewrite firstn_app, Nat.sub_diag, firstn_all. simpl.
    apply app_nil_r.
  - rewrite <- app_assoc. rewrite skipn_app.
    rewrite skipn_all2 by lia. simpl.
    replace (length c + list_sum (firstn i (map (@length A) cs)) - length c)
      with (list_sum (firstn i (map (@length A) cs))) by lia.
    apply IH. lia.
Qed.

(** ** The engine's concatenation and slicing on vectors *)

Lemma tf_concat_vectors {A : Type} (ts : list (tensor A)) :
  ts <> [] ->
  (forall t, In t ts -> exists n, shape t = [n]) ->
  tf_concat ts = Ok (mkT [list_sum (map (fun t => hd 0 (shape t)) ts)]
                         (concat (map (@data A) ts))).
Proof.
  intros Hne Hall. unfold tf_concat.
  destruct ts as [|t0 ts']; [congruence|].
  destruct (Hall t0 (or_introl eq_refl)) as [n0 Hn0]. rewrite Hn0.
  replace (forallb _ (t0 :: ts')) with true; [reflexivity|].
  symmetry. apply forallb_forall. intros t Ht.
  destruct (Hall t Ht) as [n Hn]. rewrite Hn. reflexivity.
Qed.

Lemma tf_slice_vector {A : Type} (xs : list A) (lo hi : nat) :
  lo <= hi -> hi <= length xs ->
  tf_slice (mkT [length xs] xs) lo hi
  = Ok (mkT [hi - lo] (firstn (hi - lo) (skipn lo xs))).
Proof.
  intros H1 H2. unfold tf_slice. simpl.
  rewrite !Nat.min_l by lia. now rewrite !Nat.mul_1_r.
Qed.

(** ** The offset tables of [unflatten] *)

Lemma multiply_roll (x : nat) (xs : list nat) :
  multiply xs (removelast (x :: xs))
  = map (fun l => nth (l + 1) (x :: xs) 0 * nth l (x :: xs) 0) (seq 0 (length xs)).
Proof.
  revert x. induction xs as [|y ys IH]; intros x; [reflexivity|].
  change (removelast (x :: y :: ys)) with (x :: removelast (y :: ys)).
  cbn [multiply length seq map]. f_equal.
  rewrite IH, <- seq_shift, map_map. apply map_ext. intros l.
  reflexivity.
Qed.

Lemma removelast_roll (x : nat) (xs : list nat) :
  removelast (roll_left (x :: xs)) = xs.
Proof. simpl. apply removelast_last. Qed.

Lemma winds_eq (layers : list nat) :
  2 <= length layers ->
  winds layers
  = cumsum (0 :: map (fun l => nth (l + 1) layers 0 * nth l layers 0)
                     (range (length layers - 1))).
Proof.
  intros HL. unfold winds. destruct layers as [|x xs]; [simpl in HL; lia|].
  rewrite removelast_roll, multiply_roll.
  replace (length (x :: xs) - 1) with (length xs) by (simpl; lia).
  reflexivity.
Qed.

Lemma tl_layers (layers : list nat) :
  List.tl layers = map (fun l => nth (l + 1) layers 0) (range (length layers - 1)).
Proof.
  destruct layers as [|x xs]; [reflexivity|].
  replace (length (x :: xs) - 1) with (length xs) by (simpl; lia).
  simpl List.tl.
  apply nth_ext with (d := 0) (d' := 0).
  - now rewrite length_map_range.
  - intros n Hn. rewrite nth_map_range by lia. simpl. now rewrite Nat.add_1_r.
Qed.

(** ** flatten and unflatten on a conforming parameter list *)

Section RoundTrip.
Variable A : Type.
Variable layers : list nat.
Variable params : list (tensor A).
Hypothesis Hschema : 2 <= length layers.
Hypothesis Hconf : conforms layers params = true.

Let L := length layers - 1.
Let a (l : nat) := nth l layers 0.
Let b (l : nat) := nth (l + 1) layers 0.
Let d : tensor A := mkT [] [].
Let pw (l : nat) := nth l params d.
Let pb (l : nat) := nth (l + L) params d.
Let DW := concat (map (fun l => data (pw l)) (range L)).
Let DB := concat (map (fun l => data (pb l)) (range L)).
Let SW := list_sum (map (fun l => a l * b l) (range L)).
Let SB := list_sum (map b (range L)).

Lemma conforms_length : length params = 2 * L.
Proof.
  unfold conforms in Hconf. apply andb_prop in Hconf as [H _].
  now apply Nat.eqb_eq in H.
Qed.

Lemma conforms_at (l : nat) :
  l < L ->
  shape (pw l) = [a l; b l] /\ length (data (pw l)) = a l * b l /\
  shape (pb l) = [b l] /\ length (data (pb l)) = b l.
Proof.
  intros Hl. pose proof conforms_length as Hlen.
  unfold conforms in Hconf. apply andb_prop in Hconf as [_ H].
  rewrite forallb_forall in H. specialize (H l).
  assert (Hin : In l (range (length layers - 1)))
    by (unfold range; apply in_seq; fold L; lia).
  specialize (H Hin).
  replace (l + length layers - 1) with (l + L) in H by (unfold L; lia).
  unfold pw, pb.
  destruct (nth_error params l) as [w|] eqn:Ew; [|discriminate].
  destruct (nth_error params (l + L)) as [v|] eqn:Ev; [|discriminate].
  rewrite (nth_error_nth _ _ d Ew), (nth_error_nth _ _ d Ev).
  repeat (apply andb_prop in H as [H ?]).
  repeat match goal with
         | H : shape_eqb _ _ = true |- _ => apply shape_eqb_eq in H
         | H : (_ =? _) = true |- _ => apply Nat.eqb_eq in H
         end.
  auto.
Qed.

Lemma params_split :
  params = map pw (range L) ++ map pb (range L).
Proof.
  pose proof conforms_length as Hlen.
  apply nth_ext with (d := d) (d' := d).
  - rewrite length_app, !length_map_range. lia.
  - intros n Hn. destruct (Nat.lt_ge_cases n L) as [Hlt|Hge].
    + rewrite app_nth1 by (rewrite length_map_range; lia).
      now rewrite nth_map_range.
    + rewrite app_nth2 by (rewrite length_map_range; lia).
      rewrite length_map_range, nth_map_range by lia.
      unfold pb. f_equal. lia.
Qed.

Lemma length_DW : length DW = SW.
Proof.
  unfold DW, SW. rewrite length_concat_sum, map_map. f_equal.
  apply map_ext_in. intros l Hl. apply in_seq in Hl.
  apply conforms_at. lia.
Qed.

Lemma length_DB : length DB = SB.
Proof.
  unfold DB, SB. rewrite length_concat_sum, map_map. f_equal.
  apply map_ext_in. intros l Hl. apply in_seq in Hl.
  apply conforms_at. lia.
Qed.

Lemma P_eq : P layers = SW + SB.
Proof.
  unfold P, SW, SB. fold L. fold a b.
  induction (range L) as [|l ls IH]; simpl; [reflexivity|].
  rewrite IH. unfold a, b. lia.
Qed.

(** [flatten] on a conforming list: the weights' entries in layer order,
    then the biases' entries, [P] numbers in all. *)
Lemma flatten_conforming :
  flatten layers params = Ok (mkT [P layers] (DW ++ DB ++ [])).
Proof.
  pose proof conforms_length as Hlen.
  unfold flatten, flatten_with. fold L.
  rewrite (mapM_range_ok _ (fun l => mkT [a l * b l] (data (pw l)))).
  2:{ intros l Hl. destruct (conforms_at Hl) as (Hs & Hd & _).
      rewrite (index_nth _ d) by lia.
      rewrite (index_nth _ 0) by (unfold L in Hl; lia).
      rewrite (index_nth _ 0) by (unfold L in Hl; lia).
      cbn [bind]. unfold tf_reshape. fold (pw l). fold (a l) (b l).
      rewrite Hd. cbn [numel fold_right]. rewrite Nat.mul_1_r, Nat.eqb_refl.
      reflexivity. }
  cbn [bind]. rewrite tf_concat_vectors.
  2:{ unfold range. destruct L eqn:E; [unfold L in E; lia|]. discriminate. }
  2:{ intros t Ht. apply in_map_iff in Ht as (l & <- & _). eexists. reflexivity. }
  cbn [bind].
  rewrite (mapM_range_ok _ pb).
  2:{ intros l Hl. replace (l + length layers - 1) with (l + L) by (unfold L; lia).
      apply index_nth. lia. }
  cbn [bind]. rewrite tf_concat_vectors.
  2:{ unfold range. destruct L eqn:E; [unfold L in E; lia|]. discriminate. }
  2:{ intros t Ht. apply in_map_iff in Ht as (l & <- & Hl). apply in_seq in Hl.
      exists (b l). apply conforms_at. lia. }
  cbn [bind]. rewrite tf_concat_vectors; [|discriminate|].
  2:{ intros t [<-|[<-|[]]]; eexists; reflexivity. }
  f_equal. f_equal.
  - cbn [map shape hd list_sum fold_right]. rewrite P_eq, Nat.add_0_r.
    f_equal. f_equal.
    + unfold SW. rewrite map_map. reflexivity.
    + unfold SB. rewrite map_map. f_equal. apply map_ext_in.
      intros l Hl. apply in_seq in Hl.
      destruct (@conforms_at l) as (_ & _ & Hs & _); [lia|]. now rewrite Hs.
  - cbn [map data concat]. rewrite !map_map. reflexivity.
Qed.

Let CW := map (fun l => data (pw l)) (range L).
Let CB := map (fun l => data (pb l)) (range L).

Lemma lens_CW :
  map (fun l => nth (l + 1) layers 0 * nth l layers 0) (range L)
  = map (@length A) CW.
Proof.
  unfold CW. rewrite map_map. apply map_ext_in. intros l Hl.
  apply in_seq in Hl. destruct (@conforms_at l) as (_ & Hd & _); [lia|].
  rewrite Hd. unfold a, b. lia.
Qed.

Lemma lens_CB : List.tl layers = map (@length A) CB.
Proof.
  rewrite tl_layers. fold L. unfold CB. rewrite map_map.
  apply map_ext_in. intros l Hl.
  apply in_seq in Hl. destruct (@conforms_at l) as (_ & _ & _ & Hd); [lia|].
  now rewrite Hd.
Qed.

Lemma winds_at (l : nat) :
  l <= L ->
  index (winds layers) l = Ok (list_sum (firstn l (map (@length A) CW))).
Proof.
  intros Hl. rewrite winds_eq by exact Hschema. fold L. rewrite lens_CW.
  unfold cumsum.
  rewrite (index_nth _ 0).
  2:{ rewrite cumsum_from_length. simpl. unfold CW.
      rewrite length_map, length_map_range. lia. }
  rewrite cumsum_from_nth.
  2:{ simpl. unfold CW. rewrite length_map, length_map_range. lia. }
  reflexivity.
Qed.

Lemma binds_eq :
  binds layers = Ok (SW :: map (Nat.add SW) (cumsum (map (@length A) CB))).
Proof.
  unfold binds.
  assert (Hlen : length (winds layers) = S L).
  { rewrite winds_eq by exact Hschema. unfold cumsum.
    rewrite cumsum_from_length. simpl. fold L. now rewrite length_map_range. }
  rewrite (index_last_eq _ Hlen).
  rewrite winds_at by lia. cbn [bind].
  replace (list_sum (firstn L (map (@length A) CW))) with SW.
  - now rewrite lens_CB.
  - rewrite <- length_DW. unfold DW. fold CW. rewrite length_concat_sum.
    rewrite firstn_all2; [reflexivity|].
    unfold CW. rewrite length_map, length_map_range. lia.
Qed.

Lemma binds_at (l : nat) :
  l <= L ->
  index (SW :: map (Nat.add SW) (cumsum (map (@length A) CB))) l
  = Ok (SW + list_sum (firstn l (map (@length A) CB))).
Proof.
  intros Hl.
  assert (HCB : length (map (@length A) CB) = L)
    by (unfold CB; now rewrite length_map, length_map_range).
  rewrite (index_nth _ 0).
  2:{ simpl. unfold cumsum. rewrite length_map, cumsum_from_length. lia. }
  destruct l as [|k]; simpl; [f_equal; lia|].
  rewrite (nth_indep _ 0 (SW + 0)).
  2:{ unfold cumsum. rewrite length_map, cumsum_from_length. lia. }
  rewrite map_nth. unfold cumsum. rewrite cumsum_from_nth by lia.
  reflexivity.
Qed.

(** [unflatten] cuts the flat vector back into the tensors it came from. *)
Lemma unflatten_flattened :
  unflatten layers (mkT [P layers] (DW ++ DB ++ [])) = Ok params.
Proof.
  pose proof length_DW as HDW. pose proof length_DB as HDB.
  assert (HCWl : length CW = L) by (unfold CW; apply length_map_range).
  assert (HCBl : length CB = L) by (unfold CB; apply length_map_range).
  assert (Htot : P layers = length (DW ++ DB ++ []))
    by (rewrite P_eq, !length_app; simpl; lia).
  assert (HsumW : forall l, list_sum (firstn l (map (@length A) CW)) <= SW).
  { intros l. rewrite <- HDW. unfold DW. fold CW. rewrite length_concat_sum.
    apply list_sum_firstn_le. }
  assert (HsumB : forall l, list_sum (firstn l (map (@length A) CB)) <= SB).
  { intros l. rewrite <- HDB. unfold DB. fold CB. rewrite length_concat_sum.
    apply list_sum_firstn_le. }
  unfold unflatten. fold L.
  rewrite (mapM_range_ok _ pw).
  2:{ intros l Hl. destruct (conforms_at Hl) as (Hs & Hd & _).
      rewrite !winds_at by lia. cbn [bind].
      rewrite Htot, tf_slice_vector.
      2:{ rewrite Nat.add_1_r, list_sum_firstn_S. lia. }
      2:{ rewrite <- Htot, P_eq. specialize (HsumW (l + 1)). lia. }
      cbn [bind].
      rewrite (index_nth _ 0) by (unfold L in Hl; lia).
      rewrite (index_nth _ 0) by (unfold L in Hl; lia).
      cbn [bind]. unfold tf_reshape. cbn [data].
      replace (l + 1) with (S l) by lia. rewrite list_sum_firstn_S.
      replace (list_sum (firstn l (map (@length A) CW)) + nth l (map (@length A) CW) 0
               - list_sum (firstn l (map (@length A) CW)))
        with (nth l (map (@length A) CW) 0) by lia.
      rewrite (nth_indep _ 0 (length (@nil A))) by (rewrite length_map; lia).
      rewrite map_nth. unfold DW. fold CW. rewrite concat_chunk by lia.
      unfold CW at 1 2. rewrite nth_map_range by lia.
      rewrite Hd. fold (a l). replace (nth (S l) layers 0) with (b l)
        by (unfold b; f_equal; lia).
      cbn [numel fold_right]. rewrite Nat.mul_1_r, Nat.eqb_refl.
      rewrite <- Hs. now destruct (pw l). }
  cbn [bind]. rewrite binds_eq. cbn [bind].
  rewrite (mapM_range_ok _ pb).
  2:{ intros l Hl. destruct (conforms_at Hl) as (_ & _ & Hs & Hd).
      rewrite !binds_at by lia. cbn [bind].
      rewrite Htot, tf_slice_vector.
      2:{ rewrite Nat.add_1_r, list_sum_firstn_S. lia. }
      2:{ rewrite <- Htot, P_eq. specialize (HsumB (l + 1)). lia. }
      cbn [bind].
      rewrite (index_nth _ 0) by (unfold L in Hl; lia).
      cbn [bind]. unfold tf_reshape. cbn [data].
      replace (l + 1) with (S l) by lia. rewrite list_sum_firstn_S.
      replace (SW + (list_sum (firstn l (map (@length A) CB)) + nth l (map (@length A) CB) 0)
               - (SW + list_sum (firstn l (map (@length A) CB))))
        with (nth l (map (@length A) CB) 0) by lia.
      rewrite (nth_indep _ 0 (length (@nil A))) by (rewrite length_map; lia).
      rewrite map_nth.
      rewrite skipn_app, HDW.
      rewrite skipn_all2 by lia. cbn [app].
      replace (SW + list_sum (firstn l (map (@length A) CB)) - SW)
        with (list_sum (firstn l (map (@length A) CB))) by lia.
      unfold DB. fold CB. rewrite concat_chunk by lia.
      unfold CB at 1 2. rewrite nth_map_range by lia.
      rewrite Hd. replace (nth (S l) layers 0) with (b l)
        by (unfold b; f_equal; lia).
      cbn [numel fold_right]. rewrite Nat.mul_1_r, Nat.eqb_refl.
      rewrite <- Hs. now destruct (pb l). }
  cbn [bind]. now rewrite <- params_split.
Qed.
End RoundTrip.

(** ** C1: round trip *)

(** C1.  For every schema with at least two widths and every parameter list
    conforming to it, [flatten] returns a vector of length [P] and
    [unflatten] of that vector returns the parameter list itself: the same
    number of tensors, with the same shapes and the same entries. *)
Theorem unflatten_flatten_roundtrip (A : Type) (layers : list nat)
    (params : list (tensor A)) :
  2 <= length layers ->
  conforms layers params = true ->
  exists flat,
    flatten layers params = Ok flat /\
    shape flat = [P layers] /\
    length (data flat) = P layers /\
    unflatten layers flat = Ok params.
Proof.
  intros Hschema Hconf. eexists. split; [|split; [|split]].
  - apply flatten_conforming; assumption.
  - reflexivity.
  - cbn [data]. rewrite (@P_eq A layers params), !length_app.
    erewrite length_DW, length_DB by eassumption.
    + cbn [length]. lia.
    + assumption.
  - apply unflatten_flattened; assumption.
Qed.

Lemma unflatten_flatten_roundtrip_witness :
  exists flat,
    flatten layers231 params231 = Ok flat /\
    shape flat = [P layers231] /\
    length (data flat) = P layers231 /\
    unflatten layers231 flat = Ok params231.
Proof.
  apply (@unflatten_flatten_roundtrip Z layers231 params231).
  - simpl. lia.
  - reflexivity.
Defined.

(** ** C10: the two flatten variants on a two-width schema *)

(** C10.  For a schema with exactly two widths and a conforming parameter
    list, which is then a pair [[W; b]], [flatten] and [flatten_v2] return
    the same vector: the entries of [W] followed by those of [b]. *)
Theorem flatten_v2_agrees_two_widths (A : Type) (layers : list nat)
    (params : list (tensor A)) :
  length layers = 2 ->
  conforms layers params = true ->
  exists W b,
    params = [W; b] /\
    flatten layers params = Ok (mkT [P layers] (data W ++ data b)) /\
    flatten_v2 layers params = flatten layers params.
Proof.
  intros HL Hconf.
  destruct layers as [|n0 [|n1 [|n2 rest]]]; try discriminate HL.
  assert (Hc := Hconf). unfold conforms in Hc.
  apply andb_prop in Hc as [Hlen Hall]. apply Nat.eqb_eq in Hlen.
  destruct params as [|W [|b [|c ps]]]; try discriminate Hlen.
  exists W, b. split; [reflexivity|].
  cbn in Hall. rewrite andb_true_r in Hall.
  repeat (apply andb_prop in Hall as [Hall ?]).
  repeat match goal with
         | H : shape_eqb _ _ = true |- _ => apply shape_eqb_eq in H
         | H : (_ =? _) = true |- _ => apply Nat.eqb_eq in H
         end.
  assert (Hflat : flatten [n0; n1] [W; b] = Ok (mkT [P [n0; n1]] (data W ++ data b))).
  { rewrite flatten_conforming by (simpl; auto).
    cbn. rewrite !app_nil_r. reflexivity. }
  split; [exact Hflat|]. rewrite Hflat.
  unfold flatten_v2. cbn.
  rewrite !app_nil_r. f_equal. f_equal. f_equal. lia.
Qed.

Lemma flatten_v2_agrees_two_widths_witness :
  exists W b,
    params11 = [W; b] /\
    flatten layers11 params11 = Ok (mkT [P layers11] (data W ++ data b)) /\
    flatten_v2 layers11 params11 = flatten layers11 params11.
Proof.
  apply (@flatten_v2_agrees_two_widths Z layers11 params11); reflexivity.
Defined.

(** ** C9: what [flatten_v2] reads *)

(** [flatten_v2] reads the positions [0 .. len(layers) - 1] of the list and
    nothing after them. *)
Lemma flatten_v2_prefix (A : Type) (layers : list nat) (params : list (tensor A)) :
  flatten_v2 layers params = flatten_v2 layers (firstn (length layers) params).
Proof.
  unfold flatten_v2. f_equal.
  assert (H : forall l, In l (range (length layers)) ->
            (p <- index params l ;; Ok (tf_reshape_flat p))
            = (p <- index (firstn (length layers) params) l ;; Ok (tf_reshape_flat p))).
  { intros l Hl. apply in_seq in Hl. unfold index.
    rewrite nth_error_firstn.
    destruct (Nat.ltb_spec l (length layers)); [reflexivity|lia]. }
  induction (range (length layers)) as [|l ls IH]; [reflexivity|].
  cbn [mapM]. rewrite H by (now left). rewrite IH; [reflexivity|].
  intros l' Hl'. apply H. now right.
Qed.

(** C9.  On the schema [[2,3,1]] with its four parameter tensors,
    [flatten_v2] returns the 12 entries of the first three tensors: the
    second bias vector is not read, and the result is shorter than [P = 13]
    and than the concatenation of all four tensors. *)
Theorem flatten_v2_drops_trailing_tensors :
  flatten_v2 layers231 params231
  = Ok (mkT [12] [1; 2; 3; 4; 5; 6; 7; 8; 9; 10; 11; 12]%Z) /\
  concat (map (@data Z) params231) = [1; 2; 3; 4; 5; 6; 7; 8; 9; 10; 11; 12; 13]%Z /\
  flatten layers231 params231
  = Ok (mkT [13] [1; 2; 3; 4; 5; 6; 7; 8; 9; 10; 11; 12; 13]%Z) /\
  flatten_v2 layers231 params231 = flatten_v2 layers231 (firstn 3 params231).
Proof. repeat split. Qed.

(** ** unflatten on a vector of any length *)

Lemma mapM_ok_or_err {A B : Type} (f : A -> result B) (xs : list A) (e : error) :
  (forall x, In x xs -> (exists y, f x = Ok y) \/ f x = Err e) ->
  (exists ys, mapM f xs = Ok ys) \/ mapM f xs = Err e.
Proof.
  induction xs as [|x xs IH]; intros H; simpl; [left; eauto|].
  destruct (H x (or_introl eq_refl)) as [[y ->]| ->]; [|now right].
  simpl. destruct IH as [[ys ->]| ->]; simpl; eauto.
  intros x' Hx'. apply H. now right.
Qed.

Lemma mapM_some_err {A B : Type} (f : A -> result B) (xs : list A) (e : error) (x0 : A) :
  (forall x, In x xs -> (exists y, f x = Ok y) \/ f x = Err e) ->
  In x0 xs -> f x0 = Err e -> mapM f xs = Err e.
Proof.
  induction xs as [|x xs IH]; intros H Hin Hx0; [destruct Hin|]. simpl.
  destruct (H x (or_introl eq_refl)) as [[y Hy]| ->]; [|reflexivity].
  rewrite Hy. simpl. destruct Hin as [->|Hin]; [congruence|].
  rewrite IH; auto. intros x' Hx'. apply H. now right.
Qed.

Lemma tf_slice_clamped {A : Type} (xs : list A) (n lo hi : nat) :
  tf_slice (mkT [n] xs) lo hi
  = Ok (mkT [Nat.min hi n - Nat.min lo n]
            (firstn (Nat.min hi n - Nat.min lo n) (skipn (Nat.min lo n) xs))).
Proof. unfold tf_slice. simpl. now rewrite !Nat.mul_1_r. Qed.

Section Offsets.
Variable layers : list nat.
Hypothesis Hschema : 2 <= length layers.

Let L := length layers - 1.
Let WL := map (fun l => nth (l + 1) layers 0 * nth l layers 0) (range L).
Let TL := List.tl layers.

Lemma length_TL : length TL = L.
Proof. unfold TL. rewrite tl_layers. apply length_map_range. Qed.

Lemma nth_TL (l : nat) : nth l TL 0 = nth (l + 1) layers 0.
Proof.
  unfold TL. destruct layers; [destruct l; reflexivity|].
  simpl. now rewrite Nat.add_1_r.
Qed.

Lemma winds_index (l : nat) :
  l <= L -> index (winds layers) l = Ok (list_sum (firstn l WL)).
Proof.
  intros Hl. rewrite winds_eq by exact Hschema. fold L. fold WL.
  unfold cumsum.
  rewrite (index_nth _ 0).
  2:{ rewrite cumsum_from_length. simpl. unfold WL.
      rewrite length_map_range. lia. }
  rewrite cumsum_from_nth.
  2:{ simpl. unfold WL. rewrite length_map_range. lia. }
  reflexivity.
Qed.

Lemma binds_value :
  binds layers = Ok (list_sum WL :: map (Nat.add (list_sum WL)) (cumsum TL)).
Proof.
  unfold binds.
  assert (Hlen : length (winds layers) = S L).
  { rewrite winds_eq by exact Hschema. unfold cumsum.
    rewrite cumsum_from_length. simpl. fold L. now rewrite length_map_range. }
  rewrite (index_last_eq _ Hlen), winds_index by lia. cbn [bind].
  rewrite firstn_all2; [reflexivity|].
  unfold WL. rewrite length_map_range. lia.
Qed.

Lemma binds_index (l : nat) :
  l <= L ->
  index (list_sum WL :: map (Nat.add (list_sum WL)) (cumsum TL)) l
  = Ok (list_sum WL + list_sum (firstn l TL)).
Proof.
  intros Hl. pose proof length_TL as HTL.
  rewrite (index_nth _ 0).
  2:{ simpl. unfold cumsum. rewrite length_map, cumsum_from_length. lia. }
  destruct l as [|k]; simpl; [f_equal; lia|].
  rewrite (nth_indep _ 0 (list_sum WL + 0)).
  2:{ unfold cumsum. rewrite length_map, cumsum_from_length. lia. }
  rewrite map_nth. unfold cumsum. rewrite cumsum_from_nth by lia.
  reflexivity.
Qed.

Lemma P_offsets : P layers = list_sum WL + list_sum TL.
Proof.
  unfold P, WL, TL. rewrite tl_layers. fold L.
  induction (range L) as [|l ls IH]; simpl; [reflexivity|].
  rewrite IH. lia.
Qed.

Variable A : Type.
Variable xs : list A.

Let flat := mkT [length xs] xs.

Lemma list_sum_firstn_mono (ns : list nat) (i j : nat) :
  i <= j -> list_sum (firstn i ns) <= list_sum (firstn j ns).
Proof.
  intros Hij. replace i with (Nat.min i j) by lia.
  rewrite <- firstn_firstn. apply list_sum_firstn_le.
Qed.

(** A vector with at least [P] entries is accepted: the entries after the
    first [P] are not read. *)
Lemma unflatten_long :
  P layers <= length xs ->
  exists ps, unflatten layers flat = Ok ps /\ length ps = 2 * L.
Proof.
  intros Hlen. rewrite P_offsets in Hlen. fold WL TL in Hlen.
  assert (HWL : length WL = L) by (unfold WL; apply length_map_range).
  pose proof length_TL as HTL.
  unfold unflatten. fold L.
  erewrite mapM_range_ok.
  2:{ intros l Hl. rewrite Nat.add_1_r. rewrite !winds_index by lia. cbn [bind].
      assert (Hn : nth l WL 0 = nth (S l) layers 0 * nth l layers 0)
        by (unfold WL; rewrite nth_map_range by lia; now rewrite Nat.add_1_r).
      pose proof (list_sum_firstn_le WL (S l)) as Hle.
      rewrite list_sum_firstn_S, Hn in *.
      unfold flat. rewrite tf_slice_vector by lia.
      cbn [bind].
      rewrite (index_nth _ 0) by (unfold L in Hl; lia).
      rewrite (index_nth _ 0) by (unfold L in Hl; lia).
      cbn [bind]. unfold tf_reshape. cbn [data].
      rewrite length_firstn, length_skipn.
      cbn [numel fold_right].
      match goal with |- (if ?c then _ else _) = _ =>
        replace c with true by (symmetry; apply Nat.eqb_eq; lia) end.
      reflexivity. }
  cbn [bind]. rewrite binds_value. cbn [bind].
  erewrite mapM_range_ok.
  2:{ intros l Hl. rewrite Nat.add_1_r. rewrite !binds_index by lia. cbn [bind].
      assert (Hn : nth l TL 0 = nth (S l) layers 0)
        by (rewrite nth_TL; now rewrite Nat.add_1_r).
      pose proof (list_sum_firstn_le TL (S l)) as Hle.
      rewrite list_sum_firstn_S, Hn in *.
      unfold flat. rewrite tf_slice_vector by lia.
      cbn [bind].
      rewrite (index_nth _ 0) by (unfold L in Hl; lia).
      cbn [bind]. unfold tf_reshape. cbn [data].
      rewrite length_firstn, length_skipn.
      cbn [numel fold_right].
      match goal with |- (if ?c then _ else _) = _ =>
        replace c with true by (symmetry; apply Nat.eqb_eq; lia) end.
      reflexivity. }
  cbn [bind]. eexists. split; [reflexivity|].
  rewrite length_app, !length_map_range. lia.
Qed.

(** A vector with fewer than [P] entries is rejected when its last segment
    is cut to the shape of the last bias vector. *)
Lemma unflatten_short :
  Forall (fun w => 0 < w) layers ->
  length xs < P layers ->
  unflatten layers flat = Err (TFError Reshape).
Proof.
  intros Hpos Hlen. rewrite P_offsets in Hlen. fold WL TL in Hlen.
  assert (HWL : length WL = L) by (unfold WL; apply length_map_range).
  pose proof length_TL as HTL.
  unfold unflatten. fold L.
  match goal with |- bind (mapM ?f _) _ = _ =>
    destruct (@mapM_ok_or_err _ _ f (range L) (TFError Reshape)) as [[ws ->]| ->]
  end; [| |reflexivity].
  { intros l Hl. apply in_seq in Hl. rewrite !winds_index by lia. cbn [bind].
    unfold flat. rewrite tf_slice_clamped. cbn [bind].
    rewrite (index_nth _ 0) by (unfold L in Hl; lia).
    rewrite (index_nth _ 0) by (unfold L in Hl; lia).
    cbn [bind]. unfold tf_reshape.
    match goal with |- context [if ?c then _ else _] => destruct c end; eauto. }
  cbn [bind]. rewrite binds_value. cbn [bind].
  erewrite (@mapM_some_err _ _ _ _ (TFError Reshape) (L - 1)); [reflexivity| |  |].
  - intros l Hl. apply in_seq in Hl. rewrite !binds_index by lia. cbn [bind].
    unfold flat. rewrite tf_slice_clamped. cbn [bind].
    rewrite (index_nth _ 0) by (unfold L in Hl; lia).
    cbn [bind]. unfold tf_reshape.
    match goal with |- context [if ?c then _ else _] => destruct c end; eauto.
  - apply in_seq. unfold L. lia.
  - assert (HL : 1 <= L) by (unfold L; lia).
    rewrite !binds_index by lia. cbn [bind].
    unfold flat. rewrite tf_slice_clamped. cbn [bind].
    rewrite (index_nth _ 0) by (unfold L; lia).
    cbn [bind]. unfold tf_reshape. cbn [data numel fold_right].
    replace (L - 1 + 1) with L by lia.
    assert (Hb : 0 < nth L layers 0).
    { rewrite Forall_forall in Hpos. apply Hpos. apply nth_In. unfold L. lia. }
    assert (Hsum : list_sum (firstn L TL) = list_sum (firstn (L - 1) TL) + nth L layers 0).
    { replace L with (S (L - 1)) at 1 by lia. rewrite list_sum_firstn_S, nth_TL.
      now replace (L - 1 + 1) with L by lia. }
    assert (Hall : list_sum (firstn L TL) = list_sum TL)
      by (rewrite firstn_all2; [reflexivity|lia]).
    rewrite length_firstn, length_skipn.
    match goal with |- (if ?c then _ else _) = _ => destruct c eqn:E end;
      [|reflexivity].
    apply Nat.eqb_eq in E. lia.
Qed.
End Offsets.

(** ** flatten commutes with entrywise maps *)

Lemma forallb_ext_all {A : Type} (f g : A -> bool) (xs : list A) :
  (forall x, f x = g x) -> forallb f xs = forallb g xs.
Proof. intros H. induction xs; simpl; [reflexivity|]. now rewrite H, IHxs. Qed.

Lemma conforms_map {A B : Type} (f : A -> B) (layers : list nat)
    (params : list (tensor A)) :
  conforms layers (map (tmap f) params) = conforms layers params.
Proof.
  unfold conforms. rewrite length_map. f_equal.
  apply forallb_ext_all. intros l. rewrite !nth_error_map.
  destruct (nth_error params l) as [w|]; [|reflexivity].
  destruct (nth_error params (l + length layers - 1)) as [b|]; [|reflexivity].
  cbn. now rewrite !length_map.
Qed.

Lemma nth_map_default {A B : Type} (f : A -> B) (xs : list A) (i : nat) (d : A) (d' : B) :
  i < length xs -> nth i (map f xs) d' = f (nth i xs d).
Proof.
  intros Hi. rewrite (nth_indep _ d' (f d)) by (now rewrite length_map).
  apply map_nth.
Qed.

Lemma flatten_map {A B : Type} (f : A -> B) (layers : list nat)
    (params : list (tensor A)) :
  2 <= length layers ->
  conforms layers params = true ->
  exists theta,
    flatten layers params = Ok (mkT [P layers] theta) /\
    length theta = P layers /\
    flatten layers (map (tmap f) params) = Ok (mkT [P layers] (map f theta)).
Proof.
  intros Hs Hc.
  assert (Hc' : conforms layers (map (tmap f) params) = true)
    by (now rewrite conforms_map).
  pose proof (@conforms_length A layers params Hc) as Hlen.
  eexists. split; [apply flatten_conforming; assumption|]. split.
  - rewrite (@P_eq A layers params), !length_app.
    erewrite length_DW, length_DB by eassumption.
    + cbn [length]. lia.
    + assumption.
  - rewrite flatten_conforming by assumption. f_equal. f_equal.
    rewrite !map_app, !concat_map, !map_map. cbn [map].
    f_equal; [|f_equal]; f_equal; apply map_ext_in; intros l Hl;
      apply in_seq in Hl;
      rewrite (nth_map_default _ _ (mkT [] [])) by lia; reflexivity.
Qed.

(** ** Finite sums of rationals *)

Lemma qsum_ext {A : Type} (f g : A -> Q) (xs : list A) :
  (forall x, In x xs -> (f x == g x)%Q) ->
  (qsum (map f xs) == qsum (map g xs))%Q.
Proof.
  induction xs as [|x xs IH]; intros H; simpl; [reflexivity|].
  rewrite (H x (or_introl eq_refl)), IH; [reflexivity|].
  intros y Hy. apply H. now right.
Qed.

Lemma qsum_plus {A : Type} (f g : A -> Q) (xs : list A) :
  (qsum (map (fun x => f x + g x) xs) == qsum (map f xs) + qsum (map g xs))%Q.
Proof. induction xs as [|x xs IH]; simpl; [reflexivity|]. rewrite IH. ring. Qed.

Lemma qsum_scale_l {A : Type} (c : Q) (f : A -> Q) (xs : list A) :
  (qsum (map (fun x => c * f x) xs) == c * qsum (map f xs))%Q.
Proof. induction xs as [|x xs IH]; simpl; [ring|]. rewrite IH. ring. Qed.

Lemma qsum_scale_r {A : Type} (c : Q) (f : A -> Q) (xs : list A) :
  (qsum (map (fun x => f x * c) xs) == qsum (map f xs) * c)%Q.
Proof. induction xs as [|x xs IH]; simpl; [ring|]. rewrite IH. ring. Qed.

Lemma qsum_zero {A : Type} (xs : list A) :
  (qsum (map (fun _ => 0) xs) == 0)%Q.
Proof. induction xs as [|x xs IH]; simpl; [reflexivity|]. rewrite IH. ring. Qed.

Lemma qsum_swap {A B : Type} (f : A -> B -> Q) (xs : list A) (ys : list B) :
  (qsum (map (fun x => qsum (map (fun y => f x y) ys)) xs)
   == qsum (map (fun y => qsum (map (fun x => f x y) xs)) ys))%Q.
Proof.
  induction xs as [|x xs IH]; simpl.
  - now rewrite qsum_zero.
  - rewrite IH, <- qsum_plus. reflexivity.
Qed.

Lemma qsum_nonneg {A : Type} (f : A -> Q) (xs : list A) :
  (forall x, In x xs -> (0 <= f x)%Q) -> (0 <= qsum (map f xs))%Q.
Proof.
  induction xs as [|x xs IH]; intros H; simpl; [apply Qle_refl|].
  replace 0%Q with (0 + 0)%Q by reflexivity. apply Qplus_le_compat.
  - apply H. now left.
  - apply IH. intros y Hy. apply H. now right.
Qed.

(** ** Differentiation of a sum of products with frozen factors *)

Lemma eval_D_sum (env : nat -> Q) (x : nat) (es : list expr) :
  (eval env (D x (sum_expr es)) == qsum (map (fun e => eval env (D x e)) es))%Q.
Proof.
  induction es as [|e es IH]; simpl; [reflexivity|]. now rewrite IH.
Qed.

Lemma eval_D_frozen (env : nat -> Q) (x : nat) (g v : expr) :
  (eval env (D x (Mul g (StopGradient v))) == eval env (D x g) * eval env v)%Q.
Proof. simpl. ring. Qed.

(** ** The broadcasting product on vectors *)

Lemma indices_vector (n : nat) : indices [n] = map (fun i => [i]) (seq 0 n).
Proof.
  simpl. induction (seq 0 n) as [|i rest IH]; simpl; [reflexivity|].
  now rewrite IH.
Qed.

Lemma tf_multiply_same (p : nat) (xs ys : list expr) :
  tf_multiply (mkT [p] xs) (mkT [p] ys)
  = Ok (mkT [p] (map (fun i => Mul (nth i xs (Const 0)) (nth i ys (Const 0)))
                     (seq 0 p))).
Proof.
  unfold tf_multiply. cbn [shape data length Nat.max pad_shape Nat.sub repeat app].
  cbn [broadcast_shapes]. rewrite Nat.eqb_refl, indices_vector, map_map.
  f_equal. f_equal. apply map_ext_in. intros i Hi. apply in_seq in Hi.
  cbn [offset numel fold_right].
  destruct (Nat.eqb_spec p 1) as [->|_].
  - replace i with 0 by lia. reflexivity.
  - now rewrite Nat.mul_1_r, Nat.add_0_r.
Qed.

Lemma tf_multiply_mismatch (p n : nat) (xs ys : list expr) :
  p <> n -> p <> 1 -> n <> 1 ->
  tf_multiply (mkT [p] xs) (mkT [n] ys) = Err (TFError Multiply).
Proof.
  intros H1 H2 H3.
  unfold tf_multiply. cbn [shape data length Nat.max pad_shape Nat.sub repeat app].
  cbn [broadcast_shapes].
  destruct (Nat.eqb_spec p n); [contradiction|].
  destruct (Nat.eqb_spec p 1); [contradiction|].
  destruct (Nat.eqb_spec n 1); [contradiction|]. reflexivity.
Qed.

(** ** Reverse-mode differentiation and the derivative *)

Lemma merge_none (g1 g2 : option expr) :
  merge g1 g2 = None <-> g1 = None /\ g2 = None.
Proof.
  destruct g1, g2; simpl; split;
    [ discriminate | intros [H _]; discriminate
    | discriminate | intros [H _]; discriminate
    | discriminate | intros [_ H]; discriminate
    | auto | auto ].
Qed.

(** A gradient comes down to [x] exactly when a path leads from [x] up. *)
Lemma backprop_occurs (e : expr) (x : nat) (u : expr) :
  backprop x e u = None <-> occurs x e = false.
Proof.
  revert u. induction e as [q|y|e1 IH1 e2 IH2|e1 IH1 e2 IH2|e IH]; intros u;
    cbn [backprop occurs].
  - split; reflexivity.
  - destruct (x =? y); split; congruence.
  - rewrite merge_none, IH1, IH2, orb_false_iff. reflexivity.
  - rewrite merge_none, IH1, IH2, orb_false_iff. reflexivity.
  - split; reflexivity.
Qed.

(** What reverse mode builds is the gradient from above times the
    derivative, to the first and to the second order; where it builds
    nothing the derivative vanishes. *)
Lemma backprop_spec (e : expr) (x : nat) (u : expr) :
  match backprop x e u with
  | Some g =>
      (forall env, eval env g == eval env u * eval env (D x e))%Q /\
      (forall env y,
         eval env (D y g)
         == eval env (D y u) * eval env (D x e)
            + eval env u * eval env (D y (D x e)))%Q
  | None =>
      (forall env, eval env (D x e) == 0)%Q /\
      (forall env y, eval env (D y (D x e)) == 0)%Q
  end.
Proof.
  revert u. induction e as [q|z|e1 IH1 e2 IH2|e1 IH1 e2 IH2|e IH]; intros u;
    cbn [backprop D].
  - split; intros; reflexivity.
  - destruct (x =? z); cbn [D eval].
    + split; intros; ring.
    + split; intros; reflexivity.
  - specialize (IH1 u). specialize (IH2 u).
    destruct (backprop x e1 u) as [g1|], (backprop x e2 u) as [g2|];
      destruct IH1 as [A1 B1], IH2 as [A2 B2]; cbn [merge]; split;
      intros; cbn [D eval];
      rewrite ?A1, ?A2, ?B1, ?B2; ring.
  - specialize (IH1 (Mul u e2)). specialize (IH2 (Mul u e1)).
    destruct (backprop x e1 (Mul u e2)) as [g1|], (backprop x e2 (Mul u e1)) as [g2|];
      destruct IH1 as [A1 B1], IH2 as [A2 B2]; cbn [merge]; split;
      intros; cbn [D eval];
      rewrite ?A1, ?A2, ?B1, ?B2; cbn [D eval]; rewrite ?A1, ?A2, ?B1, ?B2; ring.
  - split; intros; reflexivity.
Qed.

Lemma eval_grad_entry (env : nat -> Q) (x : nat) (e : expr) :
  (eval env (grad_entry x e) == eval env (D x e))%Q.
Proof.
  unfold grad_entry. pose proof (backprop_spec e x (Const 1)) as H.
  destruct (backprop x e (Const 1)) as [g|]; destruct H as [H _].
  - rewrite H. cbn [eval]. ring.
  - rewrite H. reflexivity.
Qed.

Lemma eval_D_grad_entry (env : nat -> Q) (x y : nat) (e : expr) :
  (eval env (D y (grad_entry x e)) == eval env (D y (D x e)))%Q.
Proof.
  unfold grad_entry. pose proof (backprop_spec e x (Const 1)) as H.
  destruct (backprop x e (Const 1)) as [g|]; destruct H as [_ H].
  - rewrite H. cbn [D eval]. ring.
  - rewrite H. reflexivity.
Qed.

(** ** Gradient lists without [None] *)

Lemma all_some_map {A : Type} (ts : list (tensor A)) :
  all_some (map Some ts) = Some ts.
Proof. induction ts as [|t ts IH]; simpl; [reflexivity|]. now rewrite IH. Qed.

Lemma mapM_ext_in {A B : Type} (f g : A -> result B) (xs : list A) :
  (forall x, In x xs -> f x = g x) -> mapM f xs = mapM g xs.
Proof.
  induction xs as [|x xs IH]; intros H; [reflexivity|]. cbn [mapM].
  rewrite (H x (or_introl eq_refl)), IH; [reflexivity|].
  intros y Hy. apply H. now right.
Qed.

Lemma mapM_map_ok {A B C : Type} (f : A -> result B) (f' : A -> result C)
    (g : B -> C) (xs : list A) :
  (forall x, f' x = (y <- f x ;; Ok (g y))) ->
  mapM f' xs = (ys <- mapM f xs ;; Ok (map g ys)).
Proof.
  intros H. induction xs as [|x xs IH]; [reflexivity|]. cbn [mapM].
  rewrite H, IH. destruct (f x) as [y|e]; [|reflexivity]. cbn [bind].
  destruct (mapM f xs) as [ys|e]; reflexivity.
Qed.

Lemma index_map {A B : Type} (g : A -> B) (xs : list A) (i : nat) :
  index (map g xs) i = (x <- index xs i ;; Ok (g x)).
Proof.
  unfold index. rewrite nth_error_map. destruct (nth_error xs i); reflexivity.
Qed.

(** On a list that holds no [None], [flatten] is [flatten] on the
    tensors. *)
Lemma flatten_grads_some {A : Type} (layers : list nat) (ts : list (tensor A)) :
  flatten_grads layers (map Some ts) = flatten layers ts.
Proof.
  unfold flatten_grads, flatten, flatten_with.
  rewrite (mapM_ext_in
             (fun l => p <- index (map Some ts) l ;;
                       a <- index layers l ;;
                       b <- index layers (l + 1) ;;
                       reshape_item p [a * b])
             (fun l => p <- index ts l ;;
                       a <- index layers l ;;
                       b <- index layers (l + 1) ;;
                       tf_reshape p [a * b])).
  2:{ intros l _. rewrite index_map. destruct (index ts l); reflexivity. }
  destruct (mapM _ (range (length layers - 1))) as [ws|e]; [|reflexivity].
  cbn [bind]. destruct (tf_concat ws) as [weights|e]; [|reflexivity].
  cbn [bind].
  rewrite (mapM_map_ok (fun l => index ts (l + length layers - 1)) _ Some)
    by (intros l; apply index_map).
  destruct (mapM _ (range (length layers - 1))) as [bs|e]; [|reflexivity].
  cbn [bind]. unfold concat_items. now rewrite all_some_map.
Qed.

Lemma tf_gradients_connected (ys : tensor expr) (params : list (tensor nat)) :
  forallb (connected ys) params = true ->
  tf_gradients ys params
  = map Some (map (tmap (fun v => grad_entry v (sum_expr (data ys)))) params).
Proof.
  intros H. unfold tf_gradients. rewrite map_map. apply map_ext_in.
  intros x Hx. rewrite forallb_forall in H. now rewrite (H x Hx).
Qed.

Lemma occurs_sum (x : nat) (es : list expr) :
  occurs x (sum_expr es) = existsb (occurs x) es.
Proof. induction es as [|e es IH]; simpl; [reflexivity|]. now rewrite IH. Qed.

Lemma existsb_ext_in {A : Type} (f g : A -> bool) (xs : list A) :
  (forall x, In x xs -> f x = g x) -> existsb f xs = existsb g xs.
Proof.
  induction xs as [|x xs IH]; intros H; simpl; [reflexivity|].
  rewrite (H x (or_introl eq_refl)), IH; [reflexivity|].
  intros y Hy. apply H. now right.
Qed.

Lemma existsb_map_comp {A B : Type} (f : B -> bool) (g : A -> B) (xs : list A) :
  existsb f (map g xs) = existsb (fun x => f (g x)) xs.
Proof. induction xs as [|x xs IH]; simpl; [reflexivity|]. now rewrite IH. Qed.

Lemma map_nth_seq_id {A : Type} (xs : list A) (d : A) :
  map (fun i => nth i xs d) (seq 0 (length xs)) = xs.
Proof.
  apply nth_ext with (d := d) (d' := d).
  - now rewrite length_map, length_seq.
  - intros i Hi. rewrite length_map, length_seq in Hi.
    now rewrite nth_map_seq by lia.
Qed.

Lemma existsb_orb {A : Type} (f g : A -> bool) (xs : list A) :
  existsb (fun x => f x || g x) xs = existsb f xs || existsb g xs.
Proof.
  induction xs as [|x xs IH]; [reflexivity|]. cbn [existsb]. rewrite IH.
  destruct (f x), (g x), (existsb f xs); reflexivity.
Qed.

Lemma occurs_product (v : nat) (g vs : list expr) :
  occurs v (sum_expr (map (fun i => Mul (nth i g (Const 0)) (nth i vs (Const 0)))
                          (seq 0 (length g))))
  = occurs v (sum_expr g)
    || existsb (fun i => occurs v (nth i vs (Const 0))) (seq 0 (length g)).
Proof.
  rewrite !occurs_sum, existsb_map_comp. cbn [occurs].
  rewrite existsb_orb. f_equal.
  rewrite <- (existsb_map_comp (occurs v) (fun i => nth i g (Const 0))).
  now rewrite map_nth_seq_id.
Qed.

(** The product is connected to what either factor is connected to. *)
Lemma connected_product (g vs : list expr) (sh1 sh2 : list nat) (x : tensor nat) :
  connected (mkT sh1 (map (fun i => Mul (nth i g (Const 0)) (nth i vs (Const 0)))
                          (seq 0 (length g))))
            x
  = connected (mkT sh2 g) x
    || existsb (fun v => existsb (fun i => occurs v (nth i vs (Const 0)))
                                 (seq 0 (length g)))
               (data x).
Proof.
  unfold connected. cbn [data]. rewrite <- existsb_orb.
  apply existsb_ext_in. intros v _. apply occurs_product.
Qed.

Lemma connected_frozen (g vs : list expr) (sh1 sh2 : list nat) (n : nat)
    (x : tensor nat) :
  n = length g ->
  connected (mkT sh1 (map (fun i => Mul (nth i g (Const 0))
                                        (nth i (map StopGradient vs) (Const 0)))
                          (seq 0 n)))
            x
  = connected (mkT sh2 g) x.
Proof.
  intros ->. rewrite (connected_product g (map StopGradient vs) sh1 sh2).
  assert (E : forall v n,
             existsb (fun i => occurs v (nth i (map StopGradient vs) (Const 0)))
                     (seq 0 n) = false).
  { intros v n. induction (seq 0 n) as [|i l IH]; [reflexivity|]. cbn [existsb].
    rewrite IH, orb_false_r.
    destruct (Nat.lt_ge_cases i (length vs)) as [Hi|Hi].
    - now rewrite (nth_map_default _ _ (Const 0)) by assumption.
    - rewrite nth_overflow by (now rewrite length_map). reflexivity. }
  replace (existsb _ (data x)) with false; [apply orb_false_r|].
  induction (data x) as [|v l IH]; [reflexivity|].
  cbn [existsb]. now rewrite E.
Qed.

(** ** The Hessian-vector product on a conforming parameter list *)

(** The two backward passes of [get_Hv_op], when both reach every
    parameter tensor: the flattened gradient, and the flattened gradient of
    its product with a frozen vector. *)
Lemma get_Hv_op_passes (layers : list nat) (cost : tensor expr)
    (params : list (tensor nat)) :
  2 <= length layers ->
  conforms layers params = true ->
  twice_connected layers cost params = true ->
  exists theta,
    flatten layers params = Ok (mkT [P layers] theta) /\
    length theta = P layers /\
    flatten_grads layers (tf_gradients cost params)
    = Ok (mkT [P layers] (map (fun x => grad_entry x (sum_expr (data cost))) theta)) /\
    forall vs,
      flatten_grads layers
        (tf_gradients
           (mkT [P layers]
                (map (fun i =>
                        Mul (nth i (map (fun x' => grad_entry x' (sum_expr (data cost)))
                                        theta) (Const 0))
                            (nth i (map StopGradient vs) (Const 0)))
                     (seq 0 (P layers))))
           params)
      = Ok (mkT [P layers]
                (map (fun x =>
                        grad_entry x
                          (sum_expr
                             (map (fun i =>
                                     Mul (nth i (map (fun x' => grad_entry x' (sum_expr (data cost)))
                                                     theta) (Const 0))
                                         (nth i (map StopGradient vs) (Const 0)))
                                  (seq 0 (P layers)))))
                     theta)).
Proof.
  intros Hs Hc Htc.
  set (c := sum_expr (data cost)).
  destruct (@flatten_map _ _ (fun x => grad_entry x c) layers params Hs Hc)
    as (theta & Hflat & Hth & Hg).
  set (gs := map (fun x => grad_entry x c) theta) in *.
  exists theta. split; [exact Hflat|]. split; [exact Hth|].
  unfold twice_connected in Htc. apply andb_true_iff in Htc as [H1 H2].
  rewrite (tf_gradients_connected cost params H1) in *.
  rewrite flatten_grads_some in *. fold c in H2 |- *. rewrite Hg in *.
  split; [reflexivity|]. intros vs.
  set (vprod := mkT [P layers]
                    (map (fun i => Mul (nth i gs (Const 0))
                                       (nth i (map StopGradient vs) (Const 0)))
                         (seq 0 (P layers)))).
  destruct (@flatten_map _ _ (fun x => grad_entry x (sum_expr (data vprod)))
                         layers params Hs Hc)
    as (theta' & Hflat' & _ & Hhv).
  rewrite Hflat in Hflat'. injection Hflat' as <-.
  assert (H3 : forallb (connected vprod) params = true).
  { rewrite forallb_forall in H2 |- *. intros x Hx. rewrite <- (H2 x Hx).
    unfold vprod. apply connected_frozen.
    unfold gs. now rewrite length_map. }
  change (flatten_grads layers (tf_gradients vprod params)
          = Ok (mkT [P layers]
                    (map (fun x => grad_entry x (sum_expr (data vprod))) theta))).
  rewrite (tf_gradients_connected vprod params H3), flatten_grads_some.
  exact Hhv.
Qed.

(** The graph that [get_Hv_op] builds for a vector of length [P], when
    both backward passes reach every parameter tensor. *)
Lemma get_Hv_op_value (layers : list nat) (cost : tensor expr)
    (params : list (tensor nat)) (vs : list expr) :
  2 <= length layers ->
  conforms layers params = true ->
  twice_connected layers cost params = true ->
  exists theta,
    flatten layers params = Ok (mkT [P layers] theta) /\
    length theta = P layers /\
    get_Hv_op layers cost params (mkT [P layers] vs)
    = Ok (mkT [P layers]
              (map (fun x =>
                      grad_entry x
                        (sum_expr
                           (map (fun i =>
                                   Mul (nth i (map (fun x' => grad_entry x' (sum_expr (data cost)))
                                                   theta) (Const 0))
                                       (nth i (map StopGradient vs) (Const 0)))
                                (seq 0 (P layers)))))
                   theta)).
Proof.
  intros Hs Hc Htc.
  destruct (@get_Hv_op_passes layers cost params Hs Hc Htc)
    as (theta & Hflat & Hth & Hfirst & Hsecond).
  exists theta. split; [exact Hflat|]. split; [exact Hth|].
  unfold get_Hv_op. rewrite Hfirst. cbn [bind].
  unfold tf_stop_gradient. cbn [shape data].
  rewrite tf_multiply_same. cbn [bind]. apply Hsecond.
Qed.

(** One entry of the second backward pass, evaluated. *)
Lemma eval_Hv_entry (env : nat -> Q) (c : expr) (theta : list nat) (vs : list expr)
    (n x : nat) :
  length theta = n -> length vs = n ->
  (eval env
        (grad_entry x
           (sum_expr
              (map (fun i => Mul (nth i (map (fun x' => grad_entry x' c) theta) (Const 0))
                                 (nth i (map StopGradient vs) (Const 0)))
                   (seq 0 n))))
   == qsum (map (fun i => eval env (D x (D (nth i theta 0%nat) c))
                          * eval env (nth i vs (Const 0)))
                (seq 0 n)))%Q.
Proof.
  intros Hth Hvs. rewrite eval_grad_entry, eval_D_sum, map_map.
  apply qsum_ext. intros i Hi. apply in_seq in Hi.
  rewrite (nth_map_default _ _ 0) by lia.
  rewrite (nth_map_default _ _ (Const 0)) by lia.
  rewrite eval_D_frozen, eval_D_grad_entry. reflexivity.
Qed.

(** ** When the gradient lists can be flattened *)

Lemma mapM_ok_in {A B : Type} (f : A -> result B) (xs : list A) (ys : list B) (x : A) :
  mapM f xs = Ok ys -> In x xs -> exists y, f x = Ok y /\ In y ys.
Proof.
  revert ys. induction xs as [|x0 xs IH]; intros ys H Hin; [destruct Hin|].
  cbn [mapM] in H. destruct (f x0) as [y0|e] eqn:E0; [|discriminate].
  cbn [bind] in H. destruct (mapM f xs) as [ys0|e]; [|discriminate].
  cbn [bind] in H. injection H as <-. destruct Hin as [->|Hin].
  - exists y0. split; [exact E0|now left].
  - destruct (IH ys0 eq_refl Hin) as (y & Hy & Hy'). exists y.
    split; [exact Hy|now right].
Qed.

Lemma all_some_in {A : Type} (os : list (option (tensor A))) (ts : list (tensor A))
    (o : option (tensor A)) :
  all_some os = Some ts -> In o os -> exists t, o = Some t.
Proof.
  revert ts. induction os as [|o0 os IH]; intros ts H Hin; [destruct Hin|].
  cbn [all_some] in H. destruct o0 as [t0|]; [|discriminate].
  destruct (all_some os) as [ts0|]; [|discriminate].
  destruct Hin as [<-|Hin]; [eauto|]. now apply (IH ts0).
Qed.

Lemma all_present {A : Type} (os : list (option A)) :
  (forall i, i < length os -> exists t, nth_error os i = Some (Some t)) ->
  exists ts, os = map Some ts.
Proof.
  induction os as [|o os IH]; intros H; [now exists []|].
  destruct (H 0) as (t & Ht); [simpl; lia|]. cbn in Ht. injection Ht as ->.
  destruct IH as (ts & ->).
  { intros i Hi. apply (H (S i)). simpl. lia. }
  now exists (t :: ts).
Qed.

(** [flatten] returns on a list of gradients only when none of the [2L]
    gradients is [None]. *)
Lemma flatten_grads_ok {A : Type} (layers : list nat)
    (gs : list (option (tensor A))) (r : tensor A) :
  2 <= length layers ->
  length gs = 2 * (length layers - 1) ->
  flatten_grads layers gs = Ok r ->
  exists ts, gs = map Some ts.
Proof.
  intros Hs Hlen H. unfold flatten_grads, flatten_with in H.
  destruct (mapM _ (range (length layers - 1))) as [ws|e] eqn:Ews; [|discriminate].
  cbn [bind] in H. destruct (tf_concat ws) as [weights|e]; [|discriminate].
  cbn [bind] in H.
  destruct (mapM _ (range (length layers - 1))) as [bs|e] eqn:Ebs in H; [|discriminate].
  cbn [bind] in H. unfold concat_items in H.
  destruct (all_some bs) as [tbs|] eqn:Eall; [|discriminate].
  apply all_present. intros i Hi.
  destruct (Nat.lt_ge_cases i (length layers - 1)) as [Hlt|Hge].
  - destruct (@mapM_ok_in _ _ _ _ _ i Ews) as (w & Hw & _); [apply in_seq; lia|].
    destruct (index gs i) as [[t|]|e] eqn:Ei; cbn [bind] in Hw.
    + unfold index in Ei. destruct (nth_error gs i) as [o|]; [|discriminate].
      injection Ei as ->. eauto.
    + destruct (index layers i); cbn [bind] in Hw; [|discriminate].
      destruct (index layers (i + 1)); cbn [bind] in Hw; discriminate.
    + discriminate.
  - destruct (@mapM_ok_in _ _ _ _ _ (i - (length layers - 1)) Ebs) as (o & Ho & Hin);
      [apply in_seq; lia|].
    replace (i - (length layers - 1) + length layers - 1) with i in Ho by lia.
    destruct (@all_some_in _ bs tbs o Eall Hin) as (t & ->).
    unfold index in Ho. destruct (nth_error gs i) as [o|]; [|discriminate].
    injection Ho as ->. eauto.
Qed.

Lemma tf_gradients_all_some (ys : tensor expr) (params : list (tensor nat))
    (ts : list (tensor expr)) :
  tf_gradients ys params = map Some ts ->
  forallb (connected ys) params = true.
Proof.
  revert ts. induction params as [|x params IH]; intros ts H; [reflexivity|].
  destruct ts as [|t ts]; [discriminate|]. cbn [tf_gradients map] in H.
  cbn [forallb]. destruct (connected ys x); [|discriminate].
  injection H as _ H. cbn [andb]. exact (IH ts H).
Qed.

Lemma tf_gradients_length (ys : tensor expr) (params : list (tensor nat)) :
  length (tf_gradients ys params) = length params.
Proof. unfold tf_gradients. apply length_map. Qed.

(** On a conforming parameter list, a direction of length [P] gets its
    product only when both backward passes reach every parameter tensor. *)
Lemma get_Hv_op_ok (layers : list nat) (cost : tensor expr)
    (params : list (tensor nat)) (vs : list expr) (r : tensor expr) :
  2 <= length layers ->
  conforms layers params = true ->
  get_Hv_op layers cost params (mkT [P layers] vs) = Ok r ->
  twice_connected layers cost params = true.
Proof.
  intros Hs Hc H.
  pose proof (@conforms_length _ layers params Hc) as Hlen.
  unfold get_Hv_op in H. unfold twice_connected.
  destruct (flatten_grads layers (tf_gradients cost params)) as [g|e] eqn:Eg;
    [|discriminate].
  cbn [bind] in H.
  destruct (@flatten_grads_ok _ layers (tf_gradients cost params) g Hs) as (ts & Hts);
    [now rewrite tf_gradients_length|exact Eg|].
  pose proof (@tf_gradients_all_some _ _ _ Hts) as H1. rewrite H1. cbn [andb].
  rewrite (tf_gradients_connected cost params H1), flatten_grads_some in Eg.
  destruct (@flatten_map _ _ (fun x => grad_entry x (sum_expr (data cost)))
                         layers params Hs Hc) as (theta & _ & Hth & Hg).
  rewrite Hg in Eg. injection Eg as <-.
  unfold tf_stop_gradient in H. cbn [shape data] in H.
  rewrite tf_multiply_same in H. cbn [bind] in H.
  destruct (@flatten_grads_ok _ layers _ r Hs
              ltac:(rewrite tf_gradients_length; exact Hlen) H) as (ts' & Hts').
  pose proof (@tf_gradients_all_some _ _ _ Hts') as H2.
  rewrite forallb_forall in H2 |- *. intros x Hx. rewrite <- (H2 x Hx).
  symmetry.
  apply connected_frozen. now rewrite length_map.
Qed.

(** [eval] is the run of the graph in exact arithmetic. *)
Lemma run_eval (env : nat -> Q) (e : expr) :
  run (fun q => q) env e = eval env e.
Proof.
  induction e as [q|x|e1 IH1 e2 IH2|e1 IH1 e2 IH2|e IH]; cbn [run eval];
    try reflexivity.
  - now rewrite IH1, IH2.
  - now rewrite IH1, IH2.
  - exact IH.
Qed.

(** ** C2: the Hessian-vector product *)

(** C2, as stated, fails.  On the schema [[1,1]] ([P = 2]) and the basis
    vector [e_0]: for the cost [w + b] the second backward pass finds no
    path to the parameters, and for the cost [w * w] the first finds none to
    the bias; [tf.gradients] returns [None] there and [flatten] raises.
    And for the cost [(w + b)^2] and the direction [(2^24, 1)], entry 0 of
    [H v] is [33554434], which binary32 does not hold: the graph run in
    float32 gives [33554432]. *)
Lemma get_Hv_op_not_hessian_product :
  conforms layers11 vars11 = true /\
  shape (basis 2 0) = [P layers11] /\
  get_Hv_op layers11 cost_linear vars11 (basis 2 0) = Err (TFError Reshape) /\
  get_Hv_op layers11 cost_w_only vars11 (basis 2 0) = Err (TFError Concat) /\
  exists hv,
    get_Hv_op layers11 cost11 vars11 v_big = Ok (mkT [2] hv) /\
    (f32_to_Q (run f32_of_Q (fun _ => f32_of_Z 3) (nth 0%nat hv (Const 0)))
     == inject_Z 33554432)%Q /\
    (hessian_times (fun _ => inject_Z 3) cost11 [0%nat; 1%nat] (data v_big) 0%nat
     == inject_Z 33554434)%Q.
Proof.
  split; [reflexivity|]. split; [reflexivity|]. split; [reflexivity|].
  split; [reflexivity|]. eexists. split; [reflexivity|].
  split; vm_compute; reflexivity.
Qed.

(** C2, amended.  For a conforming parameter list whose every tensor
    both backward passes reach, and every vector [v] of length [P],
    whatever its entries depend on, [get_Hv_op v] returns a vector of
    length [P] whose entry [j] evaluates in exact arithmetic, at every
    point, to [sum_i H_ji v_i], where [H_ji] is the second derivative of
    the cost with respect to entries [j] and [i] of the flattened
    parameters: the second backward pass differentiates the product of the
    flattened gradient with the frozen [v], and no derivative of [v]
    appears. *)
Theorem get_Hv_op_is_hessian_product (layers : list nat) (cost : tensor expr)
    (params : list (tensor nat)) (v : tensor expr) :
  2 <= length layers ->
  conforms layers params = true ->
  twice_connected layers cost params = true ->
  shape v = [P layers] ->
  length (data v) = P layers ->
  exists theta hv,
    flatten layers params = Ok (mkT [P layers] theta) /\
    length theta = P layers /\
    get_Hv_op layers cost params v = Ok (mkT [P layers] hv) /\
    length hv = P layers /\
    forall env j, j < P layers ->
      (eval env (nth j hv (Const 0)) == hessian_times env cost theta (data v) j)%Q.
Proof.
  intros Hs Hc Htc Hshape Hlen. destruct v as [vsh vs]. cbn in Hshape, Hlen. subst vsh.
  destruct (@get_Hv_op_value layers cost params vs Hs Hc Htc)
    as (theta & Hflat & Hth & Hv).
  eexists theta, _. split; [exact Hflat|]. split; [exact Hth|].
  split; [exact Hv|]. split; [now rewrite length_map|].
  intros env j Hj. unfold hessian_times, hessian. cbn [data].
  rewrite (nth_map_default _ _ 0) by lia.
  rewrite Hth. apply eval_Hv_entry; assumption.
Qed.

Lemma get_Hv_op_is_hessian_product_witness :
  exists theta hv,
    flatten layers11 vars11 = Ok (mkT [P layers11] theta) /\
    length theta = P layers11 /\
    get_Hv_op layers11 cost11 vars11 (basis 2 0) = Ok (mkT [P layers11] hv) /\
    length hv = P layers11 /\
    forall env j, j < P layers11 ->
      (eval env (nth j hv (Const 0))
       == hessian_times env cost11 theta (data (basis 2 0)) j)%Q.
Proof.
  apply (@get_Hv_op_is_hessian_product layers11 cost11 vars11 (basis 2 0)).
  - simpl. lia.
  - reflexivity.
  - reflexivity.
  - reflexivity.
  - reflexivity.
Defined.


(** ** Rows of a stacked matrix *)

Lemma uniform_chunk {A : Type} (m : nat) (cs : list (list A)) (i : nat) :
  (forall c, In c cs -> length c = m) ->
  i < length cs ->
  firstn m (skipn (i * m) (concat cs)) = nth i cs [].
Proof.
  revert i. induction cs as [|c cs IH]; simpl; intros i Hall Hi; [lia|].
  assert (Hc : length c = m) by (apply Hall; now left).
  destruct i as [|i]; simpl.
  - rewrite firstn_app, <- Hc, Nat.sub_diag, firstn_all. simpl. apply app_nil_r.
  - rewrite skipn_app, skipn_all2 by lia. simpl.
    replace (m + i * m - length c) with (i * m) by lia.
    apply IH; [|lia]. intros c' Hc'. apply Hall. now right.
Qed.

Lemma tf_stack_uniform {A : Type} (sh : list nat) (ts : list (tensor A)) :
  ts <> [] ->
  (forall t, In t ts -> shape t = sh) ->
  tf_stack ts = Ok (mkT (length ts :: sh) (concat (map (@data A) ts))).
Proof.
  intros Hne Hall. unfold tf_stack. destruct ts as [|t0 ts']; [congruence|].
  rewrite (Hall t0 (or_introl eq_refl)).
  replace (forallb _ (t0 :: ts')) with true; [reflexivity|].
  symmetry. apply forallb_forall. intros t Ht. apply shape_eqb_eq. now apply Hall.
Qed.

Lemma tf_unstack_rows {A : Type} (sh : list nat) (ts : list (tensor A)) :
  (forall t, In t ts -> shape t = sh /\ length (data t) = numel sh) ->
  tf_unstack (mkT (length ts :: sh) (concat (map (@data A) ts))) = Ok ts.
Proof.
  intros Hall. unfold tf_unstack. cbn [shape data]. f_equal.
  apply nth_ext with (d := mkT [] []) (d' := mkT [] []).
  - now rewrite length_map, length_seq.
  - intros i Hi. rewrite length_map, length_seq in Hi.
    unfold range. rewrite nth_map_seq by lia. simpl.
    rewrite uniform_chunk.
    + rewrite (nth_map_default _ _ (mkT [] [])) by lia.
      destruct (Hall (nth i ts (mkT [] []))) as [Hsh _]; [now apply nth_In|].
      rewrite <- Hsh. now destruct (nth i ts (mkT [] [])).
    + intros c Hc. apply in_map_iff in Hc as (t & <- & Ht). now apply Hall.
    + now rewrite length_map.
Qed.

Lemma tf_unstack_eye (n : nat) :
  tf_unstack (tf_eye n n) = Ok (map (basis n) (seq 0 n)).
Proof.
  assert (H : tf_eye n n
              = mkT (length (map (basis n) (seq 0 n)) :: [n])
                    (concat (map (@data expr) (map (basis n) (seq 0 n))))).
  { unfold tf_eye. rewrite length_map, length_seq, map_map. cbn [basis data].
    now rewrite flat_map_concat_map. }
  rewrite H. apply tf_unstack_rows.
  intros t Ht. apply in_map_iff in Ht as (i & <- & _). cbn.
  rewrite length_map, length_seq. split; [reflexivity|lia].
Qed.

Lemma mapM_total {A B : Type} (f : A -> result B) (Q : B -> Prop) (xs : list A)
    (d : A) (d' : B) :
  (forall x, In x xs -> exists y, f x = Ok y /\ Q y) ->
  exists ys,
    mapM f xs = Ok ys /\ length ys = length xs /\
    (forall y, In y ys -> Q y) /\
    (forall i, i < length xs -> f (nth i xs d) = Ok (nth i ys d')).
Proof.
  induction xs as [|x xs IH]; intros H.
  - exists []. simpl. repeat split; try lia; try contradiction.
  - destruct (H x (or_introl eq_refl)) as (y & Hy & HQ).
    destruct IH as (ys & Hys & Hlen & HQs & Hnth).
    { intros x' Hx'. apply H. now right. }
    exists (y :: ys). simpl. rewrite Hy. simpl. rewrite Hys. simpl.
    repeat split; [lia| |].
    + intros y' [<-|Hy']; auto.
    + intros [|i] Hi; [exact Hy|]. apply Hnth. lia.
Qed.

Lemma get_Hv_op_total (layers : list nat) (cost : tensor expr)
    (params : list (tensor nat)) (vs : list expr) :
  2 <= length layers ->
  conforms layers params = true ->
  twice_connected layers cost params = true ->
  exists r,
    get_Hv_op layers cost params (mkT [P layers] vs) = Ok r /\
    (shape r = [P layers] /\ length (data r) = numel [P layers]).
Proof.
  intros Hs Hc Htc.
  destruct (@get_Hv_op_value layers cost params vs Hs Hc Htc) as (theta & _ & Hth & Hv).
  eexists. split; [exact Hv|]. cbn. rewrite length_map. split; [reflexivity|lia].
Qed.

(** [map_fn] over the rows of the identity, when both backward passes
    reach every parameter tensor. *)
Lemma get_H_op_stacked (layers : list nat) (cost : tensor expr)
    (params : list (tensor nat)) :
  2 <= length layers ->
  conforms layers params = true ->
  twice_connected layers cost params = true ->
  exists H rows,
    get_H_op layers cost params = Ok H /\
    shape H = [P layers; P layers] /\
    tf_unstack H = Ok rows /\
    length rows = P layers /\
    forall i, i < P layers ->
      get_Hv_op layers cost params (basis (P layers) i)
      = Ok (nth i rows (mkT [] [])).
Proof.
  intros Hs Hc Htc. unfold get_H_op, tf_map_fn.
  rewrite tf_unstack_eye. cbn [bind].
  destruct (P layers) as [|p] eqn:HP.
  - cbn [seq map tf_eye shape List.tl numel fold_right repeat Nat.mul].
    destruct (@get_Hv_op_total layers cost params [] Hs Hc Htc) as (r & Hr & Hsh & _).
    rewrite HP in Hr, Hsh. rewrite Hr. cbn [bind]. rewrite Hsh.
    exists (mkT [0; 0] []), []. repeat split; intros; lia.
  - destruct (@mapM_total _ _ (get_Hv_op layers cost params)
                (fun r => shape r = [S p] /\ length (data r) = numel [S p])
                (map (basis (S p)) (seq 0 (S p))) (mkT [] []) (mkT [] []))
      as (rs & Hrs & Hlen & Hall & Hnth).
    { intros v Hv. apply in_map_iff in Hv as (i & <- & _). unfold basis.
      rewrite <- HP. apply get_Hv_op_total; assumption. }
    rewrite length_map, length_seq in Hlen, Hnth.
    cbn [seq map] in Hrs |- *. rewrite Hrs. cbn [bind].
    rewrite (@tf_stack_uniform _ [S p]).
    2:{ destruct rs; [discriminate|congruence]. }
    2:{ intros t Ht. now apply Hall. }
    exists (mkT (length rs :: [S p]) (concat (map (@data expr) rs))), rs.
    split; [reflexivity|]. split; [now rewrite Hlen|].
    split; [now apply tf_unstack_rows|]. split; [exact Hlen|].
    intros i Hi. rewrite <- Hnth by exact Hi.
    f_equal. rewrite (nth_map_default _ _ 0) by (rewrite length_seq; lia).
    now rewrite seq_nth by lia.
Qed.

(** [get_H_op] returns only when both backward passes reach every
    parameter tensor: the graph of the first row is built in any case. *)
Lemma get_H_op_ok (layers : list nat) (cost : tensor expr)
    (params : list (tensor nat)) (H : tensor expr) :
  2 <= length layers ->
  conforms layers params = true ->
  get_H_op layers cost params = Ok H ->
  twice_connected layers cost params = true.
Proof.
  intros Hs Hc HH. unfold get_H_op, tf_map_fn in HH.
  rewrite tf_unstack_eye in HH. cbn [bind] in HH.
  destruct (P layers) as [|p] eqn:HP.
  - cbn [seq map tf_eye shape List.tl numel fold_right repeat Nat.mul] in HH.
    destruct (get_Hv_op layers cost params (mkT [0] [])) as [r|e] eqn:Er;
      [|discriminate].
    rewrite <- HP in Er. eapply get_Hv_op_ok; eassumption.
  - cbn [seq map] in HH.
    cbn [mapM] in HH.
    destruct (get_Hv_op layers cost params (basis (S p) 0)) as [r|e] eqn:Er;
      [|discriminate].
    unfold basis in Er. rewrite <- HP in Er. eapply get_Hv_op_ok; eassumption.
Qed.

(** ** C3: the rows of the full Hessian *)

(** C3.  For a conforming parameter list, whenever [get_H_op] returns a
    matrix it is [P] by [P], and for every [i < P] its row [i] is
    [get_Hv_op] applied to the [i]-th standard basis vector of length [P];
    and [get_H_op] does return when both backward passes reach every
    parameter tensor. *)
Theorem get_H_op_rows (layers : list nat) (cost : tensor expr)
    (params : list (tensor nat)) :
  2 <= length layers ->
  conforms layers params = true ->
  (twice_connected layers cost params = true ->
   exists H, get_H_op layers cost params = Ok H) /\
  (forall H, get_H_op layers cost params = Ok H ->
     shape H = [P layers; P layers] /\
     exists rows,
       tf_unstack H = Ok rows /\
       length rows = P layers /\
       forall i, i < P layers ->
         get_Hv_op layers cost params (basis (P layers) i)
         = Ok (nth i rows (mkT [] []))).
Proof.
  intros Hs Hc. split.
  - intros Htc.
    destruct (@get_H_op_stacked layers cost params Hs Hc Htc) as (H & _ & HH & _). eauto.
  - intros H HH. pose proof (@get_H_op_ok layers cost params H Hs Hc HH) as Htc.
    destruct (@get_H_op_stacked layers cost params Hs Hc Htc)
      as (H' & rows & HH' & Hsh & Hun & Hlen & Hrows).
    rewrite HH in HH'. injection HH' as <-.
    split; [exact Hsh|]. exists rows. auto.
Qed.

Lemma get_H_op_rows_witness :
  (twice_connected layers11 cost11 vars11 = true ->
   exists H, get_H_op layers11 cost11 vars11 = Ok H) /\
  (forall H, get_H_op layers11 cost11 vars11 = Ok H ->
     shape H = [P layers11; P layers11] /\
     exists rows,
       tf_unstack H = Ok rows /\
       length rows = P layers11 /\
       forall i, i < P layers11 ->
         get_Hv_op layers11 cost11 vars11 (basis (P layers11) i)
         = Ok (nth i rows (mkT [] []))).
Proof.
  apply (@get_H_op_rows layers11 cost11 vars11).
  - simpl. lia.
  - reflexivity.
Defined.

(** ** C8: vectors of the wrong length *)

Lemma P_ge_2 (layers : list nat) :
  2 <= length layers -> Forall (fun w => 0 < w) layers -> 2 <= P layers.
Proof.
  intros Hs Hpos. destruct layers as [|n0 [|n1 rest]]; simpl in Hs; try lia.
  inversion Hpos as [|? ? H0 Hpos']; subst. inversion Hpos' as [|? ? H1 _]; subst.
  unfold P. cbn [length Nat.sub range seq map list_sum fold_right nth Nat.add].
  nia.
Qed.

Lemma get_Hv_op_mismatch (layers : list nat) (cost : tensor expr)
    (params : list (tensor nat)) (vs : list expr) :
  2 <= length layers ->
  conforms layers params = true ->
  forallb (connected cost) params = true ->
  length vs <> P layers -> length vs <> 1 -> P layers <> 1 ->
  get_Hv_op layers cost params (mkT [length vs] vs) = Err (TFError Multiply).
Proof.
  intros Hs Hc Hcon H1 H2 H3.
  destruct (@flatten_map _ _ (fun x => grad_entry x (sum_expr (data cost)))
                         layers params Hs Hc)
    as (theta & _ & _ & Hg).
  unfold get_Hv_op.
  rewrite (tf_gradients_connected cost params Hcon), flatten_grads_some, Hg.
  cbn [bind]. unfold tf_stop_gradient. cbn [shape data].
  rewrite tf_multiply_mismatch by auto. reflexivity.
Qed.

(** C8, as stated, fails: on the schema [[1,1]] ([P = 2]), [unflatten]
    accepts a vector of length 3, and [get_Hv_op] accepts a direction of
    length 1, which the product broadcasts. *)
Lemma wrong_length_accepted :
  length (data flat3) <> P layers11 /\
  unflatten layers11 flat3 = Ok [mkT [1; 1] [1]%Z; mkT [1] [2]%Z] /\
  length (data v1) <> P layers11 /\
  exists hv, get_Hv_op layers11 cost11 vars11 v1 = Ok (mkT [2] hv).
Proof.
  split; [cbv; lia|]. split; [reflexivity|]. split; [cbv; lia|].
  eexists. reflexivity.
Qed.

(** C8, amended.  With positive widths that, like the parameter count,
    fit a 64-bit integer, [unflatten] raises the engine's reshape error on
    every vector shorter than [P] and accepts every vector with at least [P]
    entries; on a conforming parameter list whose every tensor the cost
    reaches, [get_Hv_op] raises the engine's broadcasting error on every
    vector whose length is neither [P] nor 1. *)
Theorem wrong_length_errors (A : Type) (layers : list nat) (xs : list A)
    (cost : tensor expr) (params : list (tensor nat)) (vs : list expr) :
  2 <= length layers ->
  Forall (fun w => 0 < w) layers ->
  int64_schema layers ->
  (length xs < P layers ->
   unflatten layers (mkT [length xs] xs) = Err (TFError Reshape)) /\
  (P layers <= length xs ->
   exists ps, unflatten layers (mkT [length xs] xs) = Ok ps /\
              length ps = 2 * (length layers - 1)) /\
  (conforms layers params = true ->
   forallb (connected cost) params = true ->
   length vs <> P layers -> length vs <> 1 ->
   get_Hv_op layers cost params (mkT [length vs] vs) = Err (TFError Multiply)).
Proof.
  intros Hs Hpos _. split; [|split].
  - intros Hlt. now apply unflatten_short.
  - intros Hge. now apply unflatten_long.
  - intros Hc Hcon H1 H2. apply get_Hv_op_mismatch; auto.
    pose proof (P_ge_2 Hs Hpos). lia.
Qed.

Lemma wrong_length_errors_witness :
  (length [1%Z] < P layers11 ->
   unflatten layers11 (mkT [length [1%Z]] [1%Z]) = Err (TFError Reshape)) /\
  (P layers11 <= length [1%Z] ->
   exists ps, unflatten layers11 (mkT [length [1%Z]] [1%Z]) = Ok ps /\
              length ps = 2 * (length layers11 - 1)) /\
  (conforms layers11 vars11 = true ->
   forallb (connected cost11) vars11 = true ->
   length [Const 1; Const 0; Const 0] <> P layers11 ->
   length [Const 1; Const 0; Const 0] <> 1 ->
   get_Hv_op layers11 cost11 vars11
     (mkT [length [Const 1; Const 0; Const 0]] [Const 1; Const 0; Const 0])
   = Err (TFError Multiply)).
Proof.
  apply (@wrong_length_errors Z layers11 [1%Z] cost11 vars11
           [Const 1; Const 0; Const 0]).
  - simpl. lia.
  - repeat constructor.
  - split; [repeat constructor|reflexivity].
Defined.
(** ** The per-example parameter copies *)

Lemma tf_identity_id {A : Type} (t : tensor A) : tf_identity t = t.
Proof. now destruct t. Qed.

Lemma ex_params_op_prefix (layers : list nat) (params : list (tensor Q))
    (batch_size : nat) :
  length layers <= length params ->
  ex_params_op layers params batch_size
  = Ok (repeat (firstn (length layers) params) batch_size).
Proof.
  intros Hlen. unfold ex_params_op.
  rewrite (mapM_ok_map _ (fun _ => firstn (length layers) params)).
  - rewrite map_const. unfold range. now rewrite length_seq.
  - intros _ _.
    rewrite (mapM_range_ok _ (fun l => nth l params (mkT [] []))).
    + f_equal. apply nth_ext with (d := mkT [] []) (d' := mkT [] []).
      * rewrite length_map_range, length_firstn. lia.
      * intros l Hl. rewrite length_map_range in Hl.
        now rewrite nth_map_range, nth_firstn, (proj2 (Nat.ltb_lt _ _) Hl).
    + intros l Hl. rewrite (index_nth _ (mkT [] [])) by lia. cbn [bind].
      now rewrite tf_identity_id.
Qed.

(** ** Splitting a batch *)

Lemma tf_split_not_multiple {A : Type} (t : tensor A) (n num : nat) (tl : list nat) :
  shape t = n :: tl -> n mod num <> 0 -> tf_split t num = Err (TFError Split).
Proof.
  intros Hsh Hmod. unfold tf_split. rewrite Hsh.
  destruct (Nat.eqb_spec num 0); [reflexivity|].
  destruct (Nat.eqb_spec (n mod num) 0); [contradiction|reflexivity].
Qed.

Lemma firstn_plus {A : Type} (xs : list A) (a b : nat) :
  firstn (a + b) xs = firstn a xs ++ firstn b (skipn a xs).
Proof.
  revert xs. induction a as [|a IH]; intros xs; [reflexivity|].
  destruct xs as [|x xs]; simpl.
  - now rewrite firstn_nil.
  - now rewrite IH.
Qed.

Lemma concat_chunks {A : Type} (xs : list A) (c num : nat) :
  concat (map (fun i => firstn c (skipn (i * c) xs)) (seq 0 num))
  = firstn (num * c) xs.
Proof.
  induction num as [|num IH]; [reflexivity|].
  rewrite seq_S, map_app, concat_app, IH. cbn [map concat Nat.add].
  rewrite app_nil_r. replace (S num * c) with (num * c + c) by lia.
  now rewrite firstn_plus.
Qed.

Lemma tf_split_multiple {A : Type} (t : tensor A) (n num : nat) (tl : list nat) :
  shape t = n :: tl -> 0 < num -> n mod num = 0 ->
  exists pieces,
    tf_split t num = Ok pieces /\
    length pieces = num /\
    (forall s, In s pieces -> shape s = (n / num) :: tl) /\
    concat (map (@data A) pieces) = firstn (n * numel tl) (data t).
Proof.
  intros Hsh Hpos Hmod. unfold tf_split. rewrite Hsh.
  destruct (Nat.eqb_spec num 0); [lia|].
  rewrite Hmod. cbn [Nat.eqb negb orb].
  eexists. split; [reflexivity|]. split; [|split].
  - now rewrite length_map, length_seq.
  - intros s Hs. apply in_map_iff in Hs as (i & <- & _). reflexivity.
  - rewrite map_map. cbn [data].
    rewrite (map_ext _ (fun i => firstn (n / num * numel tl)
                                   (skipn (i * (n / num * numel tl)) (data t)))).
    + rewrite concat_chunks. f_equal.
      assert (Hn : n = num * (n / num)) by (apply Nat.Div0.div_exact; exact Hmod).
      rewrite Hn at 2. lia.
    + intros i. f_equal. f_equal. lia.
Qed.

(** ** C7: a batch that does not split evenly *)



(** ** flatten on the gradients of a truncated parameter list *)

Lemma conforms_shapes {A B : Type} (layers : list nat) (gs : list (tensor A))
    (ps : list (tensor B)) :
  map (@shape A) gs = map (@shape B) ps ->
  map (fun t => length (data t)) gs = map (fun t => length (data t)) ps ->
  conforms layers gs = conforms layers ps.
Proof.
  intros Hsh Hdl. unfold conforms.
  assert (Hlen : length gs = length ps)
    by (rewrite <- (length_map (@shape A) gs), Hsh; apply length_map).
  rewrite Hlen. f_equal. apply forallb_ext_all. intros l.
  assert (Hat : forall i,
            match nth_error gs i, nth_error ps i with
            | Some g, Some p => shape g = shape p /\ length (data g) = length (data p)
            | None, None => True
            | _, _ => False
            end).
  { intros i.
    assert (H1 := f_equal (fun xs => nth_error xs i) Hsh).
    assert (H2 := f_equal (fun xs => nth_error xs i) Hdl).
    cbn beta in H1, H2. rewrite !nth_error_map in H1, H2.
    destruct (nth_error gs i), (nth_error ps i); cbn in *;
      try discriminate; auto.
    injection H1 as H1. injection H2 as H2. auto. }
  pose proof (Hat l) as H1. pose proof (Hat (l + length layers - 1)) as H2.
  destruct (nth_error gs l), (nth_error ps l); try contradiction; [|reflexivity].
  destruct (nth_error gs (l + length layers - 1)),
           (nth_error ps (l + length layers - 1)); try contradiction; [|reflexivity].
  destruct H1 as [-> ->], H2 as [-> ->]. reflexivity.
Qed.

(** With three widths or more, a list of [len(layers)] tensors shaped like
    the first [len(layers)] parameters has no entry at the position of the
    second bias vector. *)
Lemma flatten_truncated {A : Type} (layers : list nat) (gs : list (tensor A)) :
  3 <= length layers ->
  length gs = length layers ->
  (forall l, l < length layers - 1 ->
     length (data (nth l gs (mkT [] []))) = nth l layers 0 * nth (l + 1) layers 0) ->
  flatten layers gs = Err IndexError.
Proof.
  intros Hs Hlen Hdl. unfold flatten, flatten_with.
  rewrite (mapM_range_ok _
             (fun l => mkT [nth l layers 0 * nth (l + 1) layers 0]
                           (data (nth l gs (mkT [] []))))).
  2:{ intros l Hl.
      rewrite (index_nth _ (mkT [] [])) by lia.
      rewrite (index_nth _ 0) by lia.
      rewrite (index_nth _ 0) by lia.
      cbn [bind]. unfold tf_reshape. rewrite (Hdl l Hl).
      cbn [numel fold_right]. now rewrite Nat.mul_1_r, Nat.eqb_refl. }
  cbn [bind]. rewrite tf_concat_vectors.
  2:{ unfold range. destruct (length layers - 1) eqn:E; [lia|discriminate]. }
  2:{ intros t Ht. apply in_map_iff in Ht as (l & <- & _). eexists. reflexivity. }
  cbn [bind].
  replace (range (length layers - 1)) with ([0] ++ 1 :: seq 2 (length layers - 3)).
  2:{ unfold range. replace (length layers - 1) with (S (S (length layers - 3))) by lia.
      reflexivity. }
  rewrite (@mapM_err_at _ _ _ [0] _ 1 IndexError); [reflexivity| |].
  - intros l [<-|[]]. exists (nth (length layers - 1) gs (mkT [] [])).
    replace (0 + length layers - 1) with (length layers - 1) by lia.
    apply index_nth. lia.
  - apply index_out. lia.
Qed.


(** ** Results of a list comprehension, item by item *)

Lemma mapM_nth {A B : Type} (f : A -> result B) (xs : list A) (ys : list B)
    (d : A) (d' : B) :
  mapM f xs = Ok ys ->
  forall i, i < length xs -> f (nth i xs d) = Ok (nth i ys d').
Proof.
  intros H. apply mapM_Forall2 in H.
  induction H as [|x y xs ys Hxy _ IH]; intros i Hi; simpl in Hi; [lia|].
  destruct i as [|i]; [exact Hxy|]. apply IH. lia.
Qed.

Lemma mapM_range_nth {B : Type} (f : nat -> result B) (n : nat) (ys : list B) (d' : B) :
  mapM f (range n) = Ok ys ->
  length ys = n /\ forall l, l < n -> f l = Ok (nth l ys d').
Proof.
  intros H. split.
  - rewrite (mapM_length _ _ H). unfold range. apply length_seq.
  - intros l Hl. pose proof (mapM_nth _ _ 0 d' H (i := l)) as E.
    unfold range in E. rewrite length_seq, seq_nth in E by lia. now apply E.
Qed.

Lemma index_ok {A : Type} (xs : list A) (i : nat) (x d : A) :
  index xs i = Ok x -> nth i xs d = x /\ i < length xs.
Proof.
  unfold index. destruct (nth_error xs i) as [x'|] eqn:E; [|discriminate].
  intros H. injection H as <-. split.
  - now apply nth_error_nth.
  - apply nth_error_Some. congruence.
Qed.

Lemma tf_reshape_ok {A : Type} (t w : tensor A) (sh : list nat) :
  tf_reshape t sh = Ok w -> w = mkT sh (data t) /\ length (data t) = numel sh.
Proof.
  unfold tf_reshape. destruct (Nat.eqb_spec (length (data t)) (numel sh)); [|discriminate].
  intros H. injection H as <-. auto.
Qed.

(** ** Running the approximation *)

Lemma tf_matmul_gram {A : Type} {ar : Arith A} (g : tensor A) (b k : nat) :
  shape g = [b; k] ->
  tf_matmul (tf_transpose g) g
  = Ok (mkT [k; k]
            (flat_map (fun i =>
                         map (fun j =>
                                num_sum (map (fun l =>
                                                num_mul (nth (i * b + l) (data (tf_transpose g)) num_zero)
                                                        (nth (l * k + j) (data g) num_zero))
                                             (seq 0 b)))
                             (seq 0 k))
                      (seq 0 k))).
Proof.
  intros Hsh. unfold tf_matmul. cbn [tf_transpose shape]. rewrite Hsh.
  cbn [rev app]. now rewrite Nat.eqb_refl.
Qed.

Lemma tf_split_length {A : Type} (t : tensor A) (num : nat) (ps : list (tensor A)) :
  tf_split t num = Ok ps -> length ps = num.
Proof.
  unfold tf_split. destruct (shape t) as [|n tl]; [discriminate|].
  destruct ((num =? 0) || negb (n mod num =? 0)); [discriminate|].
  intros H. injection H as <-. now rewrite length_map, length_seq.
Qed.

Lemma tf_split_ok_pos {A : Type} (t : tensor A) (num : nat) (ps : list (tensor A)) :
  tf_split t num = Ok ps -> 0 < num.
Proof.
  unfold tf_split. destruct (shape t); [discriminate|].
  destruct (Nat.eqb_spec num 0); [discriminate|lia].
Qed.

Lemma index_repeat {A : Type} (x : A) (n i : nat) :
  i < n -> index (repeat x n) i = Ok x.
Proof.
  intros Hi. rewrite (index_nth _ x) by (rewrite repeat_length; lia).
  f_equal. apply nth_repeat.
Qed.

Lemma bind_ok {A B : Type} (r : result A) (k : A -> result B) (b : B) :
  bind r k = Ok b -> exists a, r = Ok a /\ k a = Ok b.
Proof. destruct r as [a|e]; simpl; [eauto|discriminate]. Qed.

Lemma mapM_In {A B : Type} (f : A -> result B) (xs : list A) (ys : list B) (y : B) :
  mapM f xs = Ok ys -> In y ys -> exists x, In x xs /\ f x = Ok y.
Proof.
  intros H. apply mapM_Forall2 in H. induction H as [|x y' xs ys Hxy _ IH].
  - intros [].
  - intros [<-|Hy].
    + exists x. split; [now left|assumption].
    + destruct (IH Hy) as (x' & Hx' & Hf). exists x'. split; [now right|assumption].
Qed.

Lemma nth_combine_repeat {A B : Type} (xs : list A) (c : B) (n i : nat) (d : A) :
  length xs = n -> i < n ->
  nth i (combine xs (repeat c n)) (d, c) = (nth i xs d, c).
Proof.
  intros Hlen Hi. rewrite combine_nth by (now rewrite repeat_length).
  now rewrite nth_repeat.
Qed.

(** The run of [get_G_op] when the calls it makes return: the two splits,
    the model and the cost on every example. *)
Section OPGRun.
Variable model_fun : tensor Q -> list (tensor Q) -> result (tensor Q).
Variable cost_fun : tensor Q -> tensor Q -> list (tensor Q) -> result (tensor Q).
Variable gradients : tensor Q -> list (tensor Q) -> list (tensor Q).
Variable layers : list nat.
Variable params : list (tensor Q).
Variables X y : tensor Q.
Variable batch_size : nat.
Variables ex_X ex_y : list (tensor Q).
Hypothesis Hschema : 2 <= length layers.
Hypothesis Hconf : conforms layers params = true.
Hypothesis HX : tf_split X batch_size = Ok ex_X.
Hypothesis Hy : tf_split y batch_size = Ok ex_y.

Let copy := firstn (length layers) params.

Hypothesis Hcalls :
  forall i, i < batch_size ->
    exists r c,
      model_fun (nth i ex_X (mkT [] [])) copy = Ok r /\
      cost_fun (nth i ex_y (mkT [] [])) r copy = Ok c.
Hypothesis Hgrad : shape_preserving gradients.

Lemma batch_positive : 0 < batch_size.
Proof. exact (tf_split_ok_pos _ _ HX). Qed.

Lemma params_enough : length layers <= length params.
Proof. pose proof (@conforms_length Q layers params Hconf). lia. Qed.

(** Up to the gradients, nothing fails: the rows of [ex_grads] are the
    flattened gradients with respect to the copy. *)
Lemma ex_grads_op_rows :
  exists ex_cost,
    length ex_cost = batch_size /\
    ex_grads_op model_fun cost_fun gradients layers params X y batch_size
    = (rows <- mapM (fun ex =>
                       c <- index ex_cost ex ;;
                       p <- index (repeat copy batch_size) ex ;;
                       flatten layers (gradients c p))
                    (range batch_size) ;;
       tf_stack rows).
Proof.
  unfold ex_grads_op. rewrite ex_params_op_prefix by exact params_enough.
  fold copy. cbn [bind]. rewrite HX, Hy. cbn [bind].
  pose proof (tf_split_length _ _ HX) as HlX.
  pose proof (tf_split_length _ _ Hy) as Hly.
  destruct (@mapM_total _ _ (fun xp => model_fun (fst xp) (snd xp))
              (fun _ => True) (combine ex_X (repeat copy batch_size))
              (mkT [] [], copy) (mkT [] []))
    as (yhat & Hyhat & Hlh & _ & Hnth).
  { intros xp Hin. apply (In_nth _ _ (mkT [] [], copy)) in Hin as (i & Hi & <-).
    rewrite length_combine, repeat_length, HlX, Nat.min_id in Hi.
    rewrite nth_combine_repeat by assumption. cbn [fst snd].
    destruct (Hcalls Hi) as (r & _ & Hr & _). eauto. }
  rewrite length_combine, repeat_length, HlX, Nat.min_id in Hlh, Hnth.
  rewrite Hyhat. cbn [bind].
  destruct (@mapM_total _ _
              (fun yhp => cost_fun (fst (fst yhp)) (snd (fst yhp)) (snd yhp))
              (fun _ => True)
              (combine (combine ex_y yhat) (repeat copy batch_size))
              (mkT [] [], mkT [] [], copy) (mkT [] []))
    as (ex_cost & -> & Hlc & _).
  { intros yhp Hin.
    apply (In_nth _ _ (mkT [] [], mkT [] [], copy)) in Hin as (i & Hi & <-).
    rewrite !length_combine, repeat_length, Hly, Hlh, !Nat.min_id in Hi.
    rewrite nth_combine_repeat
      by (rewrite ?length_combine, ?Hly, ?Hlh, ?Nat.min_id; auto).
    rewrite combine_nth by lia. cbn [fst snd].
    destruct (Hcalls Hi) as (r & c & Hr & Hc).
    specialize (Hnth i Hi). rewrite nth_combine_repeat in Hnth by assumption.
    cbn [fst snd] in Hnth. rewrite Hr in Hnth. injection Hnth as <-. eauto. }
  cbn [bind]. exists ex_cost. split; [|reflexivity].
  rewrite Hlc, !length_combine, Hlh, repeat_length. lia.
Qed.

Lemma copy_at (ex : nat) :
  ex < batch_size -> index (repeat copy batch_size) ex = Ok copy.
Proof. apply index_repeat. Qed.

Lemma gradients_length (c : tensor Q) (xs : list (tensor Q)) :
  length (gradients c xs) = length xs.
Proof.
  destruct (Hgrad c xs) as [Hsh _].
  rewrite <- (length_map (@shape Q) (gradients c xs)), Hsh. apply length_map.
Qed.

Lemma length_copy : length copy = length layers.
Proof. unfold copy. rewrite length_firstn. pose proof params_enough. lia. Qed.

(** With three widths or more the first row already fails. *)
Lemma ex_grads_op_out_of_range :
  3 <= length layers ->
  ex_grads_op model_fun cost_fun gradients layers params X y batch_size
  = Err IndexError.
Proof.
  intros H3. destruct ex_grads_op_rows as (ex_cost & Hlen & ->).
  assert (Hr : range batch_size = 0 :: seq 1 (batch_size - 1)).
  { unfold range. generalize batch_positive. generalize batch_size as B.
    intros [|B] HB; [lia|]. simpl. now rewrite Nat.sub_0_r. }
  rewrite Hr. cbn [mapM].
  rewrite (index_nth _ (mkT [] [])) by (pose proof batch_positive; lia). cbn [bind].
  rewrite copy_at by (pose proof batch_positive; lia). cbn [bind].
  rewrite flatten_truncated; [reflexivity|exact H3| |].
  - now rewrite gradients_length, length_copy.
  - intros l Hl.
    destruct (Hgrad (nth 0 ex_cost (mkT [] [])) copy) as [_ Hdl].
    assert (H := f_equal (fun ns => nth l ns 0) Hdl). cbn beta in H.
    rewrite (nth_map_default _ _ (mkT [] [])) in H
      by (rewrite gradients_length, length_copy; lia).
    rewrite (nth_map_default _ _ (mkT [] [])) in H by (rewrite length_copy; lia).
    rewrite H. unfold copy. rewrite nth_firstn.
    replace (l <? length layers) with true by (symmetry; apply Nat.ltb_lt; lia).
    apply (conforms_at layers params Hschema Hconf Hl).
Qed.

(** With exactly two widths every row is a vector of length [P]. *)
Lemma ex_grads_op_two_widths :
  length layers = 2 ->
  exists g,
    ex_grads_op model_fun cost_fun gradients layers params X y batch_size = Ok g /\
    shape g = [batch_size; P layers].
Proof.
  intros H2. destruct ex_grads_op_rows as (ex_cost & Hlen & ->).
  pose proof batch_positive as Hbatch.
  assert (Hcopy : copy = params).
  { unfold copy. apply firstn_all2.
    pose proof (@conforms_length Q layers params Hconf). lia. }
  match goal with |- context [mapM ?f (range batch_size)] =>
    destruct (@mapM_total _ _ f (fun r => shape r = [P layers])
                (range batch_size) 0 (mkT [] []))
      as (rows & -> & Hlr & Hall & _)
  end.
  { intros ex Hex. apply in_seq in Hex.
    rewrite (index_nth _ (mkT [] [])) by lia. cbn [bind].
    rewrite copy_at by lia. cbn [bind].
    rewrite flatten_conforming; [eauto|exact Hschema|].
    destruct (Hgrad (nth ex ex_cost (mkT [] [])) copy) as [Hsh Hdl].
    rewrite (conforms_shapes layers _ _ Hsh Hdl), Hcopy. exact Hconf. }
  cbn [bind]. unfold range in Hlr. rewrite length_seq in Hlr.
  rewrite (@tf_stack_uniform _ [P layers]).
  - eexists. split; [reflexivity|]. cbn [shape]. now rewrite Hlr.
  - destruct rows; [simpl in Hlr; lia|discriminate].
  - exact Hall.
Qed.

(** The list indexing of [get_G_op] stays in range exactly on schemas
    with two widths, where the operator returns a matrix. *)
Lemma get_G_op_index_bounds :
  (get_G_op model_fun cost_fun gradients layers params X y batch_size
   <> Err IndexError <-> length layers = 2) /\
  (length layers = 2 ->
   exists G, get_G_op model_fun cost_fun gradients layers params X y batch_size
             = Ok G /\ shape G = [P layers; P layers]).
Proof.
  assert (Hok : length layers = 2 ->
    exists G, get_G_op model_fun cost_fun gradients layers params X y batch_size
              = Ok G /\ shape G = [P layers; P layers]).
  { intros H2. destruct (ex_grads_op_two_widths H2) as (g & Hg & Hsh).
    unfold get_G_op. rewrite Hg. cbn [bind].
    rewrite (tf_matmul_gram g Hsh). cbn [bind]. eexists. split; reflexivity. }
  split; [|exact Hok]. split.
  - intros Hne. destruct (Nat.eq_dec (length layers) 2) as [|Hn]; [assumption|].
    exfalso. apply Hne. unfold get_G_op.
    rewrite ex_grads_op_out_of_range by lia. reflexivity.
  - intros H2 Habs. destruct (Hok H2) as (G & HG & _). congruence.
Qed.
End OPGRun.

(** ** Entries of matrices stored row by row *)

Lemma nth_concat_uniform {A : Type} (m : nat) (cs : list (list A)) (i j : nat) (d : A) :
  (forall c, In c cs -> length c = m) ->
  i < length cs -> j < m ->
  nth (i * m + j) (concat cs) d = nth j (nth i cs []) d.
Proof.
  revert i. induction cs as [|c cs IH]; simpl; intros i Hall Hi Hj; [lia|].
  assert (Hc : length c = m) by (apply Hall; now left).
  destruct i as [|i]; simpl.
  - apply app_nth1. lia.
  - rewrite app_nth2 by lia.
    replace (m + i * m + j - length c) with (i * m + j) by lia.
    apply IH; [|lia|lia]. intros c' Hc'. apply Hall. now right.
Qed.

Lemma nth_grid {A : Type} (f : nat -> nat -> A) (n m i j : nat) (d : A) :
  i < n -> j < m ->
  nth (i * m + j) (flat_map (fun i' => map (f i') (seq 0 m)) (seq 0 n)) d = f i j.
Proof.
  intros Hi Hj. rewrite flat_map_concat_map.
  rewrite (@nth_concat_uniform _ m).
  - rewrite (nth_map_default _ _ 0) by (rewrite length_seq; lia).
    rewrite seq_nth by lia. cbn [Nat.add].
    rewrite (nth_map_default _ _ 0) by (rewrite length_seq; lia).
    now rewrite seq_nth by lia.
  - intros c Hc. apply in_map_iff in Hc as (k & <- & _).
    now rewrite length_map, length_seq.
  - now rewrite length_map, length_seq.
  - exact Hj.
Qed.

Lemma map_flat_map {A B C : Type} (f : B -> C) (g : A -> list B) (xs : list A) :
  map f (flat_map g xs) = flat_map (fun x => map f (g x)) xs.
Proof.
  induction xs as [|x xs IH]; simpl; [reflexivity|]. now rewrite map_app, IH.
Qed.

Lemma flat_map_ext_in {A B : Type} (f g : A -> list B) (xs : list A) :
  (forall x, In x xs -> f x = g x) -> flat_map f xs = flat_map g xs.
Proof.
  induction xs as [|x xs IH]; intros H; simpl; [reflexivity|].
  rewrite (H x (or_introl eq_refl)), IH; [reflexivity|].
  intros y Hy. apply H. now right.
Qed.

(** The transpose of an [n] by [m] matrix, entry by entry. *)
Lemma tf_transpose_matrix {A : Type} {ar : Arith A} (t : tensor A) (n m : nat) :
  shape t = [n; m] ->
  tf_transpose t
  = mkT [m; n]
        (flat_map (fun j => map (fun i => nth (i * m + j) (data t) num_zero) (seq 0 n))
                  (seq 0 m)).
Proof.
  intros Hsh. unfold tf_transpose. rewrite Hsh. cbn [rev app]. f_equal.
  cbn [indices]. rewrite map_flat_map. apply flat_map_ext_in.
  intros j Hj. apply in_seq in Hj.
  change (flat_map (fun i => map (cons i) [[]]) (seq 0 n)) with (indices [n]).
  rewrite indices_vector, !map_map. apply map_ext_in.
  intros i Hi. apply in_seq in Hi.
  cbn [rev app offset numel fold_right]. f_equal.
  destruct (Nat.eqb_spec n 1) as [->|_], (Nat.eqb_spec m 1) as [->|_]; lia.
Qed.

(** ** The quadratic form of a scaled Gram matrix *)

Lemma Qmult_comm_eq (x y : Q) : (x * y)%Q = (y * x)%Q.
Proof. unfold Qmult. f_equal; [apply Z.mul_comm|apply Pos.mul_comm]. Qed.

Lemma Qsquare_nonneg (x : Q) : (0 <= x * x)%Q.
Proof.
  unfold Qle, Qmult. simpl. rewrite Z.mul_1_r. apply Z.square_nonneg.
Qed.

Lemma qsum_map_eq {A : Type} (f g : A -> Q) (xs : list A) :
  (forall x, In x xs -> f x = g x) -> qsum (map f xs) = qsum (map g xs).
Proof. intros H. f_equal. now apply map_ext_in. Qed.

Section Gram.
Variable g : nat -> nat -> Q.
Variable z : nat -> Q.
Variable b : Q.
Variables B n : nat.

Let S (j k : nat) : Q := (qsum (map (fun i => g i j * g i k) (seq 0 B)) / b)%Q.
Let dot (i : nat) : Q := qsum (map (fun j => z j * g i j)%Q (seq 0 n)).

Lemma gram_quad_form :
  (qsum (map (fun j => qsum (map (fun k => z j * S j k * z k) (seq 0 n))) (seq 0 n))
   == qsum (map (fun i => dot i * dot i) (seq 0 B)) / b)%Q.
Proof.
  transitivity
    (qsum (map (fun j =>
                  qsum (map (fun k =>
                               qsum (map (fun i => (z j * g i j) * (z k * g i k))
                                         (seq 0 B)) * / b)
                            (seq 0 n)))
               (seq 0 n)))%Q.
  { apply qsum_ext. intros j _. apply qsum_ext. intros k _. unfold S, Qdiv.
    set (T := qsum (map (fun i => g i j * g i k) (seq 0 B))%Q).
    transitivity ((z j * z k) * T * / b)%Q; [ring|].
    apply Qmult_comp; [|reflexivity]. unfold T.
    rewrite <- (qsum_scale_l (z j * z k) (fun i => g i j * g i k)%Q (seq 0 B)).
    apply qsum_ext. intros i _. ring. }
  transitivity
    (qsum (map (fun j =>
                  qsum (map (fun i =>
                               qsum (map (fun k => (z j * g i j) * (z k * g i k))
                                         (seq 0 n)))
                            (seq 0 B)))
               (seq 0 n)) * / b)%Q.
  { rewrite <- (qsum_scale_r (/ b)
                  (fun j => qsum (map (fun i =>
                              qsum (map (fun k => (z j * g i j) * (z k * g i k))
                                        (seq 0 n))) (seq 0 B)))%Q (seq 0 n)).
    apply qsum_ext. intros j _.
    rewrite (qsum_scale_r (/ b)
               (fun k => qsum (map (fun i => (z j * g i j) * (z k * g i k))
                                   (seq 0 B)))%Q (seq 0 n)).
    apply Qmult_comp; [|reflexivity].
    apply (qsum_swap (fun k i => (z j * g i j) * (z k * g i k))%Q). }
  unfold Qdiv. apply Qmult_comp; [|reflexivity].
  rewrite (qsum_swap (fun j i =>
             qsum (map (fun k => (z j * g i j) * (z k * g i k)) (seq 0 n)))%Q).
  apply qsum_ext. intros i _. unfold dot.
  rewrite <- (qsum_scale_r (qsum (map (fun k => z k * g i k)%Q (seq 0 n)))
                (fun j => z j * g i j)%Q (seq 0 n)).
  apply qsum_ext. intros j _.
  apply (qsum_scale_l (z j * g i j)%Q (fun k => z k * g i k)%Q (seq 0 n)).
Qed.

Lemma gram_quad_form_nonneg :
  (0 <= b)%Q ->
  (0 <= qsum (map (fun j => qsum (map (fun k => z j * S j k * z k) (seq 0 n)))
                  (seq 0 n)))%Q.
Proof.
  intros Hb. rewrite gram_quad_form. unfold Qdiv.
  apply Qmult_le_0_compat.
  - apply qsum_nonneg. intros i _.
    apply Qsquare_nonneg.
  - now apply Qinv_le_0_compat.
Qed.
End Gram.


(** A sum accumulated in index order is the sum. *)
Lemma num_sum_qsum (xs : list Q) : (num_sum xs == qsum xs)%Q.
Proof.
  unfold num_sum. cbn [num_add num_zero Q_arith].
  assert (H : forall a, (fold_left Qplus xs a == a + qsum xs)%Q).
  { induction xs as [|x xs IH]; intros a; simpl.
    - ring.
    - rewrite IH. ring. }
  rewrite H. ring.
Qed.

(** ** What a successful run of the approximation went through *)

Section OPGResult.
Variable model_fun : tensor Q -> list (tensor Q) -> result (tensor Q).
Variable cost_fun : tensor Q -> tensor Q -> list (tensor Q) -> result (tensor Q).
Variable gradients : tensor Q -> list (tensor Q) -> list (tensor Q).
Variable layers : list nat.
Variable params : list (tensor Q).
Variables X y : tensor Q.
Variable batch_size : nat.
Hypothesis Hschema : 2 <= length layers.
Hypothesis Hconf : conforms layers params = true.
Hypothesis Hgrad : shape_preserving gradients.

Let copy := firstn (length layers) params.

(** A run that returns went through both splits, the model and the cost
    on every example, and stacked one flattened gradient per example. *)
Lemma ex_grads_op_ok (g : tensor Q) :
  ex_grads_op model_fun cost_fun gradients layers params X y batch_size = Ok g ->
  0 < batch_size /\ length layers = 2 /\ shape g = [batch_size; P layers] /\
  exists ex_X ex_y rows,
    tf_split X batch_size = Ok ex_X /\
    tf_split y batch_size = Ok ex_y /\
    tf_unstack g = Ok rows /\
    length rows = batch_size /\
    forall i, i < batch_size ->
      exists yhat c,
        model_fun (nth i ex_X (mkT [] [])) copy = Ok yhat /\
        cost_fun (nth i ex_y (mkT [] [])) yhat copy = Ok c /\
        flatten layers (gradients c copy) = Ok (nth i rows (mkT [] [])).
Proof.
  intros H. unfold ex_grads_op in H.
  pose proof (@conforms_length Q layers params Hconf) as Hlen.
  rewrite ex_params_op_prefix in H by lia. cbn [bind] in H. fold copy in H.
  apply bind_ok in H as (ex_X & HX & H).
  apply bind_ok in H as (ex_y & Hy & H).
  apply bind_ok in H as (yhat & Hyhat & H).
  apply bind_ok in H as (ex_cost & Hcost & H).
  apply bind_ok in H as (rows & Hrows & Hstack).
  pose proof (tf_split_ok_pos _ _ HX) as Hpos.
  pose proof (tf_split_length _ _ HX) as HlX.
  pose proof (tf_split_length _ _ Hy) as Hly.
  assert (Hlh : length yhat = batch_size).
  { rewrite (mapM_length _ _ Hyhat), length_combine, repeat_length. lia. }
  assert (Hlc : length ex_cost = batch_size).
  { rewrite (mapM_length _ _ Hcost), !length_combine, repeat_length. lia. }
  assert (Hlr : length rows = batch_size).
  { rewrite (mapM_length _ _ Hrows). unfold range. apply length_seq. }
  assert (Hrun : forall i, i < batch_size ->
            model_fun (nth i ex_X (mkT [] [])) copy = Ok (nth i yhat (mkT [] [])) /\
            cost_fun (nth i ex_y (mkT [] [])) (nth i yhat (mkT [] [])) copy
            = Ok (nth i ex_cost (mkT [] [])) /\
            flatten layers (gradients (nth i ex_cost (mkT [] [])) copy)
            = Ok (nth i rows (mkT [] []))).
  { intros i Hi. split; [|split].
    - pose proof (mapM_nth _ _ (mkT [] [], copy) (mkT [] []) Hyhat (i := i)) as E.
      rewrite length_combine, repeat_length, HlX, Nat.min_id in E.
      specialize (E Hi). rewrite nth_combine_repeat in E by assumption. exact E.
    - pose proof (mapM_nth _ _ (mkT [] [], mkT [] [], copy) (mkT [] []) Hcost (i := i))
        as E.
      rewrite !length_combine, repeat_length, Hly, Hlh, !Nat.min_id in E.
      specialize (E Hi).
      rewrite nth_combine_repeat in E
        by (rewrite ?length_combine, ?Hly, ?Hlh, ?Nat.min_id; auto).
      rewrite combine_nth in E by lia. exact E.
    - pose proof (mapM_nth _ _ 0 (mkT [] []) Hrows (i := i)) as E.
      unfold range in E. rewrite length_seq in E. specialize (E Hi).
      rewrite seq_nth in E by lia. cbn [Nat.add] in E.
      rewrite (index_nth _ (mkT [] [])) in E by lia. cbn [bind] in E.
      rewrite index_repeat in E by lia. exact E. }
  assert (Hrow : forall r, In r rows ->
            exists c, flatten layers (gradients c copy) = Ok r).
  { intros r Hr. apply (In_nth _ _ (mkT [] [])) in Hr as (i & Hi & <-).
    rewrite Hlr in Hi. destruct (Hrun i Hi) as (_ & _ & E). eauto. }
  assert (Hcopy : length copy = length layers)
    by (unfold copy; rewrite length_firstn; lia).
  assert (Hglen : forall c, length (gradients c copy) = length layers).
  { intros c. destruct (Hgrad c copy) as [Hsh _].
    rewrite <- (length_map (@shape Q) (gradients c copy)), Hsh, length_map.
    exact Hcopy. }
  assert (H2 : length layers = 2).
  { destruct (Nat.eq_dec (length layers) 2) as [|Hn]; [assumption|exfalso].
    destruct rows as [|r0 rows']; [simpl in Hlr; lia|].
    destruct (Hrow r0 (or_introl eq_refl)) as (c & Hc).
    rewrite flatten_truncated in Hc; [discriminate|lia|apply Hglen|].
    intros l Hl. destruct (Hgrad c copy) as [_ Hdl].
    assert (E := f_equal (fun ns => nth l ns 0) Hdl). cbn beta in E.
    rewrite (nth_map_default _ _ (mkT [] [])) in E by (rewrite Hglen; lia).
    rewrite (nth_map_default _ _ (mkT [] [])) in E by lia.
    rewrite E. unfold copy. rewrite nth_firstn.
    replace (l <? length layers) with true by (symmetry; apply Nat.ltb_lt; lia).
    apply (conforms_at layers params Hschema Hconf Hl). }
  split; [exact Hpos|]. split; [exact H2|].
  assert (Hall : forall r, In r rows ->
            shape r = [P layers] /\ length (data r) = numel [P layers]).
  { intros r Hr. destruct (Hrow r Hr) as (c & Hc).
    destruct (Hgrad c copy) as [Hsh Hdl].
    assert (Hcg : conforms layers (gradients c copy) = true).
    { rewrite (conforms_shapes layers _ _ Hsh Hdl). unfold copy.
      rewrite firstn_all2 by lia. exact Hconf. }
    destruct (@flatten_map _ _ (fun q : Q => q) layers _ Hschema Hcg)
      as (theta & Hflat & Hth & _).
    rewrite Hflat in Hc. injection Hc as <-. cbn [shape data numel fold_right].
    split; [reflexivity|lia]. }
  rewrite (tf_stack_uniform (sh := [P layers])) in Hstack.
  2:{ destruct rows; [simpl in Hlr; lia|discriminate]. }
  2:{ intros r Hr. now apply Hall. }
  injection Hstack as <-. cbn [shape]. split; [now rewrite Hlr|].
  exists ex_X, ex_y, rows. split; [exact HX|]. split; [exact Hy|].
  split; [now apply tf_unstack_rows|]. split; [exact Hlr|].
  intros i Hi. destruct (Hrun i Hi) as (E1 & E2 & E3). eauto.
Qed.
End OPGResult.

(** ** The scaled Gram matrix of a stack of rows *)

Section GramTensor.
Variable g : tensor Q.
Variables B n : nat.
Hypothesis Hshape : shape g = [B; n].

Let E (j k : nat) : Q :=
  (num_sum (map (fun i => mat_entry g i j * mat_entry g i k) (seq 0 B))
   / inject_Z (Z.of_nat B))%Q.

Lemma gram_tensor :
  exists m,
    tf_matmul (tf_transpose g) g = Ok m /\
    tensor_div m B
    = mkT [n; n] (flat_map (fun j => map (fun k => E j k) (seq 0 n)) (seq 0 n)).
Proof.
  eexists. split; [apply (tf_matmul_gram g Hshape)|].
  unfold tensor_div. cbn [shape data]. f_equal.
  rewrite map_flat_map. apply flat_map_ext_in. intros j Hj. apply in_seq in Hj.
  rewrite map_map. apply map_ext_in. intros k Hk. apply in_seq in Hk.
  unfold E. cbn [num_div num_mul num_zero Q_arith]. f_equal. f_equal.
  apply map_ext_in. intros i Hi. apply in_seq in Hi.
  rewrite (tf_transpose_matrix g Hshape). cbn [data].
  rewrite nth_grid by lia. unfold mat_entry. rewrite Hshape. reflexivity.
Qed.

Lemma gram_entry_sym (j k : nat) : E j k = E k j.
Proof.
  unfold E. f_equal. f_equal. apply map_ext. intros i. apply Qmult_comm_eq.
Qed.

Let G := mkT [n; n] (flat_map (fun j => map (fun k => E j k) (seq 0 n)) (seq 0 n)).

Lemma gram_mat_entry (j k : nat) : j < n -> k < n -> mat_entry G j k = E j k.
Proof.
  intros Hj Hk. unfold mat_entry, G. cbn [shape data nth].
  now rewrite nth_grid.
Qed.

Lemma gram_symmetric : tf_transpose G = G.
Proof.
  rewrite (@tf_transpose_matrix _ _ G n n) by reflexivity. unfold G. f_equal.
  apply flat_map_ext_in. intros j Hj. apply in_seq in Hj.
  apply map_ext_in. intros k Hk. apply in_seq in Hk.
  cbn [data]. rewrite nth_grid by lia. apply gram_entry_sym.
Qed.

Lemma gram_psd (z : list Q) : length z = n -> (0 <= quad_form G z)%Q.
Proof.
  intros Hz. unfold quad_form. rewrite Hz.
  rewrite (qsum_ext
             (fun j => qsum (map (fun k => nth j z 0 * mat_entry G j k * nth k z 0)
                                 (seq 0 n)))
             (fun j => qsum (map (fun k =>
                                    nth j z 0
                                    * (qsum (map (fun i => mat_entry g i j * mat_entry g i k)
                                                 (seq 0 B))
                                       / inject_Z (Z.of_nat B))
                                    * nth k z 0)
                                 (seq 0 n))))%Q.
  - apply (gram_quad_form_nonneg (fun i j => mat_entry g i j)
             (fun j => nth j z 0%Q) B n (b := inject_Z (Z.of_nat B))).
    unfold Qle. simpl. lia.
  - intros j Hj. apply in_seq in Hj. apply qsum_ext.
    intros k Hk. apply in_seq in Hk.
    rewrite gram_mat_entry by lia. unfold E. now rewrite num_sum_qsum.
Qed.
End GramTensor.

(** ** C4: the approximation is a scaled Gram matrix *)

(** C4, as stated, fails in the engine's arithmetic.  On the schema
    [[1,1]], with float32 parameters [w = 4097] and [b = 3], one example and
    the penalty cost, whose gradient is [(w, b)], [get_G_op] returns a matrix
    whose first entry is [16785408] where [w * w = 16785409], and for
    [z = (3, -4097)] the quadratic form [z^T G z] is [-9]. *)
Lemma get_G_op_float32_not_psd :
  conforms layers11 params32 = true /\
  exists Grad G,
    ex_grads_op penalty_model penalty_cost penalty_gradients
      layers11 params32 X32 y32 1 = Ok Grad /\
    get_G_op penalty_model penalty_cost penalty_gradients
      layers11 params32 X32 y32 1 = Ok G /\
    shape G = [P layers11; P layers11] /\
    (f32_to_Q (mat_entry Grad 0 0) * f32_to_Q (mat_entry Grad 0 0)
     == inject_Z 16785409)%Q /\
    (f32_to_Q (mat_entry G 0 0) == inject_Z 16785408)%Q /\
    (quad_form (tmap f32_to_Q G) [inject_Z 3; inject_Z (-4097)] == inject_Z (-9))%Q /\
    (quad_form (tmap f32_to_Q G) [inject_Z 3; inject_Z (-4097)] < 0)%Q.
Proof.
  split; [reflexivity|]. eexists _, _.
  split; [vm_compute; reflexivity|]. split; [vm_compute; reflexivity|].
  split; [reflexivity|]. repeat split; vm_compute; reflexivity.
Qed.

(** C4, amended.  In exact arithmetic, on a conforming parameter list and
    with a shape-preserving gradient, whenever [get_G_op] returns a matrix
    [G]: both splits returned; the matrix [ex_grads] is [batch_size] by [P]
    and its row [i] is the flattened gradient, with respect to the
    per-example copy of the parameters, of the cost of example [i], the
    cost function applied to label [i], to the model's output on example
    [i] and to the copy; [G] is [P] by [P] with entries
    [G_jk = (sum_i Grad_ij * Grad_ik) / batch_size]; [G] is its own
    transpose; and [z^T G z >= 0] for every vector [z] of length [P]. *)
Theorem get_G_op_gram_psd
    (model_fun : tensor Q -> list (tensor Q) -> result (tensor Q))
    (cost_fun : tensor Q -> tensor Q -> list (tensor Q) -> result (tensor Q))
    (gradients : tensor Q -> list (tensor Q) -> list (tensor Q))
    (layers : list nat) (params : list (tensor Q)) (X y : tensor Q)
    (batch_size : nat) (G : tensor Q) :
  2 <= length layers ->
  conforms layers params = true ->
  shape_preserving gradients ->
  get_G_op model_fun cost_fun gradients layers params X y batch_size = Ok G ->
  exists Grad ex_X ex_y rows,
    ex_grads_op model_fun cost_fun gradients layers params X y batch_size = Ok Grad /\
    shape Grad = [batch_size; P layers] /\
    tf_split X batch_size = Ok ex_X /\
    tf_split y batch_size = Ok ex_y /\
    tf_unstack Grad = Ok rows /\
    length rows = batch_size /\
    (forall i, i < batch_size ->
       exists yhat c,
         model_fun (nth i ex_X (mkT [] [])) (firstn (length layers) params) = Ok yhat /\
         cost_fun (nth i ex_y (mkT [] [])) yhat (firstn (length layers) params) = Ok c /\
         flatten layers (gradients c (firstn (length layers) params))
         = Ok (nth i rows (mkT [] []))) /\
    shape G = [P layers; P layers] /\
    (forall j k, j < P layers -> k < P layers ->
       mat_entry G j k
       = (num_sum (map (fun i => mat_entry Grad i j * mat_entry Grad i k)
                       (seq 0 batch_size))
          / inject_Z (Z.of_nat batch_size))%Q) /\
    tf_transpose G = G /\
    (forall z, length z = P layers -> (0 <= quad_form G z)%Q).
Proof.
  intros Hs Hc Hgrad HG. unfold get_G_op in HG.
  apply bind_ok in HG as (Grad & HGrad & HG).
  destruct (@ex_grads_op_ok _ _ _ _ _ _ _ _ Hs Hc Hgrad _ HGrad)
    as (_ & _ & Hsh & ex_X & ex_y & rows & HX & Hy & Hun & Hlr & Hrows).
  apply bind_ok in HG as (m & Hm & HG). injection HG as <-.
  destruct (@gram_tensor Grad _ _ Hsh) as (m' & Hm' & HG).
  rewrite Hm in Hm'. injection Hm' as <-. rewrite HG.
  exists Grad, ex_X, ex_y, rows.
  split; [exact HGrad|]. split; [exact Hsh|]. split; [exact HX|].
  split; [exact Hy|]. split; [exact Hun|]. split; [exact Hlr|].
  split; [exact Hrows|]. split; [reflexivity|].
  split; [|split].
  - intros j k Hj Hk. apply gram_mat_entry; assumption.
  - apply gram_symmetric.
  - intros z Hz. apply gram_psd; assumption.
Qed.

Lemma get_G_op_gram_psd_witness :
  exists Grad ex_X ex_y rows,
    ex_grads_op penalty_model penalty_cost penalty_gradients layers11 paramsQ11 X2 y2 2
    = Ok Grad /\
    shape Grad = [2; P layers11] /\
    tf_split X2 2 = Ok ex_X /\
    tf_split y2 2 = Ok ex_y /\
    tf_unstack Grad = Ok rows /\
    length rows = 2 /\
    (forall i, i < 2 ->
       exists yhat c,
         penalty_model (nth i ex_X (mkT [] [])) (firstn (length layers11) paramsQ11)
         = Ok yhat /\
         penalty_cost (nth i ex_y (mkT [] [])) yhat (firstn (length layers11) paramsQ11)
         = Ok c /\
         flatten layers11 (penalty_gradients c (firstn (length layers11) paramsQ11))
         = Ok (nth i rows (mkT [] []))) /\
    shape G11 = [P layers11; P layers11] /\
    (forall j k, j < P layers11 -> k < P layers11 ->
       mat_entry G11 j k
       = (num_sum (map (fun i => mat_entry Grad i j * mat_entry Grad i k) (seq 0 2))
          / inject_Z (Z.of_nat 2))%Q) /\
    tf_transpose G11 = G11 /\
    (forall z, length z = P layers11 -> (0 <= quad_form G11 z)%Q).
Proof.
  apply (@get_G_op_gram_psd penalty_model penalty_cost penalty_gradients
           layers11 paramsQ11 X2 y2 2).
  - simpl. lia.
  - reflexivity.
  - intros c xs. split; reflexivity.
  - reflexivity.
Defined.

(** ** C6: list indexing inside the approximation *)

(** C6.  On a conforming parameter list, when the calls that [get_G_op]
    makes return (the two splits, and the model and the cost on every
    example with its copy of the parameters) and the gradient preserves
    shapes, every per-example copy holds the first [len(layers)] parameter
    tensors, and [get_G_op] avoids an index error exactly when the schema
    has two widths: then it returns a [P] by [P] matrix, and with three
    widths or more the flattening of the first gradient list reads past
    its end. *)
Theorem get_G_op_index_in_bounds_iff
    (model_fun : tensor Q -> list (tensor Q) -> result (tensor Q))
    (cost_fun : tensor Q -> tensor Q -> list (tensor Q) -> result (tensor Q))
    (gradients : tensor Q -> list (tensor Q) -> list (tensor Q))
    (layers : list nat) (params : list (tensor Q)) (X y : tensor Q)
    (batch_size : nat) (ex_X ex_y : list (tensor Q)) :
  2 <= length layers ->
  conforms layers params = true ->
  tf_split X batch_size = Ok ex_X ->
  tf_split y batch_size = Ok ex_y ->
  (forall i, i < batch_size ->
     exists r c,
       model_fun (nth i ex_X (mkT [] [])) (firstn (length layers) params) = Ok r /\
       cost_fun (nth i ex_y (mkT [] [])) r (firstn (length layers) params) = Ok c) ->
  shape_preserving gradients ->
  ex_params_op layers params batch_size
  = Ok (repeat (firstn (length layers) params) batch_size) /\
  (get_G_op model_fun cost_fun gradients layers params X y batch_size
   <> Err IndexError <-> length layers = 2) /\
  (length layers = 2 ->
   exists G, get_G_op model_fun cost_fun gradients layers params X y batch_size
             = Ok G /\ shape G = [P layers; P layers]) /\
  (length layers <> 2 ->
   get_G_op model_fun cost_fun gradients layers params X y batch_size
   = Err IndexError).
Proof.
  intros Hs Hc HX Hy Hcalls Hgrad.
  pose proof (@conforms_length Q layers params Hc) as Hlen.
  split; [apply ex_params_op_prefix; lia|].
  destruct (@get_G_op_index_bounds model_fun cost_fun gradients layers params
              X y batch_size ex_X ex_y Hs Hc HX Hy Hcalls Hgrad)
    as [Hiff Hok].
  split; [exact Hiff|]. split; [exact Hok|].
  intros Hne. unfold get_G_op.
  erewrite ex_grads_op_out_of_range; eauto. lia.
Qed.

Lemma get_G_op_index_in_bounds_iff_witness :
  (ex_params_op layers11 paramsQ11 2
   = Ok (repeat (firstn (length layers11) paramsQ11) 2) /\
   (get_G_op penalty_model penalty_cost penalty_gradients layers11 paramsQ11 X2 y2 2
    <> Err IndexError <-> length layers11 = 2) /\
   (length layers11 = 2 ->
    exists G, get_G_op penalty_model penalty_cost penalty_gradients
                layers11 paramsQ11 X2 y2 2 = Ok G /\
              shape G = [P layers11; P layers11]) /\
   (length layers11 <> 2 ->
    get_G_op penalty_model penalty_cost penalty_gradients layers11 paramsQ11 X2 y2 2
    = Err IndexError)) /\
  (ex_params_op layers231 paramsQ231 2
   = Ok (repeat (firstn (length layers231) paramsQ231) 2) /\
   (get_G_op penalty_model penalty_cost penalty_gradients layers231 paramsQ231 X2 y2 2
    <> Err IndexError <-> length layers231 = 2) /\
   (length layers231 = 2 ->
    exists G, get_G_op penalty_model penalty_cost penalty_gradients
                layers231 paramsQ231 X2 y2 2 = Ok G /\
              shape G = [P layers231; P layers231]) /\
   (length layers231 <> 2 ->
    get_G_op penalty_model penalty_cost penalty_gradients layers231 paramsQ231 X2 y2 2
    = Err IndexError)).
Proof.
  split.
  - apply (@get_G_op_index_in_bounds_iff penalty_model penalty_cost penalty_gradients
             layers11 paramsQ11 X2 y2 2
             [mkT [1; 1] [inject_Z 1]; mkT [1; 1] [inject_Z 2]]
             [mkT [1; 1] [inject_Z 0]; mkT [1; 1] [inject_Z 1]]).
    + simpl. lia.
    + reflexivity.
    + reflexivity.
    + reflexivity.
    + intros i Hi. eexists _, _. split; reflexivity.
    + intros c xs. split; reflexivity.
  - apply (@get_G_op_index_in_bounds_iff penalty_model penalty_cost penalty_gradients
             layers231 paramsQ231 X2 y2 2
             [mkT [1; 1] [inject_Z 1]; mkT [1; 1] [inject_Z 2]]
             [mkT [1; 1] [inject_Z 0]; mkT [1; 1] [inject_Z 1]]).
    + simpl. lia.
    + reflexivity.
    + reflexivity.
    + reflexivity.
    + intros i Hi. eexists _, _. split; reflexivity.
    + intros c xs. split; reflexivity.
Defined.

(** ** C5: what each example's copy holds *)

(** C5.  On the schema [[2,3,1]] with its four parameter tensors, each
    per-example copy holds three tensors, the two weight matrices and the
    first bias vector; the second bias vector is in no copy, and the
    operator stops with an index error when it flattens the gradients. *)
Theorem ex_params_op_omits_biases :
  length paramsQ231 = 4 /\
  ex_params_op layers231 paramsQ231 2
  = Ok [firstn 3 paramsQ231; firstn 3 paramsQ231] /\
  get_G_op penalty_model penalty_cost penalty_gradients layers231 paramsQ231 X2 y2 2
  = Err IndexError.
Proof. repeat split. Qed.

(** * Further properties of the codec *)


(** What [unflatten] returns has the shapes of the schema. *)
Lemma unflatten_shapes (A : Type) (layers : list nat) (t : tensor A)
    (ps : list (tensor A)) :
  unflatten layers t = Ok ps -> conforms layers ps = true.
Proof.
  intros H. unfold unflatten in H.
  apply bind_ok in H as (ws & Hws & H).
  apply bind_ok in H as (bi & _ & H).
  apply bind_ok in H as (bs & Hbs & H). injection H as <-.
  apply (mapM_range_nth _ _ (mkT [] [])) in Hws as [Hlw Hw].
  apply (mapM_range_nth _ _ (mkT [] [])) in Hbs as [Hlb Hb].
  unfold conforms. rewrite length_app, Hlw, Hlb.
  replace (length layers - 1 + (length layers - 1) =? 2 * (length layers - 1))
    with true by (symmetry; apply Nat.eqb_eq; lia).
  cbn [andb]. apply forallb_forall. intros l Hl. apply in_seq in Hl.
  assert (Hl' : l < length layers - 1) by lia.
  rewrite nth_error_app1 by lia.
  rewrite nth_error_app2 by lia.
  replace (l + length layers - 1 - length ws) with l by lia.
  rewrite (nth_error_nth' ws (mkT [] [])) by lia.
  rewrite (nth_error_nth' bs (mkT [] [])) by lia.
  specialize (Hw l Hl'). specialize (Hb l Hl').
  apply bind_ok in Hw as (lo & _ & Hw). apply bind_ok in Hw as (hi & _ & Hw).
  apply bind_ok in Hw as (s & _ & Hw). apply bind_ok in Hw as (a & Ha & Hw).
  apply bind_ok in Hw as (b & Hb' & Hw).
  apply (index_ok _ _ 0) in Ha as [<- _]. apply (index_ok _ _ 0) in Hb' as [<- _].
  apply tf_reshape_ok in Hw as [-> Hwl].
  apply bind_ok in Hb as (lo' & _ & Hb). apply bind_ok in Hb as (hi' & _ & Hb).
  apply bind_ok in Hb as (s' & _ & Hb). apply bind_ok in Hb as (b2 & Hb2 & Hb).
  apply (index_ok _ _ 0) in Hb2 as [<- _].
  apply tf_reshape_ok in Hb as [-> Hbl].
  cbn [shape data]. rewrite !shape_eqb_refl. cbn [numel fold_right] in Hwl, Hbl.
  rewrite Hwl, Hbl, !Nat.mul_1_r, !Nat.eqb_refl. reflexivity.
Qed.

(** X1.  When the widths and the parameter count fit a 64-bit integer,
    whatever tensor it is given, a list that [unflatten] returns conforms
    to the schema: [L] matrices of shape [(layers[l], layers[l+1])] followed
    by [L] vectors of shape [(layers[l+1],)], each with as many entries as
    its shape says. *)
Theorem unflatten_conforms (A : Type) (layers : list nat) (t : tensor A)
    (ps : list (tensor A)) :
  int64_schema layers ->
  unflatten layers t = Ok ps -> conforms layers ps = true.
Proof. intros _. apply unflatten_shapes. Qed.

Lemma unflatten_conforms_witness :
  conforms layers11 [mkT [1; 1] [1]%Z; mkT [1] [2]%Z] = true.
Proof.
  apply (@unflatten_conforms Z layers11 flat3).
  - split; [repeat constructor|reflexivity].
  - reflexivity.
Defined.

(** Consecutive slices of a list, put back together. *)
Lemma concat_slices {A : Type} (xs : list A) (ns : list nat) (off k : nat) :
  concat (map (fun l => firstn (nth l ns 0) (skipn (off + list_sum (firstn l ns)) xs))
              (seq 0 k))
  = firstn (list_sum (firstn k ns)) (skipn off xs).
Proof.
  induction k as [|k IH]; [reflexivity|].
  rewrite seq_S, map_app, concat_app, IH. cbn [map concat Nat.add].
  rewrite app_nil_r, list_sum_firstn_S, firstn_plus, skipn_skipn.
  do 3 f_equal. lia.
Qed.

Section Inverse.
Variable A : Type.
Variable layers : list nat.
Variable xs : list A.
Hypothesis Hschema : 2 <= length layers.
Hypothesis Hlong : P layers <= length xs.

Let L := length layers - 1.
Let WL := map (fun l => nth (l + 1) layers 0 * nth l layers 0) (range L).
Let TL := List.tl layers.

(** The entries of the tensors that [unflatten] cuts out of a long enough
    vector. *)
Lemma unflatten_pieces (ps : list (tensor A)) :
  unflatten layers (mkT [length xs] xs) = Ok ps ->
  forall l, l < L ->
    data (nth l ps (mkT [] []))
    = firstn (nth l WL 0) (skipn (0 + list_sum (firstn l WL)) xs) /\
    data (nth (l + L) ps (mkT [] []))
    = firstn (nth l TL 0) (skipn (list_sum WL + list_sum (firstn l TL)) xs).
Proof.
  intros H l Hl. pose proof (@P_offsets layers Hschema) as HP. fold L WL TL in HP.
  pose proof (length_TL layers) as HTL. fold TL L in HTL.
  assert (HWL : length WL = L) by (unfold WL; apply length_map_range).
  unfold unflatten in H.
  apply bind_ok in H as (ws & Hws & H).
  apply bind_ok in H as (bi & Hbi & H).
  apply bind_ok in H as (bs & Hbs & H). injection H as <-.
  apply (mapM_range_nth _ _ (mkT [] [])) in Hws as [Hlw Hw].
  apply (mapM_range_nth _ _ (mkT [] [])) in Hbs as [Hlb Hb].
  fold L in Hlw, Hlb, Hw, Hb.
  rewrite (@binds_value layers Hschema) in Hbi. injection Hbi as <-.
  specialize (Hw l Hl). specialize (Hb l Hl).
  rewrite Nat.add_1_r in Hw, Hb.
  rewrite !(@winds_index layers Hschema) in Hw by (fold L; lia).
  rewrite !(@binds_index layers Hschema) in Hb by (fold L; lia).
  fold L WL TL in Hw, Hb. cbn [bind] in Hw, Hb.
  pose proof (list_sum_firstn_le WL (S l)) as Hle1.
  pose proof (list_sum_firstn_le TL (S l)) as Hle2.
  rewrite list_sum_firstn_S in Hw, Hb, Hle1, Hle2.
  rewrite tf_slice_vector in Hw by lia. rewrite tf_slice_vector in Hb by lia.
  cbn [bind] in Hw, Hb.
  apply bind_ok in Hw as (a & _ & Hw). apply bind_ok in Hw as (b & _ & Hw).
  apply tf_reshape_ok in Hw as [Hw _].
  apply bind_ok in Hb as (b' & _ & Hb). apply tf_reshape_ok in Hb as [Hb _].
  split.
  - rewrite app_nth1 by lia. rewrite Hw. cbn [data Nat.add]. f_equal. lia.
  - rewrite app_nth2 by lia. replace (l + L - length ws) with l by lia.
    rewrite Hb. cbn [data]. f_equal. lia.
Qed.

(** [flatten] after [unflatten] returns the first [P] entries of the
    vector. *)
Lemma flatten_unflatten_firstn :
  exists ps,
    unflatten layers (mkT [length xs] xs) = Ok ps /\
    flatten layers ps = Ok (mkT [P layers] (firstn (P layers) xs)).
Proof.
  destruct (@unflatten_long layers Hschema A xs Hlong) as (ps & Hps & _).
  exists ps. split; [exact Hps|].
  pose proof (@unflatten_shapes A layers _ ps Hps) as Hc.
  pose proof (unflatten_pieces Hps) as Hpieces.
  rewrite (@flatten_conforming A layers ps Hschema Hc). fold L. f_equal. f_equal.
  assert (HWL : length WL = L) by (unfold WL; apply length_map_range).
  pose proof (length_TL layers) as HTL. fold TL L in HTL.
  rewrite (map_ext_in _ (fun l => firstn (nth l WL 0)
                                    (skipn (0 + list_sum (firstn l WL)) xs))).
  2:{ intros l Hl. apply in_seq in Hl. apply Hpieces. lia. }
  rewrite (map_ext_in (fun l => data (nth (l + L) ps (mkT [] [])))
             (fun l => firstn (nth l TL 0)
                         (skipn (list_sum WL + list_sum (firstn l TL)) xs))).
  2:{ intros l Hl. apply in_seq in Hl. apply Hpieces. lia. }
  unfold range. rewrite !concat_slices, app_nil_r.
  rewrite <- HWL at 1. rewrite <- HTL. rewrite !firstn_all.
  rewrite (@P_offsets layers Hschema). fold L WL TL. cbn [skipn].
  symmetry. apply firstn_plus.
Qed.
End Inverse.

(** X2.  [unflatten] then [flatten]: for a schema with at least two widths
    and a vector with at least [P] entries, [unflatten] succeeds and
    [flatten] of its result is the vector of the first [P] entries; on a
    vector of exactly [P] entries the composition is the identity. *)
Theorem flatten_unflatten (A : Type) (layers : list nat) (xs : list A) :
  2 <= length layers ->
  P layers <= length xs ->
  exists ps,
    unflatten layers (mkT [length xs] xs) = Ok ps /\
    flatten layers ps = Ok (mkT [P layers] (firstn (P layers) xs)) /\
    (length xs = P layers -> flatten layers ps = Ok (mkT [length xs] xs)).
Proof.
  intros Hs Hlong.
  destruct (@flatten_unflatten_firstn A layers xs Hs Hlong) as (ps & Hps & Hflat).
  exists ps. split; [exact Hps|]. split; [exact Hflat|].
  intros Heq. rewrite Hflat, <- Heq. now rewrite firstn_all.
Qed.

Lemma flatten_unflatten_witness :
  exists ps,
    unflatten layers11 (mkT [length [1; 2; 3]%Z] [1; 2; 3]%Z) = Ok ps /\
    flatten layers11 ps = Ok (mkT [P layers11] (firstn (P layers11) [1; 2; 3]%Z)) /\
    (length [1; 2; 3]%Z = P layers11 ->
     flatten layers11 ps = Ok (mkT [length [1; 2; 3]%Z] [1; 2; 3]%Z)).
Proof.
  apply (@flatten_unflatten Z layers11 [1; 2; 3]%Z).
  - simpl. lia.
  - cbv. lia.
Defined.

Lemma index_firstn {A : Type} (xs : list A) (n i : nat) :
  i < n -> index (firstn n xs) i = index xs i.
Proof.
  intros Hi. unfold index. rewrite nth_error_firstn.
  now replace (i <? n) with true by (symmetry; apply Nat.ltb_lt; lia).
Qed.

Lemma tf_concat_ok {A : Type} (t0 t : tensor A) (ts : list (tensor A)) :
  tf_concat (t0 :: ts) = Ok t ->
  exists n, shape t = n :: List.tl (shape t0).
Proof.
  unfold tf_concat. destruct (shape t0) as [|n0 tl0]; [discriminate|].
  destruct (forallb _ (t0 :: ts)); [|discriminate].
  intros H. injection H as <-. eexists. reflexivity.
Qed.

(** X3.  [flatten] reads the positions [0 .. 2L-1] of the list and nothing
    else: tensors after them are ignored, and when the schema has at least
    two widths a result is returned only if the list has at least [2L]
    tensors; the result is then a vector, and every weight tensor has
    [layers[l] * layers[l+1]] entries. *)
Theorem flatten_reads_first_2L (A : Type) (layers : list nat)
    (params : list (tensor A)) :
  flatten layers params
  = flatten layers (firstn (2 * (length layers - 1)) params) /\
  (2 <= length layers ->
   forall t, flatten layers params = Ok t ->
     2 * (length layers - 1) <= length params /\
     (exists n, shape t = [n]) /\
     forall l, l < length layers - 1 ->
       length (data (nth l params (mkT [] [])))
       = nth l layers 0 * nth (l + 1) layers 0).
Proof.
  split.
  - unfold flatten, flatten_with.
    rewrite (mapM_ext_in
               (fun l => p <- index (firstn (2 * (length layers - 1)) params) l ;;
                         a <- index layers l ;;
                         b <- index layers (l + 1) ;;
                         tf_reshape p [a * b])
               (fun l => p <- index params l ;;
                         a <- index layers l ;;
                         b <- index layers (l + 1) ;;
                         tf_reshape p [a * b])).
    2:{ intros l Hl. apply in_seq in Hl. rewrite index_firstn by lia. reflexivity. }
    rewrite (mapM_ext_in
               (fun l => index (firstn (2 * (length layers - 1)) params)
                               (l + length layers - 1))
               (fun l => index params (l + length layers - 1))).
    2:{ intros l Hl. apply in_seq in Hl. apply index_firstn. lia. }
    reflexivity.
  - intros Hs t H. unfold flatten, flatten_with in H.
    apply bind_ok in H as (ws & Hws & H).
    apply bind_ok in H as (weights & Hwc & H).
    apply bind_ok in H as (bs & Hbs & H).
    apply bind_ok in H as (biases & _ & H).
    apply (mapM_range_nth _ _ (mkT [] [])) in Hws as [Hlw Hw].
    apply (mapM_range_nth _ _ (mkT [] [])) in Hbs as [_ Hb].
    split; [|split].
    + specialize (Hb (length layers - 2)).
      apply (index_ok _ _ (mkT [] [])) in Hb as [_ Hb]; lia.
    + destruct ws as [|w0 ws']; [simpl in Hlw; lia|].
      specialize (Hw 0). cbn [nth] in Hw.
      apply bind_ok in Hw as (p & _ & Hw); [|lia].
      apply bind_ok in Hw as (a & _ & Hw). apply bind_ok in Hw as (b & _ & Hw).
      apply tf_reshape_ok in Hw as [-> _].
      apply tf_concat_ok in Hwc as [n Hn]. cbn in Hn.
      apply tf_concat_ok in H as [n' Hn']. rewrite Hn in Hn'. cbn in Hn'.
      eauto.
    + intros l Hl. specialize (Hw l Hl).
      apply bind_ok in Hw as (p & Hp & Hw).
      apply bind_ok in Hw as (a & Ha & Hw). apply bind_ok in Hw as (b & Hb' & Hw).
      apply (index_ok _ _ (mkT [] [])) in Hp as [-> _].
      apply (index_ok _ _ 0) in Ha as [<- _]. apply (index_ok _ _ 0) in Hb' as [<- _].
      apply tf_reshape_ok in Hw as [_ Hw]. cbn [numel fold_right] in Hw. lia.
Qed.

(** X4.  [flatten_v2] on a non-empty schema raises an index error when the
    list has fewer than [len(layers)] tensors, and otherwise returns the
    entries of the first [len(layers)] tensors, whatever their shapes. *)
Theorem flatten_v2_first_tensors (A : Type) (layers : list nat)
    (params : list (tensor A)) :
  1 <= length layers ->
  (length params < length layers -> flatten_v2 layers params = Err IndexError) /\
  (length layers <= length params ->
   flatten_v2 layers params
   = Ok (mkT [length (concat (map (@data A) (firstn (length layers) params)))]
             (concat (map (@data A) (firstn (length layers) params))))).
Proof.
  intros Hs. split.
  - intros Hshort. unfold flatten_v2.
    replace (range (length layers))
      with (seq 0 (length params) ++ length params
              :: seq (S (length params)) (length layers - S (length params))).
    2:{ unfold range. change (length params :: seq (S (length params))
                                (length layers - S (length params)))
          with (seq (length params) (S (length layers - S (length params)))).
        rewrite <- seq_app. f_equal. lia. }
    rewrite (@mapM_err_at _ _ _ _ _ _ IndexError); [reflexivity| |].
    + intros l Hl. apply in_seq in Hl.
      rewrite (index_nth _ (mkT [] [])) by lia. cbn [bind]. eauto.
    + now rewrite index_out by lia.
  - intros Hlong. unfold flatten_v2.
    rewrite (mapM_range_ok _ (fun l => tf_reshape_flat (nth l params (mkT [] [])))).
    2:{ intros l Hl. now rewrite (index_nth _ (mkT [] [])) by lia. }
    cbn [bind]. rewrite tf_concat_vectors.
    2:{ unfold range. destruct (length layers); [lia|discriminate]. }
    2:{ intros t Ht. apply in_map_iff in Ht as (l & <- & _). eexists. reflexivity. }
    assert (Hd : map (@data A)
                   (map (fun l => tf_reshape_flat (nth l params (mkT [] [])))
                        (range (length layers)))
                 = map (@data A) (firstn (length layers) params)).
    { apply nth_ext with (d := []) (d' := []).
      - rewrite !length_map, length_firstn. unfold range. rewrite length_seq. lia.
      - intros l Hl. rewrite length_map, length_map_range in Hl.
        rewrite map_map, nth_map_range by lia. cbn [tf_reshape_flat data].
        rewrite (nth_map_default _ _ (mkT [] [])) by (rewrite length_firstn; lia).
        rewrite nth_firstn.
        now replace (l <? length layers) with true by (symmetry; apply Nat.ltb_lt; lia). }
    rewrite Hd. f_equal. f_equal. f_equal.
    rewrite length_concat_sum, <- Hd, !map_map. reflexivity.
Qed.

Lemma flatten_v2_first_tensors_witness :
  (length params231 < length layers231 ->
   flatten_v2 layers231 params231 = Err IndexError) /\
  (length layers231 <= length params231 ->
   flatten_v2 layers231 params231
   = Ok (mkT [length (concat (map (@data Z) (firstn (length layers231) params231)))]
             (concat (map (@data Z) (firstn (length layers231) params231))))).
Proof.
  apply (@flatten_v2_first_tensors Z layers231 params231). simpl. lia.
Defined.

(** X5.  The offset tables of [unflatten] on a schema with at least two
    widths, when the widths and the parameter count fit a 64-bit integer:
    both have [len(layers)] entries; [winds] starts at 0 and steps by
    [layers[l] * layers[l+1]]; [binds] starts where [winds] ends, steps by
    [layers[l+1]] and ends at [P], the parameter count of [__init__]; and
    every entry of both is below [2^63], so that no 64-bit sum or product
    that builds them wraps. *)
Theorem offset_tables (layers : list nat) :
  2 <= length layers ->
  int64_schema layers ->
  exists bs,
    binds layers = Ok bs /\
    length (winds layers) = length layers /\
    length bs = length layers /\
    index (winds layers) 0 = Ok 0 /\
    index bs 0 = index_last (winds layers) /\
    index_last bs = Ok (P layers) /\
    (forall l, l < length layers - 1 ->
       exists lo, index (winds layers) l = Ok lo /\
                  index (winds layers) (l + 1)
                  = Ok (lo + nth l layers 0 * nth (l + 1) layers 0)) /\
    (forall l, l < length layers - 1 ->
       exists lo, index bs l = Ok lo /\
                  index bs (l + 1) = Ok (lo + nth (l + 1) layers 0)) /\
    (forall l w, index (winds layers) l = Ok w -> (Z.of_nat w < 2 ^ 63)%Z) /\
    (forall l b, index bs l = Ok b -> (Z.of_nat b < 2 ^ 63)%Z).
Proof.
  intros Hs [_ H64].
  set (WL := map (fun l => nth (l + 1) layers 0 * nth l layers 0)
                 (range (length layers - 1))).
  assert (HWL : length WL = length layers - 1) by apply length_map_range.
  pose proof (length_TL layers) as HTL.
  assert (Hlw : length (winds layers) = length layers).
  { rewrite winds_eq by exact Hs. unfold cumsum. rewrite cumsum_from_length.
    cbn [length]. rewrite length_map_range. lia. }
  assert (Hlb : length (list_sum WL :: map (Nat.add (list_sum WL))
                                           (cumsum (List.tl layers)))
                = length layers).
  { cbn [length]. unfold cumsum. rewrite length_map, cumsum_from_length. lia. }
  eexists. split; [apply (@binds_value layers Hs)|]. fold WL.
  split; [exact Hlw|]. split; [exact Hlb|].
  split; [now rewrite (@winds_index layers Hs) by lia|].
  split.
  { rewrite (@binds_index layers Hs) by lia.
    rewrite (@index_last_eq _ _ (length layers - 1)) by lia.
    rewrite (@winds_index layers Hs) by lia. fold WL. cbn [firstn list_sum fold_right].
    rewrite firstn_all2 by lia. f_equal. lia. }
  split.
  { rewrite (@index_last_eq _ _ (length layers - 1)) by lia.
    rewrite (@binds_index layers Hs) by lia. fold WL.
    rewrite firstn_all2 by lia. now rewrite (@P_offsets layers Hs). }
  split; [|split; [|split]].
  - intros l Hl. eexists. split; [apply (@winds_index layers Hs); lia|].
    rewrite (@winds_index layers Hs) by lia. fold WL.
    rewrite Nat.add_1_r, list_sum_firstn_S. unfold WL at 2.
    rewrite nth_map_range by lia. rewrite Nat.add_1_r. do 2 f_equal. lia.
  - intros l Hl. eexists. split; [apply (@binds_index layers Hs); lia|].
    rewrite (@binds_index layers Hs) by lia. fold WL.
    rewrite Nat.add_1_r, list_sum_firstn_S, (@nth_TL layers Hs), Nat.add_1_r.
    f_equal. lia.
  - intros l w Hw. pose proof (index_ok _ _ 0 Hw) as [_ Hl].
    rewrite (@winds_index layers Hs) in Hw by lia. fold WL in Hw.
    injection Hw as <-.
    pose proof (list_sum_firstn_le WL l) as H1.
    pose proof (@P_offsets layers Hs) as HP. fold WL in HP. lia.
  - intros l b Hb. pose proof (index_ok _ _ 0 Hb) as [_ Hl].
    rewrite (@binds_index layers Hs) in Hb by lia. fold WL in Hb.
    injection Hb as <-.
    pose proof (list_sum_firstn_le (List.tl layers) l) as H1.
    pose proof (@P_offsets layers Hs) as HP. fold WL in HP. lia.
Qed.

Lemma offset_tables_witness :
  exists bs,
    binds layers231 = Ok bs /\
    length (winds layers231) = length layers231 /\
    length bs = length layers231 /\
    index (winds layers231) 0 = Ok 0 /\
    index bs 0 = index_last (winds layers231) /\
    index_last bs = Ok (P layers231) /\
    (forall l, l < length layers231 - 1 ->
       exists lo, index (winds layers231) l = Ok lo /\
                  index (winds layers231) (l + 1)
                  = Ok (lo + nth l layers231 0 * nth (l + 1) layers231 0)) /\
    (forall l, l < length layers231 - 1 ->
       exists lo, index bs l = Ok lo /\
                  index bs (l + 1) = Ok (lo + nth (l + 1) layers231 0)) /\
    (forall l w, index (winds layers231) l = Ok w -> (Z.of_nat w < 2 ^ 63)%Z) /\
    (forall l b, index bs l = Ok b -> (Z.of_nat b < 2 ^ 63)%Z).
Proof.
  apply (@offset_tables layers231).
  - simpl. lia.
  - split; [repeat constructor|reflexivity].
Defined.

(** * Further properties of the Hessian operators *)

(** X6.  [get_Hv_op] is linear in its direction: on a conforming parameter
    list whose every tensor both backward passes reach, and for directions
    [v1], [v2] of length [P], every entry of [get_Hv_op (a*v1 + b*v2)]
    evaluates in exact arithmetic to [a] times the entry of [get_Hv_op v1]
    plus [b] times the entry of [get_Hv_op v2]. *)
Theorem get_Hv_op_linear (layers : list nat) (cost : tensor expr)
    (params : list (tensor nat)) (a b : Q) (v1 v2 : tensor expr) :
  2 <= length layers ->
  conforms layers params = true ->
  twice_connected layers cost params = true ->
  shape v1 = [P layers] -> length (data v1) = P layers ->
  shape v2 = [P layers] -> length (data v2) = P layers ->
  exists h1 h2 h12,
    get_Hv_op layers cost params v1 = Ok (mkT [P layers] h1) /\
    get_Hv_op layers cost params v2 = Ok (mkT [P layers] h2) /\
    get_Hv_op layers cost params (lincomb a v1 b v2) = Ok (mkT [P layers] h12) /\
    forall env j, j < P layers ->
      (eval env (nth j h12 (Const 0))
       == a * eval env (nth j h1 (Const 0)) + b * eval env (nth j h2 (Const 0)))%Q.
Proof.
  intros Hs Hc Htc Hs1 Hl1 Hs2 Hl2.
  destruct v1 as [sh1 d1], v2 as [sh2 d2]. cbn in Hs1, Hl1, Hs2, Hl2. subst sh1 sh2.
  unfold lincomb. cbn [shape data].
  set (d12 := map (fun xy => Add (Mul (Const a) (fst xy)) (Mul (Const b) (snd xy)))
                  (combine d1 d2)).
  destruct (@get_Hv_op_value layers cost params d1 Hs Hc Htc) as (theta & Hflat & Hth & H1).
  destruct (@get_Hv_op_value layers cost params d2 Hs Hc Htc) as (theta2 & Hflat2 & _ & H2).
  destruct (@get_Hv_op_value layers cost params d12 Hs Hc Htc) as (theta3 & Hflat3 & _ & H12).
  rewrite Hflat in Hflat2, Hflat3. injection Hflat2 as <-. injection Hflat3 as <-.
  eexists _, _, _. split; [exact H1|]. split; [exact H2|]. split; [exact H12|].
  assert (Hl12 : length d12 = P layers).
  { unfold d12. rewrite length_map, length_combine. lia. }
  intros env j Hj.
  rewrite !(nth_map_default _ _ 0) by lia.
  rewrite !eval_Hv_entry by assumption.
  rewrite <- !qsum_scale_l, <- qsum_plus.
  apply qsum_ext. intros i Hi. apply in_seq in Hi.
  unfold d12. rewrite (nth_map_default _ _ (Const 0, Const 0))
    by (rewrite length_combine; lia).
  rewrite combine_nth by lia. cbn [fst snd eval]. ring.
Qed.

Lemma get_Hv_op_linear_witness :
  exists h1 h2 h12,
    get_Hv_op layers11 cost11 vars11 (basis 2 0) = Ok (mkT [P layers11] h1) /\
    get_Hv_op layers11 cost11 vars11 (basis 2 1) = Ok (mkT [P layers11] h2) /\
    get_Hv_op layers11 cost11 vars11 (lincomb 3 (basis 2 0) 5 (basis 2 1))
    = Ok (mkT [P layers11] h12) /\
    forall env j, j < P layers11 ->
      (eval env (nth j h12 (Const 0))
       == 3 * eval env (nth j h1 (Const 0)) + 5 * eval env (nth j h2 (Const 0)))%Q.
Proof.
  apply (@get_Hv_op_linear layers11 cost11 vars11 3%Q 5%Q (basis 2 0) (basis 2 1)).
  - simpl. lia.
  - reflexivity.
  - reflexivity.
  - reflexivity.
  - reflexivity.
  - reflexivity.
  - reflexivity.
Defined.

Lemma qsum_delta (f : nat -> Q) (i s n : nat) :
  (qsum (map (fun k => f k * (if i =? k then 1 else 0)) (seq s n))
   == if (s <=? i) && (i <? s + n) then f i else 0)%Q.
Proof.
  revert s. induction n as [|n IH]; intros s; cbn [seq map qsum fold_right].
  - replace ((s <=? i) && (i <? s + 0)) with false; [reflexivity|].
    symmetry. apply andb_false_iff.
    destruct (Nat.leb_spec s i); [right; apply Nat.ltb_ge; lia|now left].
  - fold (qsum (map (fun k => f k * (if i =? k then 1 else 0))%Q (seq (S s) n))).
    rewrite IH.
    destruct (Nat.eqb_spec i s) as [->|Hne].
    + replace ((S s <=? s) && (s <? S s + n)) with false
        by (symmetry; apply andb_false_iff; left; apply Nat.leb_gt; lia).
      replace ((s <=? s) && (s <? s + S n)) with true; [ring|].
      symmetry. apply andb_true_iff. split; [apply Nat.leb_le|apply Nat.ltb_lt]; lia.
    + replace ((s <=? i) && (i <? s + S n)) with ((S s <=? i) && (i <? S s + n)).
      * ring.
      * destruct (Nat.leb_spec (S s) i), (Nat.leb_spec s i),
          (Nat.ltb_spec i (S s + n)), (Nat.ltb_spec i (s + S n)); try reflexivity; lia.
Qed.

Lemma mapM_map {A B C : Type} (f : B -> result C) (h : A -> B) (xs : list A) :
  mapM f (map h xs) = mapM (fun x => f (h x)) xs.
Proof.
  induction xs as [|x xs IH]; [reflexivity|]. cbn [map mapM]. now rewrite IH.
Qed.

Lemma match_nonempty {A B : Type} (xs : list A) (a b : B) :
  xs <> [] -> match xs with [] => a | _ :: _ => b end = b.
Proof. destruct xs; [congruence|reflexivity]. Qed.

(** Mixed second derivatives do not depend on the order. *)
Lemma eval_D_comm (env : nat -> Q) (x y : nat) (e : expr) :
  (eval env (D x (D y e)) == eval env (D y (D x e)))%Q.
Proof.
  induction e as [q|z|e1 IH1 e2 IH2|e1 IH1 e2 IH2|e IH]; cbn [D eval].
  - reflexivity.
  - destruct (y =? z), (x =? z); reflexivity.
  - now rewrite IH1, IH2.
  - rewrite IH1, IH2. ring.
  - reflexivity.
Qed.

(** The matrix that [get_H_op] builds on a conforming parameter list. *)
Lemma get_H_op_value (layers : list nat) (cost : tensor expr)
    (params : list (tensor nat)) :
  2 <= length layers ->
  conforms layers params = true ->
  twice_connected layers cost params = true ->
  exists theta rows,
    flatten layers params = Ok (mkT [P layers] theta) /\
    length theta = P layers /\
    get_H_op layers cost params
    = Ok (mkT [P layers; P layers] (concat (map (@data expr) rows))) /\
    length rows = P layers /\
    forall i, i < P layers ->
      get_Hv_op layers cost params (basis (P layers) i)
      = Ok (nth i rows (mkT [] [])) /\
      shape (nth i rows (mkT [] [])) = [P layers] /\
      length (data (nth i rows (mkT [] []))) = P layers /\
      forall env j, j < P layers ->
        (eval env (nth j (data (nth i rows (mkT [] []))) (Const 0))
         == eval env (hessian cost theta j i))%Q.
Proof.
  intros Hs Hc Htc.
  destruct (@get_Hv_op_value layers cost params [] Hs Hc Htc) as (theta & Hflat & Hth & _).
  set (hv := fun i =>
    mkT [P layers]
        (map (fun x =>
                grad_entry x
                  (sum_expr
                     (map (fun k =>
                             Mul (nth k (map (fun x' => grad_entry x' (sum_expr (data cost)))
                                             theta) (Const 0))
                                 (nth k (map StopGradient (data (basis (P layers) i)))
                                      (Const 0)))
                          (seq 0 (P layers)))))
             theta)).
  assert (Hrow : forall i, get_Hv_op layers cost params (basis (P layers) i) = Ok (hv i)).
  { intros i.
    destruct (@get_Hv_op_value layers cost params (data (basis (P layers) i)) Hs Hc Htc)
      as (theta' & Hflat' & _ & Hv).
    rewrite Hflat in Hflat'. injection Hflat' as <-. exact Hv. }
  exists theta, (map hv (seq 0 (P layers))).
  split; [exact Hflat|]. split; [exact Hth|]. split; [|split].
  - unfold get_H_op, tf_map_fn. rewrite tf_unstack_eye. cbn [bind].
    destruct (Nat.eq_dec (P layers) 0) as [H0|Hn0].
    + pose proof (Hrow 0) as H00. unfold hv in H00. rewrite H0 in H00 |- *.
      cbn [seq map tf_eye shape List.tl numel fold_right repeat Nat.mul concat].
      change (basis 0 0) with (mkT [0] (@nil expr)) in H00.
      rewrite H00. reflexivity.
    + rewrite match_nonempty.
      2:{ destruct (P layers); [congruence|discriminate]. }
      rewrite mapM_map, (mapM_ok_map _ hv) by (intros i _; apply Hrow).
      cbn [bind]. rewrite (@tf_stack_uniform _ [P layers]).
      * now rewrite !length_map, length_seq.
      * destruct (P layers); [congruence|discriminate].
      * intros t Ht. apply in_map_iff in Ht as (v & <- & _). reflexivity.
  - now rewrite length_map, length_seq.
  - intros i Hi.
    rewrite (nth_map_default _ _ 0) by (rewrite length_seq; lia).
    rewrite seq_nth by lia. cbn [Nat.add].
    split; [apply Hrow|]. split; [reflexivity|].
    split; [cbn; now rewrite length_map|].
    intros env j Hj. unfold hv. cbn [data].
    rewrite (nth_map_default _ _ 0) by lia.
    rewrite eval_Hv_entry by (auto; cbn; now rewrite length_map, length_seq).
    unfold hessian.
    rewrite (qsum_ext _ (fun k => eval env (D (nth j theta 0%nat)
                                               (D (nth k theta 0%nat)
                                                  (sum_expr (data cost))))
                                 * (if i =? k then 1 else 0))%Q).
    + rewrite qsum_delta. cbn [Nat.leb andb Nat.add].
      now replace (i <? P layers) with true by (symmetry; apply Nat.ltb_lt; lia).
    + intros k Hk. apply in_seq in Hk. cbn [basis data].
      rewrite (nth_map_default _ _ 0) by (rewrite length_seq; lia).
      rewrite seq_nth by lia. cbn [Nat.add eval].
      destruct (i =? k); reflexivity.
Qed.

Lemma get_H_op_entries (layers : list nat) (cost : tensor expr)
    (params : list (tensor nat)) :
  2 <= length layers ->
  conforms layers params = true ->
  twice_connected layers cost params = true ->
  exists theta H,
    flatten layers params = Ok (mkT [P layers] theta) /\
    get_H_op layers cost params = Ok H /\
    forall env i j, i < P layers -> j < P layers ->
      (eval env (graph_entry H i j) == eval env (hessian cost theta j i))%Q.
Proof.
  intros Hs Hc Htc.
  destruct (@get_H_op_value layers cost params Hs Hc Htc) as (theta & rows & Hflat & _ & HH & Hlr & Hrows).
  eexists theta, _. split; [exact Hflat|]. split; [exact HH|].
  intros env i j Hi Hj. unfold graph_entry. cbn [shape data nth].
  rewrite (@nth_concat_uniform _ (P layers)).
  - rewrite (nth_map_default _ _ (mkT [] [])) by lia.
    now apply (Hrows i Hi).
  - intros c Hc'. apply in_map_iff in Hc' as (r & <- & Hr).
    destruct (In_nth _ _ (mkT [] []) Hr) as (k & Hk & <-).
    apply (Hrows k). lia.
  - rewrite length_map. lia.
  - exact Hj.
Qed.

(** X7.  On a conforming parameter list whose every tensor both backward
    passes reach, entry [(i, j)] of the matrix that [get_H_op] returns
    evaluates in exact arithmetic, at every point, to the second derivative
    of the cost with respect to entries [j] and [i] of the flattened
    parameters. *)
Theorem get_H_op_is_hessian (layers : list nat) (cost : tensor expr)
    (params : list (tensor nat)) :
  2 <= length layers ->
  conforms layers params = true ->
  twice_connected layers cost params = true ->
  exists theta H,
    flatten layers params = Ok (mkT [P layers] theta) /\
    get_H_op layers cost params = Ok H /\
    forall env i j, i < P layers -> j < P layers ->
      (eval env (graph_entry H i j)
       == eval env (D (nth j theta 0%nat) (D (nth i theta 0%nat) (sum_expr (data cost)))))%Q.
Proof.
  intros Hs Hc Htc.
  destruct (@get_H_op_entries layers cost params Hs Hc Htc)
    as (theta & H & Hflat & HH & He).
  exists theta, H. split; [exact Hflat|]. split; [exact HH|].
  intros env i j Hi Hj. now rewrite He.
Qed.

Lemma get_H_op_is_hessian_witness :
  exists theta H,
    flatten layers11 vars11 = Ok (mkT [P layers11] theta) /\
    get_H_op layers11 cost11 vars11 = Ok H /\
    forall env i j, i < P layers11 -> j < P layers11 ->
      (eval env (graph_entry H i j)
       == eval env (D (nth j theta 0%nat) (D (nth i theta 0%nat) (sum_expr (data cost11)))))%Q.
Proof.
  apply (@get_H_op_is_hessian layers11 cost11 vars11).
  - simpl. lia.
  - reflexivity.
  - reflexivity.
Defined.

(** X8.  On a conforming parameter list whose every tensor both backward
    passes reach, the matrix that [get_H_op] returns is symmetric at every
    point in exact arithmetic: entries [(i, j)] and [(j, i)] evaluate to
    the same rational number. *)
Theorem get_H_op_symmetric (layers : list nat) (cost : tensor expr)
    (params : list (tensor nat)) :
  2 <= length layers ->
  conforms layers params = true ->
  twice_connected layers cost params = true ->
  exists H,
    get_H_op layers cost params = Ok H /\
    forall env i j, i < P layers -> j < P layers ->
      (eval env (graph_entry H i j) == eval env (graph_entry H j i))%Q.
Proof.
  intros Hs Hc Htc.
  destruct (@get_H_op_entries layers cost params Hs Hc Htc)
    as (theta & H & _ & HH & He).
  exists H. split; [exact HH|].
  intros env i j Hi Hj. rewrite !He by assumption. unfold hessian.
  apply eval_D_comm.
Qed.

Lemma get_H_op_symmetric_witness :
  exists H,
    get_H_op layers11 cost11 vars11 = Ok H /\
    forall env i j, i < P layers11 -> j < P layers11 ->
      (eval env (graph_entry H i j) == eval env (graph_entry H j i))%Q.
Proof.
  apply (@get_H_op_symmetric layers11 cost11 vars11).
  - simpl. lia.
  - reflexivity.
  - reflexivity.
Defined.

(** X9.  On a conforming parameter list, [get_H_op] returns a matrix, and
    [get_Hv_op] a product for a direction of length [P], exactly when both
    backward passes reach every parameter tensor; otherwise both raise,
    [get_H_op] on its first row. *)
Theorem get_H_op_returns_iff_connected (layers : list nat) (cost : tensor expr)
    (params : list (tensor nat)) :
  2 <= length layers ->
  conforms layers params = true ->
  ((exists H, get_H_op layers cost params = Ok H)
   <-> twice_connected layers cost params = true) /\
  (forall vs,
     (exists r, get_Hv_op layers cost params (mkT [P layers] vs) = Ok r)
     <-> twice_connected layers cost params = true).
Proof.
  intros Hs Hc. split.
  - split.
    + intros (H & HH). eapply get_H_op_ok; eassumption.
    + intros Htc.
      destruct (@get_H_op_stacked layers cost params Hs Hc Htc) as (H & _ & HH & _).
      eauto.
  - intros vs. split.
    + intros (r & Hr). eapply get_Hv_op_ok; eassumption.
    + intros Htc.
      destruct (@get_Hv_op_total layers cost params vs Hs Hc Htc) as (r & Hr & _).
      eauto.
Qed.

Lemma get_H_op_returns_iff_connected_witness :
  ((exists H, get_H_op layers11 cost_linear vars11 = Ok H)
   <-> twice_connected layers11 cost_linear vars11 = true) /\
  (forall vs,
     (exists r, get_Hv_op layers11 cost_linear vars11 (mkT [P layers11] vs) = Ok r)
     <-> twice_connected layers11 cost_linear vars11 = true).
Proof.
  apply (@get_H_op_returns_iff_connected layers11 cost_linear vars11).
  - simpl. lia.
  - reflexivity.
Defined.

(** * Further properties of the approximation *)

Lemma range_pos (n : nat) : 0 < n -> range n = 0 :: seq 1 (n - 1).
Proof. intros H. unfold range. destruct n; [lia|]. simpl. now rewrite Nat.sub_0_r. Qed.

Lemma tf_split_err {A : Type} (t : tensor A) (num : nat) (e : error) :
  tf_split t num = Err e -> e = TFError Split.
Proof.
  unfold tf_split. destruct (shape t); [congruence|].
  destruct ((num =? 0) || negb (_ mod num =? 0)); congruence.
Qed.

(** X10.  When the parameter list has fewer tensors than the schema has
    widths and the batch size is positive, [get_G_op] raises an index error
    while copying the parameters, before the batch is looked at. *)
Theorem get_G_op_short_params
    (model_fun : tensor Q -> list (tensor Q) -> result (tensor Q))
    (cost_fun : tensor Q -> tensor Q -> list (tensor Q) -> result (tensor Q))
    (gradients : tensor Q -> list (tensor Q) -> list (tensor Q))
    (layers : list nat) (params : list (tensor Q)) (X y : tensor Q)
    (batch_size : nat) :
  length params < length layers ->
  0 < batch_size ->
  ex_params_op layers params batch_size = Err IndexError /\
  get_G_op model_fun cost_fun gradients layers params X y batch_size
  = Err IndexError.
Proof.
  intros Hshort HB.
  assert (Hcopy : ex_params_op layers params batch_size = Err IndexError).
  { unfold ex_params_op. rewrite (range_pos HB). cbn [mapM].
    replace (range (length layers))
      with (seq 0 (length params) ++ length params
              :: seq (S (length params)) (length layers - S (length params))).
    2:{ unfold range. change (length params :: seq (S (length params))
                                (length layers - S (length params)))
          with (seq (length params) (S (length layers - S (length params)))).
        rewrite <- seq_app. f_equal. lia. }
    rewrite (@mapM_err_at _ _ _ _ _ _ IndexError); [reflexivity| |].
    - intros l Hl. apply in_seq in Hl.
      rewrite (index_nth _ (mkT [] [])) by lia. cbn [bind]. eauto.
    - now rewrite index_out by lia. }
  split; [exact Hcopy|].
  unfold get_G_op, ex_grads_op. now rewrite Hcopy.
Qed.

Lemma get_G_op_short_params_witness :
  ex_params_op layers231 paramsQ11 2 = Err IndexError /\
  get_G_op penalty_model penalty_cost penalty_gradients layers231 paramsQ11 X2 y2 2
  = Err IndexError.
Proof.
  apply (@get_G_op_short_params penalty_model penalty_cost penalty_gradients
           layers231 paramsQ11 X2 y2 2).
  - simpl. lia.
  - lia.
Defined.

(** X11.  The labels are split like the inputs: when the parameter list has
    at least [len(layers)] tensors and the number of label rows is not a
    multiple of the batch size, [get_G_op] raises the engine's split error
    whatever the input batch is. *)
Theorem get_G_op_labels_split
    (model_fun : tensor Q -> list (tensor Q) -> result (tensor Q))
    (cost_fun : tensor Q -> tensor Q -> list (tensor Q) -> result (tensor Q))
    (gradients : tensor Q -> list (tensor Q) -> list (tensor Q))
    (layers : list nat) (params : list (tensor Q)) (X y : tensor Q)
    (batch_size ny : nat) (tly : list nat) :
  length layers <= length params ->
  shape y = ny :: tly ->
  ny mod batch_size <> 0 ->
  get_G_op model_fun cost_fun gradients layers params X y batch_size
  = Err (TFError Split).
Proof.
  intros Hlen Hy Hmod. unfold get_G_op, ex_grads_op.
  rewrite ex_params_op_prefix by exact Hlen. cbn [bind].
  destruct (tf_split X batch_size) as [ex_X|e] eqn:EX.
  - cbn [bind]. erewrite tf_split_not_multiple; eauto.
  - apply tf_split_err in EX. subst e. reflexivity.
Qed.

Lemma get_G_op_labels_split_witness :
  get_G_op penalty_model penalty_cost penalty_gradients layers11 paramsQ11 X2 X3 2
  = Err (TFError Split).
Proof.
  apply (@get_G_op_labels_split penalty_model penalty_cost penalty_gradients
           layers11 paramsQ11 X2 X3 2 3 [1]).
  - simpl. lia.
  - reflexivity.
  - cbv. lia.
Defined.

(** X12.  An error of the model function on the first example is the error
    of [get_G_op]: with enough parameter tensors and inputs and labels that
    split evenly, if [model_fun] raises [e] on the first input slice and the
    parameter copy, [get_G_op] raises [e]. *)
Theorem get_G_op_model_error
    (model_fun : tensor Q -> list (tensor Q) -> result (tensor Q))
    (cost_fun : tensor Q -> tensor Q -> list (tensor Q) -> result (tensor Q))
    (gradients : tensor Q -> list (tensor Q) -> list (tensor Q))
    (layers : list nat) (params : list (tensor Q)) (X y : tensor Q)
    (batch_size nX ny : nat) (tlX tly : list nat) (e : error) :
  length layers <= length params ->
  0 < batch_size ->
  shape X = nX :: tlX -> nX mod batch_size = 0 ->
  shape y = ny :: tly -> ny mod batch_size = 0 ->
  (forall ex_X, tf_split X batch_size = Ok ex_X ->
     model_fun (nth 0 ex_X (mkT [] [])) (firstn (length layers) params) = Err e) ->
  get_G_op model_fun cost_fun gradients layers params X y batch_size = Err e.
Proof.
  intros Hlen HB HX HXm Hy Hym Hfail. unfold get_G_op, ex_grads_op.
  rewrite ex_params_op_prefix by exact Hlen. cbn [bind].
  destruct (tf_split_multiple X HX HB HXm) as (ex_X & HeX & HlX & _).
  destruct (tf_split_multiple y Hy HB Hym) as (ex_y & Hey & _).
  rewrite HeX, Hey. cbn [bind].
  specialize (Hfail ex_X HeX).
  destruct ex_X as [|x0 rest]; [simpl in HlX; lia|].
  destruct batch_size as [|B]; [lia|].
  cbn [repeat combine mapM fst snd nth] in Hfail |- *.
  now rewrite Hfail.
Qed.

Lemma get_G_op_model_error_witness :
  get_G_op (fun _ _ => Err CallableError) penalty_cost penalty_gradients
           layers11 paramsQ11 X2 y2 2
  = Err CallableError.
Proof.
  apply (@get_G_op_model_error (fun _ _ => Err CallableError) penalty_cost
           penalty_gradients layers11 paramsQ11 X2 y2 2 2 2 [1] [1] CallableError).
  - simpl. lia.
  - lia.
  - reflexivity.
  - reflexivity.
  - reflexivity.
  - reflexivity.
  - intros ex_X _. reflexivity.
Defined.


(** * Further edge behaviour of the operators *)

Lemma tf_multiply_broadcast (p : nat) (xs : list expr) (c : expr) :
  tf_multiply (mkT [p] xs) (mkT [1] [c])
  = Ok (mkT [p] (map (fun i => Mul (nth i xs (Const 0)) c) (seq 0 p))).
Proof.
  unfold tf_multiply. cbn [shape data length Nat.max pad_shape Nat.sub repeat app].
  cbn [broadcast_shapes].
  assert (Hb : (if p =? 1 then Some [p]
                else if p =? 1 then Some [1] else if 1 =? 1 then Some [p] else None)
               = Some [p]) by (destruct (p =? 1); reflexivity).
  rewrite Hb, indices_vector, map_map.
  f_equal. f_equal. apply map_ext_in. intros i Hi. apply in_seq in Hi.
  cbn [offset numel fold_right Nat.eqb Nat.mul Nat.add nth].
  destruct (Nat.eqb_spec p 1) as [->|_].
  - replace i with 0 by lia. reflexivity.
  - now rewrite Nat.mul_1_r, Nat.add_0_r.
Qed.

(** X13.  A direction with a single entry [c] is repeated on every
    coordinate: on a conforming parameter list whose every tensor both
    backward passes reach, [get_Hv_op] accepts it and entry [j] of the
    result evaluates in exact arithmetic to [(sum_i H_ji) * c]. *)
Theorem get_Hv_op_broadcast (layers : list nat) (cost : tensor expr)
    (params : list (tensor nat)) (c : expr) :
  2 <= length layers ->
  conforms layers params = true ->
  twice_connected layers cost params = true ->
  exists theta hv,
    flatten layers params = Ok (mkT [P layers] theta) /\
    get_Hv_op layers cost params (mkT [1] [c]) = Ok (mkT [P layers] hv) /\
    length hv = P layers /\
    forall env j, j < P layers ->
      (eval env (nth j hv (Const 0))
       == qsum (map (fun i => eval env (hessian cost theta j i)) (seq 0 (P layers)))
          * eval env c)%Q.
Proof.
  intros Hs Hc Htc.
  destruct (@get_Hv_op_passes layers cost params Hs Hc Htc)
    as (theta & Hflat & Hth & Hfirst & Hsecond).
  eexists theta, _. split; [exact Hflat|]. split; [|split].
  - unfold get_Hv_op. rewrite Hfirst. cbn [bind].
    unfold tf_stop_gradient. cbn [shape data map].
    rewrite tf_multiply_broadcast. cbn [bind].
    rewrite (map_ext_in
               (fun i => Mul (nth i (map (fun x => grad_entry x (sum_expr (data cost)))
                                         theta) (Const 0))
                             (StopGradient c))
               (fun i => Mul (nth i (map (fun x => grad_entry x (sum_expr (data cost)))
                                         theta) (Const 0))
                             (nth i (map StopGradient (repeat c (P layers))) (Const 0)))).
    + apply Hsecond.
    + intros i Hi. apply in_seq in Hi.
      rewrite (nth_map_default _ _ (Const 0)) by (rewrite repeat_length; lia).
      now rewrite nth_repeat_lt by lia.
  - now rewrite length_map.
  - intros env j Hj. rewrite (nth_map_default _ _ 0) by lia.
    rewrite eval_Hv_entry by (auto; now rewrite repeat_length).
    rewrite <- (qsum_scale_r (eval env c)
                  (fun i => eval env (hessian cost theta j i)) (seq 0 (P layers))).
    apply qsum_ext. intros i Hi. apply in_seq in Hi.
    rewrite nth_repeat_lt by lia. reflexivity.
Qed.

Lemma get_Hv_op_broadcast_witness :
  exists theta hv,
    flatten layers11 vars11 = Ok (mkT [P layers11] theta) /\
    get_Hv_op layers11 cost11 vars11 (mkT [1] [Const 1]) = Ok (mkT [P layers11] hv) /\
    length hv = P layers11 /\
    forall env j, j < P layers11 ->
      (eval env (nth j hv (Const 0))
       == qsum (map (fun i => eval env (hessian cost11 theta j i)) (seq 0 (P layers11)))
          * eval env (Const 1))%Q.
Proof.
  apply (@get_Hv_op_broadcast layers11 cost11 vars11 (Const 1)).
  - simpl. lia.
  - reflexivity.
  - reflexivity.
Defined.

(** X14.  What [flatten] checks: on a schema with at least two widths and a
    list of at least [2L] tensors, it succeeds as soon as every weight
    tensor has [layers[l] * layers[l+1]] entries and every bias tensor is a
    vector.  The shape of a weight tensor and the length of a bias vector
    are not checked: the result has one entry per entry read, which is [P]
    only when the bias lengths add up as in the schema. *)
Theorem flatten_unchecked_shapes (A : Type) (layers : list nat)
    (params : list (tensor A)) :
  2 <= length layers ->
  2 * (length layers - 1) <= length params ->
  (forall l, l < length layers - 1 ->
     length (data (nth l params (mkT [] [])))
     = nth l layers 0 * nth (l + 1) layers 0) ->
  (forall l, l < length layers - 1 ->
     exists n, shape (nth (l + (length layers - 1)) params (mkT [] [])) = [n]) ->
  flatten layers params
  = Ok (mkT [list_sum (map (fun l => nth l layers 0 * nth (l + 1) layers 0)
                           (range (length layers - 1)))
             + list_sum (map (fun l => hd 0 (shape (nth (l + (length layers - 1)) params
                                                        (mkT [] []))))
                             (range (length layers - 1)))]
            (concat (map (fun l => data (nth l params (mkT [] [])))
                         (range (length layers - 1)))
             ++ concat (map (fun l => data (nth (l + (length layers - 1)) params
                                                (mkT [] [])))
                            (range (length layers - 1))))).
Proof.
  intros Hs Hlen Hw Hb. unfold flatten, flatten_with.
  rewrite (mapM_range_ok _
             (fun l => mkT [nth l layers 0 * nth (l + 1) layers 0]
                           (data (nth l params (mkT [] []))))).
  2:{ intros l Hl.
      rewrite (index_nth _ (mkT [] [])) by lia.
      rewrite (index_nth _ 0) by lia.
      rewrite (index_nth _ 0) by lia.
      cbn [bind]. unfold tf_reshape. rewrite (Hw l Hl).
      cbn [numel fold_right]. now rewrite Nat.mul_1_r, Nat.eqb_refl. }
  cbn [bind]. rewrite tf_concat_vectors.
  2:{ unfold range. destruct (length layers - 1) eqn:E; [lia|discriminate]. }
  2:{ intros t Ht. apply in_map_iff in Ht as (l & <- & _). eexists. reflexivity. }
  cbn [bind].
  rewrite (mapM_range_ok _
             (fun l => nth (l + (length layers - 1)) params (mkT [] []))).
  2:{ intros l Hl. replace (l + length layers - 1) with (l + (length layers - 1)) by lia.
      apply index_nth. lia. }
  cbn [bind]. rewrite tf_concat_vectors.
  2:{ unfold range. destruct (length layers - 1) eqn:E; [lia|discriminate]. }
  2:{ intros t Ht. apply in_map_iff in Ht as (l & <- & Hl). apply in_seq in Hl.
      apply Hb. lia. }
  cbn [bind]. rewrite tf_concat_vectors; [|discriminate|].
  2:{ intros t [<-|[<-|[]]]; eexists; reflexivity. }
  cbn [map shape data hd list_sum fold_right concat].
  rewrite !map_map, Nat.add_0_r, app_nil_r. reflexivity.
Qed.

Lemma flatten_unchecked_shapes_witness :
  flatten layers11 [mkT [1] [5]%Z; mkT [3] [7; 8; 9]%Z]
  = Ok (mkT [list_sum (map (fun l => nth l layers11 0 * nth (l + 1) layers11 0)
                           (range (length layers11 - 1)))
             + list_sum (map (fun l => hd 0 (shape (nth (l + (length layers11 - 1))
                                                        [mkT [1] [5]%Z; mkT [3] [7; 8; 9]%Z]
                                                        (mkT [] []))))
                             (range (length layers11 - 1)))]
            (concat (map (fun l => data (nth l [mkT [1] [5]%Z; mkT [3] [7; 8; 9]%Z]
                                             (mkT [] [])))
                         (range (length layers11 - 1)))
             ++ concat (map (fun l => data (nth (l + (length layers11 - 1))
                                                [mkT [1] [5]%Z; mkT [3] [7; 8; 9]%Z]
                                                (mkT [] [])))
                            (range (length layers11 - 1))))).
Proof.
  apply (@flatten_unchecked_shapes Z layers11 [mkT [1] [5]%Z; mkT [3] [7; 8; 9]%Z]).
  - simpl. lia.
  - simpl. lia.
  - intros l Hl. assert (l = 0) as -> by (simpl in Hl; lia). reflexivity.
  - intros l Hl. assert (l = 0) as -> by (simpl in Hl; lia). eexists. reflexivity.
Defined.

(** X15.  [flatten] is injective on conforming parameter lists: two lists
    that conform to the same schema and flatten to the same vector are the
    same list. *)
Theorem flatten_injective (A : Type) (layers : list nat)
    (p q : list (tensor A)) :
  2 <= length layers ->
  conforms layers p = true ->
  conforms layers q = true ->
  flatten layers p = flatten layers q ->
  p = q.
Proof.
  intros Hs Hp Hq Heq.
  assert (H1 : exists V, flatten layers p = Ok V /\ unflatten layers V = Ok p).
  { eexists. split; [apply flatten_conforming|apply unflatten_flattened]; assumption. }
  assert (H2 : exists V, flatten layers q = Ok V /\ unflatten layers V = Ok q).
  { eexists. split; [apply flatten_conforming|apply unflatten_flattened]; assumption. }
  destruct H1 as (V1 & F1 & U1), H2 as (V2 & F2 & U2).
  rewrite F1, F2 in Heq. injection Heq as ->. congruence.
Qed.

Lemma flatten_injective_witness : params231 = params231.
Proof.
  apply (@flatten_injective Z layers231 params231 params231).
  - simpl. lia.
  - reflexivity.
  - reflexivity.
  - reflexivity.
Defined.
